(** * bloodhound: an AVL ordered map in C

    A shallow embedding of the two C sources of the repository:

    - [src/node.c], the node layer: [TreeNode] with parent links and a
      cached height, rotations, rebalancing, lower-bound search, structural
      insertion and erasure (module [Node], proofs in [NodeProofs]);
    - the map layer ([AvlMap_init], [AvlMap_insert], [AvlMap_clear],
      [AvlMap_destroy]) over [AvlNode] (module [Avlbst], proofs in
      [AvlbstProofs]).

    C pointers are addresses into a finite map of cells ([gmap]); [NULL] is
    [None].  Every C function becomes a computation in a small state and
    fault monad: dereferencing an address that holds no live cell (a null
    or dangling pointer, a failed [assert]) is a [Fault]; recursion and
    loops that follow links are bounded by a fuel argument and run out
    with [OutOfFuel]. *)

From Stdlib Require Import ZArith Lia List Sorting.Sorted.
From stdpp Require Import base option list gmap sorting.

Local Open Scope Z_scope.

(* [set_solver] clears hypotheses that are at times already gone. *)
Set Warnings "-clear-no-such-hyp".

(** ** Memory and the monad of C computations *)

Definition addr := positive.
Bind Scope positive_scope with addr.
Definition ptr := option addr.

Inductive outcome (S A : Type) : Type :=
| Done (a : A) (s : S)
| Fault
| OutOfFuel.
Arguments Done {S A} a s.
Arguments Fault {S A}.
Arguments OutOfFuel {S A}.

Definition M (S A : Type) : Type := S -> outcome S A.

Definition ret {S A} (a : A) : M S A := fun s => Done a s.

Definition bind {S A B} (m : M S A) (k : A -> M S B) : M S B :=
  fun s => match m s with
           | Done a s' => k a s'
           | Fault => Fault
           | OutOfFuel => OutOfFuel
           end.

Definition fault {S A} : M S A := fun _ => Fault.
Definition timeout {S A} : M S A := fun _ => OutOfFuel.

Notation "'let*' x := m 'in' k" := (bind m (fun x => k))
  (at level 10, x name, m at level 100, k at level 200, only parsing).

(** Sign conventions of a [strcmp]-like comparator, shared by both layers.
    [cmp a b < 0] reads "a is before b". *)
Class TotalCmp {K : Type} (cmp : K -> K -> Z) : Prop := {
  cmp_antisym : forall a b, Z.sgn (cmp b a) = - Z.sgn (cmp a b);
  cmp_trans : forall a b c, cmp a b <= 0 -> cmp b c <= 0 -> cmp a c <= 0
}.

(** The comparator used by the examples: integer keys, [a - b]. *)
Definition Zcmp (a b : Z) : Z := a - b.

(** ** The node layer, [src/node.c] *)

Module Node.

(** [TreeErrorE] is declared in a header that is not part of the sources at
    hand; these are the three constants [node.c] returns. *)
Inductive TreeErrorE : Set :=
| TREE_SUCCESS
| TREE_NO_SUCH_KEY
| TREE_DUPLICATE_KEY.

#[export] Instance TreeErrorE_eq_dec : EqDecision TreeErrorE.
Proof. solve_decision. Defined.

Section Code.
Context {K V : Type}.

(** [struct TreeNode]: the six fields [node.c] reads and writes.  The
    height is a [ptrdiff_t]; it never exceeds the number of nodes, so it
    is kept in [Z] without a wrap-around. *)
Record TreeNode : Type := mkTreeNode {
  left : ptr;
  right : ptr;
  parent : ptr;
  height : Z;
  key : K;
  value : V
}.

Definition set_left (p : ptr) (n : TreeNode) : TreeNode :=
  mkTreeNode p (right n) (parent n) (height n) (key n) (value n).
Definition set_right (p : ptr) (n : TreeNode) : TreeNode :=
  mkTreeNode (left n) p (parent n) (height n) (key n) (value n).
Definition set_parent (p : ptr) (n : TreeNode) : TreeNode :=
  mkTreeNode (left n) (right n) p (height n) (key n) (value n).
Definition set_height (z : Z) (n : TreeNode) : TreeNode :=
  mkTreeNode (left n) (right n) (parent n) z (key n) (value n).

Abbreviation heap := (gmap addr TreeNode).

(** [*a] read as an rvalue. *)
Definition load (a : addr) : M heap TreeNode :=
  fun h => match h !! a with
           | Some n => Done n h
           | None => Fault
           end.

(** [a->field = ...]: one field of the cell at [a] is overwritten. *)
Definition update (a : addr) (f : TreeNode -> TreeNode) : M heap unit :=
  fun h => match h !! a with
           | Some n => Done tt (<[a := f n]> h)
           | None => Fault
           end.

(** [TreeNode_init]: [self] points to storage the caller provides. *)
Definition TreeNode_init (self : addr) (k : K) (v : V) : M heap TreeErrorE :=
  fun h => Done TREE_SUCCESS (<[self := mkTreeNode None None None 1 k v]> h).

Definition get_height (self : ptr) : M heap Z :=
  match self with
  | None => ret 0
  | Some a => let* n := load a in ret (height n)
  end.

Fixpoint update_height (fuel : nat) (self : addr) : M heap unit :=
  match fuel with
  | O => timeout
  | S fuel =>
      let* n := load self in
      let* left_height := get_height (left n) in
      let* right_height := get_height (right n) in
      let* _ := (if right_height <? left_height
                 then update self (set_height (left_height + 1))
                 else update self (set_height (right_height + 1))) in
      let* n := load self in
      match parent n with
      | None => ret tt
      | Some p => update_height fuel p
      end
  end.

(** [self->parent->left = x] or [self->parent->right = x], whichever
    slot holds [self]; nothing when [self] has no parent. *)
Definition retarget_parent (self : addr) (x : ptr) : M heap unit :=
  let* n := load self in
  match parent n with
  | None => ret tt
  | Some p =>
      let* pn := load p in
      if bool_decide (left pn = Some self)
      then update p (set_left x)
      else update p (set_right x)
  end.

Definition rotate_right (fuel : nat) (self : addr) : M heap addr :=
  let* n := load self in
  match left n with
  | None => fault
  | Some l =>
      let* ln := load l in
      let* _ := (match right ln with
                 | Some lr => update lr (set_parent (Some self))
                 | None => ret tt
                 end) in
      let* ln := load l in
      let* _ := update self (set_left (right ln)) in
      let* _ := update l (set_right (Some self)) in
      let* _ := retarget_parent self (Some l) in
      let* n := load self in
      let* _ := update l (set_parent (parent n)) in
      let* _ := update self (set_parent (Some l)) in
      let* _ := update_height fuel self in
      ret l
  end.

Definition rotate_left (fuel : nat) (self : addr) : M heap addr :=
  let* n := load self in
  match right n with
  | None => fault
  | Some r =>
      let* rn := load r in
      let* _ := (match left rn with
                 | Some rl => update rl (set_parent (Some self))
                 | None => ret tt
                 end) in
      let* rn := load r in
      let* _ := update self (set_right (left rn)) in
      let* _ := update r (set_left (Some self)) in
      let* _ := retarget_parent self (Some r) in
      let* n := load self in
      let* _ := update r (set_parent (parent n)) in
      let* _ := update self (set_parent (Some r)) in
      let* _ := update_height fuel self in
      ret r
  end.

Section WithComparator.
Variable comparator : K -> K -> Z.

(** [bound] is the content of the caller's [*bound] before the call;
    the second component of the result is its content afterwards. *)
Fixpoint TreeNode_lower_bound (fuel : nat) (self : addr) (k : K)
    (bound : ptr) : M heap (TreeErrorE * ptr) :=
  match fuel with
  | O => timeout
  | S fuel =>
      let* n := load self in
      let compare := comparator (key n) k in
      if compare <? 0 then
        match right n with
        | None => ret (TREE_NO_SUCH_KEY, bound)
        | Some r => TreeNode_lower_bound fuel r k bound
        end
      else
        match (if 0 <? compare then left n else None) with
        | Some l =>
            let* res := TreeNode_lower_bound fuel l k bound in
            if bool_decide (fst res <> TREE_SUCCESS)
            then ret (TREE_SUCCESS, Some self)
            else ret (TREE_SUCCESS, snd res)
        | None => ret (TREE_SUCCESS, Some self)
        end
  end.

Fixpoint do_insert (fuel : nat) (self to_insert : addr)
    : M heap TreeErrorE :=
  match fuel with
  | O => timeout
  | S fuel =>
      let* n := load self in
      let* ti := load to_insert in
      let compare := comparator (key n) (key ti) in
      if compare =? 0 then ret TREE_DUPLICATE_KEY
      else
        let attach_parent :=
          let* _ := update to_insert (set_parent (Some self)) in
          ret TREE_SUCCESS in
        if 0 <? compare then
          match left n with
          | Some l => do_insert fuel l to_insert
          | None =>
              let* _ := update self (set_left (Some to_insert)) in
              attach_parent
          end
        else if compare <? 0 then
          match right n with
          | Some r => do_insert fuel r to_insert
          | None =>
              let* _ := update self (set_right (Some to_insert)) in
              attach_parent
          end
        else attach_parent
  end.
End WithComparator.

Definition get_balance_factor (self : addr) : M heap Z :=
  let* n := load self in
  let* lh := get_height (left n) in
  let* rh := get_height (right n) in
  ret (lh - rh).

Fixpoint rebalance (fuel : nat) (self : addr) : M heap unit :=
  match fuel with
  | O => timeout
  | S fuel =>
      let* balance_factor := get_balance_factor self in
      let* _ :=
        (if 1 <? balance_factor then
           let* n := load self in
           let* _ := (match left n with
                      | Some l =>
                          let* bl := get_balance_factor l in
                          if bl <? 0
                          then let* _ := rotate_left fuel l in ret tt
                          else ret tt
                      | None => ret tt
                      end) in
           let* _ := rotate_right fuel self in ret tt
         else if balance_factor <? -1 then
           let* n := load self in
           let* _ := (match right n with
                      | Some r =>
                          let* br := get_balance_factor r in
                          if 0 <? br
                          then let* _ := rotate_right fuel r in ret tt
                          else ret tt
                      | None => ret tt
                      end) in
           let* _ := rotate_left fuel self in ret tt
         else ret tt) in
      let* n := load self in
      match parent n with
      | Some p => rebalance fuel p
      | None => ret tt
      end
  end.

Definition TreeNode_insert (comparator : K -> K -> Z) (fuel : nat)
    (self to_insert : addr) : M heap TreeErrorE :=
  let* r := do_insert comparator fuel self to_insert in
  if bool_decide (r <> TREE_SUCCESS) then ret r
  else
    let* _ := update_height fuel to_insert in
    let* _ := rebalance fuel to_insert in
    ret TREE_SUCCESS.

(** [remove_parent], [replace_left] and [replace_right] each spell out
    the retargeting of the parent's slot; it is [retarget_parent]. *)
Definition remove_parent (self : addr) : M heap unit :=
  let* _ := retarget_parent self None in
  update self (set_parent None).

Definition replace_left (self : addr) : M heap unit :=
  let* n := load self in
  match left n, right n with
  | Some l, None =>
      let* _ := retarget_parent self (Some l) in
      let* n := load self in
      match left n with
      | None => fault
      | Some l =>
          let* _ := update l (set_parent (parent n)) in
          let* _ := update self (set_left None) in
          update self (set_parent None)
      end
  | _, _ => fault
  end.

Definition replace_right (self : addr) : M heap unit :=
  let* n := load self in
  match right n, left n with
  | Some r, None =>
      let* _ := retarget_parent self (Some r) in
      let* n := load self in
      match right n with
      | None => fault
      | Some r =>
          let* _ := update r (set_parent (parent n)) in
          let* _ := update self (set_right None) in
          update self (set_parent None)
      end
  | _, _ => fault
  end.

(** The [for] loop of [inorder_successor], from [successor]. *)
Fixpoint leftmost (fuel : nat) (successor : addr) : M heap addr :=
  match fuel with
  | O => timeout
  | S fuel =>
      let* n := load successor in
      match left n with
      | Some l => leftmost fuel l
      | None => ret successor
      end
  end.

Definition inorder_successor (fuel : nat) (self : addr) : M heap addr :=
  let* n := load self in
  match right n with
  | None => fault
  | Some r => leftmost fuel r
  end.

Definition replace_successor (fuel : nat) (self : addr) : M heap unit :=
  let* n := load self in
  match left n, right n with
  | Some _, Some _ =>
      let* successor := inorder_successor fuel self in
      remove_parent successor
  | _, _ => fault
  end.

Definition TreeNode_erase (fuel : nat) (self : addr) : M heap TreeErrorE :=
  let* n := load self in
  match left n, right n with
  | None, None =>
      let* _ := remove_parent self in ret TREE_SUCCESS
  | Some _, None =>
      let* _ := replace_left self in ret TREE_SUCCESS
  | None, Some _ =>
      let* _ := replace_right self in ret TREE_SUCCESS
  | Some _, Some _ =>
      let* _ := replace_successor fuel self in ret TREE_SUCCESS
  end.

End Code.

Arguments TreeNode : clear implicits.

(** *** Trees laid out in memory

    A [tree] records, for every node, the address of its cell and the
    content of the cell that is not a link.  [tree_at h par t] says that the
    cells of [h] at the addresses of [t] hold exactly this tree, linked as
    [node.c] links it, with [par] as the parent link of the root.  A context
    ([list frame], innermost frame first) is the path from a node up to the
    root, the shape in which [update_height] and [rebalance] see the tree. *)

Section Rep.
Context {K V : Type}.
Abbreviation heap := (gmap addr (TreeNode K V)).

Inductive tree : Type :=
| Empty
| Tree (a : addr) (l : tree) (k : K) (v : V) (ht : Z) (r : tree).

Definition root_of (t : tree) : ptr :=
  match t with Empty => None | Tree a _ _ _ _ _ => Some a end.

(** What [get_height] returns at the root of [t]. *)
Definition cached_height (t : tree) : Z :=
  match t with Empty => 0 | Tree _ _ _ _ ht _ => ht end.

Fixpoint entries (t : tree) : list (K * V) :=
  match t with
  | Empty => []
  | Tree _ l k v _ r => entries l ++ (k, v) :: entries r
  end.

Definition keys (t : tree) : list K := (entries t).*1.

Fixpoint dom_tree (t : tree) : gset addr :=
  match t with
  | Empty => ∅
  | Tree a l _ _ _ r => {[a]} ∪ dom_tree l ∪ dom_tree r
  end.

(** No address occurs twice. *)
Fixpoint distinct (t : tree) : Prop :=
  match t with
  | Empty => True
  | Tree a l _ _ _ r =>
      (a ∉ dom_tree l) ∧ (a ∉ dom_tree r) ∧ (dom_tree l ## dom_tree r) ∧
      distinct l ∧ distinct r
  end.

Fixpoint tree_at (h : heap) (par : ptr) (t : tree) : Prop :=
  match t with
  | Empty => True
  | Tree a l k v ht r =>
      h !! a = Some (mkTreeNode (root_of l) (root_of r) par ht k v) ∧
      tree_at h (Some a) l ∧ tree_at h (Some a) r
  end.

(** The real height, as opposed to the cached one. *)
Fixpoint real_height (t : tree) : Z :=
  match t with
  | Empty => 0
  | Tree _ l _ _ _ r => 1 + Z.max (real_height l) (real_height r)
  end.

(** The two invariants of the specification, on cached heights as
    [get_height] reads them: at every node the cache is one more than the
    larger cache of the children, and the children's caches differ by at
    most one. *)
Fixpoint heights_ok (t : tree) : Prop :=
  match t with
  | Empty => True
  | Tree _ l _ _ ht r =>
      heights_ok l ∧ heights_ok r ∧
      ht = 1 + Z.max (cached_height l) (cached_height r)
  end.

Fixpoint balanced (t : tree) : Prop :=
  match t with
  | Empty => True
  | Tree _ l _ _ _ r =>
      balanced l ∧ balanced r ∧
      -1 <= cached_height l - cached_height r <= 1
  end.

Definition avl (t : tree) : Prop := heights_ok t ∧ balanced t.

(** One step of the path to the root: the hole is the left child of the
    node at [a] ([InLeft], [sib] is the right subtree) or its right child. *)
Inductive frame : Type :=
| InLeft (a : addr) (k : K) (v : V) (ht : Z) (sib : tree)
| InRight (a : addr) (sib : tree) (k : K) (v : V) (ht : Z).

Definition frame_addr (f : frame) : addr :=
  match f with InLeft a _ _ _ _ | InRight a _ _ _ _ => a end.
Definition frame_sib (f : frame) : tree :=
  match f with InLeft _ _ _ _ s | InRight _ s _ _ _ => s end.
Definition frame_ht (f : frame) : Z :=
  match f with InLeft _ _ _ ht _ | InRight _ _ _ _ ht => ht end.
Definition frame_set_ht (z : Z) (f : frame) : frame :=
  match f with
  | InLeft a k v _ s => InLeft a k v z s
  | InRight a s k v _ => InRight a s k v z
  end.

Definition plug1 (f : frame) (t : tree) : tree :=
  match f with
  | InLeft a k v ht s => Tree a t k v ht s
  | InRight a s k v ht => Tree a s k v ht t
  end.

Fixpoint plug (t : tree) (c : list frame) : tree :=
  match c with
  | [] => t
  | f :: c => plug (plug1 f t) c
  end.

Definition ctx_ptr (c : list frame) : ptr :=
  match c with [] => None | f :: _ => Some (frame_addr f) end.

Fixpoint dom_ctx (c : list frame) : gset addr :=
  match c with
  | [] => ∅
  | f :: c => {[frame_addr f]} ∪ dom_tree (frame_sib f) ∪ dom_ctx c
  end.

Fixpoint distinct_ctx (c : list frame) : Prop :=
  match c with
  | [] => True
  | f :: c =>
      (frame_addr f ∉ dom_tree (frame_sib f)) ∧ (frame_addr f ∉ dom_ctx c) ∧
      (dom_tree (frame_sib f) ## dom_ctx c) ∧
      distinct (frame_sib f) ∧ distinct_ctx c
  end.

Definition frame_cell (child : ptr) (par : ptr) (f : frame) : TreeNode K V :=
  match f with
  | InLeft _ k v ht s => mkTreeNode child (root_of s) par ht k v
  | InRight _ s k v ht => mkTreeNode (root_of s) child par ht k v
  end.

Fixpoint ctx_at (h : heap) (child : ptr) (c : list frame) : Prop :=
  match c with
  | [] => True
  | f :: c =>
      h !! frame_addr f = Some (frame_cell child (ctx_ptr c) f) ∧
      tree_at h (Some (frame_addr f)) (frame_sib f) ∧
      ctx_at h (Some (frame_addr f)) c
  end.

(** The heap holds the tree [plug t c], seen from the root of [t]. *)
Definition zip_at (h : heap) (t : tree) (c : list frame) : Prop :=
  tree_at h (ctx_ptr c) t ∧ ctx_at h (root_of t) c ∧
  distinct t ∧ distinct_ctx c ∧ (dom_tree t ## dom_ctx c).

(** The heap holds the whole tree [t]: its root has no parent. *)
Definition whole_at (h : heap) (t : tree) : Prop :=
  tree_at h None t ∧ distinct t.

(** What [update_height] leaves in the frames above a node whose cached
    height has become [hc]. *)
Fixpoint uh_ctx (hc : Z) (c : list frame) : list frame :=
  match c with
  | [] => []
  | f :: c =>
      let ht := 1 + Z.max hc (cached_height (frame_sib f)) in
      frame_set_ht ht f :: uh_ctx ht c
  end.

(** The frames are those of a tree that satisfied both invariants when
    the hole held a subtree of cached height [hh]. *)
Fixpoint ctx_bal (hh : Z) (c : list frame) : Prop :=
  match c with
  | [] => True
  | f :: c =>
      avl (frame_sib f) ∧ -1 <= hh - cached_height (frame_sib f) <= 1 ∧
      ctx_bal (1 + Z.max hh (cached_height (frame_sib f))) c
  end.

(** The cached heights of the frames are right for a hole of cached
    height [hc]. *)
Fixpoint ctx_hts (hc : Z) (c : list frame) : Prop :=
  match c with
  | [] => True
  | f :: c =>
      frame_ht f = 1 + Z.max hc (cached_height (frame_sib f)) ∧
      ctx_hts (frame_ht f) c
  end.

(** Strictly ascending in-order keys, the ordering invariant of the
    specification. *)
Definition bst (cmp : K -> K -> Z) (t : tree) : Prop :=
  Sorted (fun a b => cmp a b < 0) (keys t).

(** The longest path from the root, in nodes: the fuel a descent needs. *)
Fixpoint depth (t : tree) : nat :=
  match t with
  | Empty => 0
  | Tree _ l _ _ _ r => S (Nat.max (depth l) (depth r))
  end.

(** The search of [TreeNode_lower_bound] on the tree itself: the address
    and key of the node it stores in [*bound], if any. *)
Fixpoint lower_bound_of (cmp : K -> K -> Z) (t : tree) (q : K) : option (addr * K) :=
  match t with
  | Empty => None
  | Tree a l k _ _ r =>
      if cmp k q <? 0 then lower_bound_of cmp r q
      else if 0 <? cmp k q then
        match lower_bound_of cmp l q with
        | Some b => Some b
        | None => Some (a, k)
        end
      else Some (a, k)
  end.


(** What a cell holds besides its links. *)
Definition payload (n : TreeNode K V) : K * V * Z := (key n, value n, height n).

(** A computation that, when it completes, has changed links only. *)
Definition links_only {A} (m : M heap A) : Prop :=
  forall h,
    match m h with
    | Done _ h' => forall x, payload <$> (h' !! x) = payload <$> (h !! x)
    | _ => True
    end.

End Rep.

(** *** Concrete trees, for the examples *)

Definition leaf_cell (par : ptr) (k v : Z) : TreeNode Z Z :=
  mkTreeNode None None par 1 k v.

(** Keys 1, 3, 5, 7, 9: the root holds 5. *)
Definition heap5 : gmap addr (TreeNode Z Z) :=
  <[1%positive := mkTreeNode (Some 2%positive) (Some 3%positive) None 3 5 50]>
  (<[2%positive := mkTreeNode (Some 4%positive) None (Some 1%positive) 2 3 30]>
  (<[3%positive := mkTreeNode None (Some 5%positive) (Some 1%positive) 2 7 70]>
  (<[4%positive := leaf_cell (Some 2%positive) 1 10]>
  (<[5%positive := leaf_cell (Some 3%positive) 9 90]> ∅)))).

Definition tree5 : @tree Z Z :=
  Tree 1 (Tree 2 (Tree 4 Empty 1 10 1 Empty) 3 30 2 Empty) 5 50 3
         (Tree 3 Empty 7 70 2 (Tree 5 Empty 9 90 1 Empty)).

(** A node with key 7 offered to the tree that already stores 7. *)
Definition heap5_dup : gmap addr (TreeNode Z Z) :=
  <[6%positive := leaf_cell None 7 71]> heap5.

(** Keys 10 and 20 on a right spine; the node at address 3, key 30, is
    the one to insert. *)
Definition heap_spine : gmap addr (TreeNode Z Z) :=
  <[1%positive := mkTreeNode None (Some 2%positive) None 2 10 100]>
  (<[2%positive := leaf_cell (Some 1%positive) 20 200]>
  (<[3%positive := leaf_cell None 30 300]> ∅)).

Definition tree_spine : @tree Z Z :=
  Tree 1 Empty 10 100 2 (Tree 2 Empty 20 200 1 Empty).

(** What a computation leaves at the given addresses. *)
Definition cells_after {A} (m : M (gmap addr (TreeNode Z Z)) A)
    (h : gmap addr (TreeNode Z Z)) (l : list addr)
    : option (A * list (option (TreeNode Z Z))) :=
  match m h with
  | Done a h' => Some (a, (fun x => h' !! x) <$> l)
  | _ => None
  end.

(** Keys 10, 20, 30: the root, at address 1, has two children. *)
Definition heap3 : gmap addr (TreeNode Z Z) :=
  <[1%positive := mkTreeNode (Some 2%positive) (Some 3%positive) None 2 20 200]>
  (<[2%positive := leaf_cell (Some 1%positive) 10 100]>
  (<[3%positive := leaf_cell (Some 1%positive) 30 300]> ∅)).

(** Keys 10 and 20: the root, at address 1, has a left child only. *)
Definition heap2 : gmap addr (TreeNode Z Z) :=
  <[1%positive := mkTreeNode (Some 2%positive) None None 2 20 200]>
  (<[2%positive := leaf_cell (Some 1%positive) 10 100]> ∅).

(** Keys 10, 20, 30, 40: balanced, the right subtree is the taller one. *)
Definition heap4 : gmap addr (TreeNode Z Z) :=
  <[1%positive := mkTreeNode (Some 2%positive) (Some 3%positive) None 3 20 200]>
  (<[2%positive := leaf_cell (Some 1%positive) 10 100]>
  (<[3%positive := mkTreeNode None (Some 4%positive) (Some 1%positive) 2 30 300]>
  (<[4%positive := leaf_cell (Some 3%positive) 40 400]> ∅))).

(** *** The rest of node.c, and what the further properties speak of *)

Section More.
Context {K V : Type}.

Definition set_key (k : K) (n : TreeNode K V) : TreeNode K V :=
  mkTreeNode (left n) (right n) (parent n) (height n) k (value n).
Definition set_value (v : V) (n : TreeNode K V) : TreeNode K V :=
  mkTreeNode (left n) (right n) (parent n) (height n) (key n) v.

(** [TreeNode_destroy].  The key and the value are [void] pointers, and
    the function stores [NULL] in both: [null_key] and [null_value] are
    the null pointers of the two types. *)
Fixpoint TreeNode_destroy (null_key : K) (null_value : V) (fuel : nat)
    (self : addr) : M (gmap addr (TreeNode K V)) TreeErrorE :=
  match fuel with
  | O => timeout
  | S fuel =>
      let* n := load self in
      let* _ := (match left n with
                 | Some l =>
                     let* _ := TreeNode_destroy null_key null_value fuel l in
                     update self (set_left None)
                 | None => ret tt
                 end) in
      let* n := load self in
      let* _ := (match right n with
                 | Some r =>
                     let* _ := TreeNode_destroy null_key null_value fuel r in
                     update self (set_right None)
                 | None => ret tt
                 end) in
      let* _ := update self (set_parent None) in
      let* _ := update self (set_key null_key) in
      let* _ := update self (set_value null_value) in
      let* _ := update self (set_height 1) in
      ret TREE_SUCCESS
  end.

(** The subtree that takes the place of a node with at most one child. *)
Definition only_child (l r : @tree K V) : @tree K V :=
  match l with Empty => r | Tree _ _ _ _ _ _ => l end.

(** The keys before and after the hole of a context, in order. *)
Fixpoint ctx_before (c : list (@frame K V)) : list K :=
  match c with
  | [] => []
  | InLeft _ _ _ _ _ :: c => ctx_before c
  | InRight _ s k _ _ :: c => ctx_before c ++ keys s ++ [k]
  end.

Fixpoint ctx_after (c : list (@frame K V)) : list K :=
  match c with
  | [] => []
  | InLeft _ k _ _ s :: c => k :: keys s ++ ctx_after c
  | InRight _ _ _ _ _ :: c => ctx_after c
  end.

(** The step [do_insert] takes at the node of a frame for the key [kn]:
    down to the left, the node's key is the greater one. *)
Definition frame_desc (cmp : K -> K -> Z) (kn : K) (f : @frame K V) : Prop :=
  match f with
  | InLeft _ k _ _ _ => 0 < cmp k kn
  | InRight _ _ k _ _ => cmp k kn < 0
  end.

(** The nodes in order, each with its address and key. *)
Fixpoint nodes (t : @tree K V) : list (addr * K) :=
  match t with
  | Empty => []
  | Tree a l k _ _ r => nodes l ++ (a, k) :: nodes r
  end.

(** A computation that, when it completes, has left [proj] of every cell
    as it was. *)
Definition preserves {X A} (proj : TreeNode K V -> X)
    (m : M (gmap addr (TreeNode K V)) A) : Prop :=
  forall h,
    match m h with
    | Done _ h' => forall x, proj <$> (h' !! x) = proj <$> (h !! x)
    | _ => True
    end.

Definition key_value (n : TreeNode K V) : K * V := (key n, value n).

(** What a cell holds besides its cached height. *)
Definition skeleton (n : TreeNode K V) : ptr * ptr * ptr * K * V :=
  (left n, right n, parent n, key n, value n).

End More.

(** Keys 10, 20, 30, as [heap3] holds them. *)
Definition tree3 : @tree Z Z :=
  Tree 1 (Tree 2 Empty 10 100 1 Empty) 20 200 2 (Tree 3 Empty 30 300 1 Empty).

(** Keys 10 and 20, as [heap2] holds them. *)
Definition tree2 : @tree Z Z :=
  Tree 1 (Tree 2 Empty 10 100 1 Empty) 20 200 2 Empty.

(** The path from the leaf of key 1 in [tree5] to the root. *)
Definition path5 : list (@frame Z Z) :=
  [InLeft 2 3 30 2 Empty;
   InLeft 1 5 50 3 (Tree 3 Empty 7 70 2 (Tree 5 Empty 9 90 1 Empty))].

End Node.

(** ** The map layer, [AvlMap] *)

Module Avlbst.

Section Code.
Context {K V : Type}.

(** [struct AvlNode].  [balance_factor] is a [signed char]; the code only
    ever stores the 0 that [calloc] puts there. *)
Record AvlNode : Type := mkAvlNode {
  left : ptr;
  right : ptr;
  key : K;
  value : V;
  balance_factor : Z
}.

Definition set_left (p : ptr) (n : AvlNode) : AvlNode :=
  mkAvlNode p (right n) (key n) (value n) (balance_factor n).
Definition set_right (p : ptr) (n : AvlNode) : AvlNode :=
  mkAvlNode (left n) p (key n) (value n) (balance_factor n).
Definition set_value (v : V) (n : AvlNode) : AvlNode :=
  mkAvlNode (left n) (right n) (key n) v (balance_factor n).

(** What the map does to the outside: a call of the deleter, a [free]. *)
Inductive event : Type :=
| Deleted (k : K) (v : V)
| Freed (a : addr).

(** The memory of one map: the live [AvlNode] cells, the two fields of
    [struct AvlMap] the functions write ([root], and [len], a [size_t]),
    and the calls made so far, oldest first.  The comparator and the
    deleter, which [AvlMap_init] stores in the struct, are parameters of
    the functions that call them. *)
Record world : Type := mkWorld {
  cells : gmap addr AvlNode;
  root : ptr;
  len : Z;
  events : list event
}.

Definition set_cells (m : gmap addr AvlNode) (w : world) : world :=
  mkWorld m (root w) (len w) (events w).
Definition set_root (p : ptr) (w : world) : world :=
  mkWorld (cells w) p (len w) (events w).
Definition set_len (z : Z) (w : world) : world :=
  mkWorld (cells w) (root w) z (events w).
Definition emit (e : event) : M world unit :=
  fun w => Done tt (mkWorld (cells w) (root w) (len w) (events w ++ [e])).

Definition load (a : addr) : M world AvlNode :=
  fun w => match cells w !! a with
           | Some n => Done n w
           | None => Fault
           end.

Definition update (a : addr) (f : AvlNode -> AvlNode) : M world unit :=
  fun w => match cells w !! a with
           | Some n => Done tt (set_cells (<[a := f n]> (cells w)) w)
           | None => Fault
           end.

(** [free(a)]: the cell is gone; freeing what is not live is a fault. *)
Definition free (a : addr) : M world unit :=
  fun w => match cells w !! a with
           | Some _ =>
               Done tt (mkWorld (delete a (cells w)) (root w) (len w)
                                (events w ++ [Freed a]))
           | None => Fault
           end.

Definition size_max : Z := 2 ^ 64.

(** [++self->len] on a 64-bit [size_t]. *)
Definition incr_len : M world unit :=
  fun w => Done tt (set_len ((len w + 1) mod size_max) w).

(** [alloc_node]: [calloc] hands out an address that holds no live cell,
    zero-filled; the two assignments follow.  The branch that aborts when
    [calloc] returns [NULL] is not taken: allocation succeeds. *)
Definition alloc_node (k : K) (v : V) : M world addr :=
  fun w =>
    let a := fresh (dom (cells w)) in
    Done a (set_cells (<[a := mkAvlNode None None k v 0]> (cells w)) w).

Definition AvlMap_init : M world unit :=
  fun w => Done tt (set_len 0 (set_root None w)).

Section WithComparator.
Variable compare : K -> K -> Z.

(** The [while (1)] loop of [AvlMap_insert], from [current]. *)
Fixpoint insert_loop (fuel : nat) (k : K) (v : V) (current : addr)
    : M world (option V) :=
  match fuel with
  | O => timeout
  | S fuel =>
      let* n := load current in
      let c := compare k (key n) in
      if c =? 0 then
        let previous := value n in
        let* _ := update current (set_value v) in
        ret (Some previous)
      else if c <? 0 then
        match left n with
        | Some l => insert_loop fuel k v l
        | None =>
            let* a := alloc_node k v in
            let* _ := update current (set_left (Some a)) in
            let* _ := incr_len in
            ret None
        end
      else
        match right n with
        | Some r => insert_loop fuel k v r
        | None =>
            let* a := alloc_node k v in
            let* _ := update current (set_right (Some a)) in
            let* _ := incr_len in
            ret None
        end
  end.

(** The result is the returned [void*]: [None] is [NULL]. *)
Definition AvlMap_insert (fuel : nat) (k : K) (v : V) : M world (option V) :=
  fun w =>
    match root w with
    | None =>
        (let* a := alloc_node k v in
         let* _ := (fun w => Done tt (set_root (Some a) w)) in
         let* _ := incr_len in
         ret None) w
    | Some r => insert_loop fuel k v r w
    end.
End WithComparator.

(** The inner [while] of [AvlMap_clear]: the rightmost node below
    [predecessor] that is not threaded back to [current]. *)
Fixpoint find_predecessor (fuel : nat) (predecessor current : addr)
    : M world addr :=
  match fuel with
  | O => timeout
  | S fuel =>
      let* pn := load predecessor in
      match right pn with
      | Some r =>
          if bool_decide (r <> current)
          then find_predecessor fuel r current
          else ret predecessor
      | None => ret predecessor
      end
  end.

(** [self->deleter(current->key, current->value, ...); free(current)]. *)
Definition release (current : addr) : M world unit :=
  let* n := load current in
  let* _ := emit (Deleted (key n) (value n)) in
  free current.

(** The outer [while (current)] of [AvlMap_clear]. *)
Fixpoint clear_loop (fuel : nat) (current : ptr) : M world unit :=
  match fuel with
  | O => timeout
  | S fuel =>
      match current with
      | None => ret tt
      | Some cur =>
          let* n := load cur in
          match left n with
          | None =>
              let next := right n in
              let* _ := release cur in
              clear_loop fuel next
          | Some l =>
              let* predecessor := find_predecessor fuel l cur in
              let* pn := load predecessor in
              match right pn with
              | None =>
                  let* _ := update predecessor (set_right (Some cur)) in
                  let* n := load cur in
                  clear_loop fuel (left n)
              | Some _ =>
                  let* n := load cur in
                  let next := right n in
                  let* _ := release cur in
                  let* _ := update predecessor (set_right None) in
                  clear_loop fuel next
              end
          end
      end
  end.

Definition AvlMap_clear (fuel : nat) : M world unit :=
  fun w =>
    match root w with
    | None => Done tt w
    | Some r =>
        (let* _ := clear_loop fuel (Some r) in
         fun w => Done tt (set_len 0 w)) w
    end.

Definition AvlMap_destroy (fuel : nat) : M world unit := AvlMap_clear fuel.

End Code.

Arguments AvlNode : clear implicits.
Arguments event : clear implicits.
Arguments world : clear implicits.

(** *** Trees of [AvlNode] cells *)

Section Rep.
Context {K V : Type}.

Inductive tree : Type :=
| Empty
| Tree (a : addr) (l : tree) (k : K) (v : V) (bf : Z) (r : tree).

Definition root_of (t : tree) : ptr :=
  match t with Empty => None | Tree a _ _ _ _ _ => Some a end.

Fixpoint entries (t : tree) : list (K * V) :=
  match t with
  | Empty => []
  | Tree _ l k v _ r => entries l ++ (k, v) :: entries r
  end.

Definition keys (t : tree) : list K := (entries t).*1.

Fixpoint dom_tree (t : tree) : gset addr :=
  match t with
  | Empty => ∅
  | Tree a l _ _ _ r => {[a]} ∪ dom_tree l ∪ dom_tree r
  end.

Fixpoint distinct (t : tree) : Prop :=
  match t with
  | Empty => True
  | Tree a l _ _ _ r =>
      (a ∉ dom_tree l) ∧ (a ∉ dom_tree r) ∧ (dom_tree l ## dom_tree r) ∧
      distinct l ∧ distinct r
  end.

Fixpoint tree_at (m : gmap addr (AvlNode K V)) (t : tree) : Prop :=
  match t with
  | Empty => True
  | Tree a l k v bf r =>
      m !! a = Some (mkAvlNode (root_of l) (root_of r) k v bf) ∧
      tree_at m l ∧ tree_at m r
  end.

Fixpoint depth (t : tree) : nat :=
  match t with
  | Empty => 0
  | Tree _ l _ _ _ r => S (Nat.max (depth l) (depth r))
  end.

(** The map holds the tree [t]: [self->root] is its root, its cells are
    live and linked, and no cell occurs twice. *)
Definition map_at (w : world K V) (t : tree) : Prop :=
  root w = root_of t ∧ tree_at (cells w) t ∧ distinct t.

(** Strictly ascending in-order keys.  [AvlMap_insert] calls
    [compare(key, current->key)]: a negative result sends the new key to
    the left. *)
Definition bst (compare : K -> K -> Z) (t : tree) : Prop :=
  Sorted (fun a b => compare a b < 0) (keys t).

(** A computation that, when it completes, has called neither the
    deleter nor [free]. *)
Definition quiet {A} (m : M (world K V) A) : Prop :=
  forall w,
    match m w with
    | Done _ w' => events w' = events w
    | _ => True
    end.

End Rep.

(** *** Concrete maps, for the examples *)

Definition empty_map : world Z Z := mkWorld ∅ None 0 [].

(** [AvlMap_insert] of each pair in turn. *)
Fixpoint insert_all (fuel : nat) (l : list (Z * Z)) : M (world Z Z) unit :=
  match l with
  | [] => ret tt
  | (k, v) :: l =>
      let* _ := AvlMap_insert Zcmp fuel k v in insert_all fuel l
  end.

(** The height of the tree the cells hold below [p]. *)
Fixpoint height_in (fuel : nat) (m : gmap addr (AvlNode Z Z)) (p : ptr) : Z :=
  match fuel, p with
  | S fuel, Some a =>
      match m !! a with
      | Some n =>
          1 + Z.max (height_in fuel m (left n)) (height_in fuel m (right n))
      | None => 0
      end
  | _, _ => 0
  end.

(** Key, value and balance factor of the cells below [p], in order. *)
Fixpoint inorder_in (fuel : nat) (m : gmap addr (AvlNode Z Z)) (p : ptr)
    : list (Z * Z * Z) :=
  match fuel, p with
  | S fuel, Some a =>
      match m !! a with
      | Some n =>
          inorder_in fuel m (left n)
            ++ (key n, value n, balance_factor n) :: inorder_in fuel m (right n)
      | None => []
      end
  | _, _ => []
  end.

(** The map with the single pair (1, 10), at address 1. *)
Definition map1 : world Z Z :=
  mkWorld {[1%positive := mkAvlNode None None 1 10 0]} (Some 1%positive) 1 [].

Definition tree1 : @tree Z Z := Tree 1 Empty 1 10 0 Empty.

(** *** What the further properties speak of *)

Section More.
Context {K V : Type}.
Implicit Types (m : gmap addr (AvlNode K V)) (w : world K V) (t l r : @tree K V).

(** [self->len] is the number of pairs, as a [size_t]. *)
Definition counted (w : world K V) (t : @tree K V) : Prop :=
  len w = Z.of_nat (length (entries t)) mod size_max.

(** No node has a left child. *)
Fixpoint right_spine t : Prop :=
  match t with
  | Empty => True
  | Tree _ l _ _ _ r => l = Empty /\ right_spine r
  end.

(** The calls [AvlMap_clear] is to make: for each node in order, the
    deleter on its pair, then [free] on its cell. *)
Fixpoint releases t : list (event K V) :=
  match t with
  | Empty => []
  | Tree a l k v _ r => releases l ++ Deleted k v :: Freed a :: releases r
  end.

Fixpoint node_count t : nat :=
  match t with
  | Empty => 0
  | Tree _ l _ _ _ r => S (node_count l + node_count r)
  end.

(** The cells hold [t], except that the [right] field of its last node
    in order holds [th]: the thread [AvlMap_clear] lays from a node's
    predecessor back to the node. *)
Fixpoint thr_at m t (th : ptr) : Prop :=
  match t with
  | Empty => True
  | Tree a l k v bf r =>
      m !! a = Some (mkAvlNode (root_of l)
                               (match r with Empty => th | _ => root_of r end)
                               k v bf) /\
      tree_at m l /\ thr_at m r th
  end.

End More.

(** The map [AvlMap_insert] of (2, 20) and then (1, 10) builds: the root
    has a left child. *)
Definition map21 : world Z Z :=
  mkWorld (<[1%positive := mkAvlNode (Some 2%positive) None 2 20 0]>
           (<[2%positive := mkAvlNode None None 1 10 0]> ∅))
          (Some 1%positive) 2 [].

Definition tree21 : @tree Z Z := Tree 1 (Tree 2 Empty 1 10 0 Empty) 2 20 0 Empty.

End Avlbst.

(** * Proofs *)

(** ** Comparators *)

Section CmpFacts.
Context {K : Type} (cmp : K -> K -> Z) `{!TotalCmp cmp}.

Lemma cmp_lt_gt a b : cmp a b < 0 <-> 0 < cmp b a.
Proof. pose proof (cmp_antisym a b). lia. Qed.

Lemma cmp_eq_sym a b : cmp a b = 0 <-> cmp b a = 0.
Proof. pose proof (cmp_antisym a b). lia. Qed.

Lemma cmp_lt_le_trans a b c : cmp a b < 0 -> cmp b c <= 0 -> cmp a c < 0.
Proof.
  intros Hab Hbc.
  destruct (Z_lt_le_dec (cmp a c) 0) as [|Hac]; [done|].
  assert (cmp c a <= 0) by (pose proof (cmp_antisym a c); lia).
  pose proof (cmp_trans b c a Hbc H).
  pose proof (cmp_antisym a b). lia.
Qed.

Lemma cmp_le_lt_trans a b c : cmp a b <= 0 -> cmp b c < 0 -> cmp a c < 0.
Proof.
  intros Hab Hbc.
  destruct (Z_lt_le_dec (cmp a c) 0) as [|Hac]; [done|].
  assert (cmp c a <= 0) by (pose proof (cmp_antisym a c); lia).
  pose proof (cmp_trans c a b H Hab).
  pose proof (cmp_antisym b c). lia.
Qed.

Lemma cmp_lt_trans a b c : cmp a b < 0 -> cmp b c < 0 -> cmp a c < 0.
Proof. intros. apply (cmp_lt_le_trans a b c); lia. Qed.
End CmpFacts.

#[export] Instance Zcmp_total : TotalCmp Zcmp.
Proof. split; unfold Zcmp; intros; lia. Qed.

(** ** The node layer *)

Module NodeProofs.
Import Node.

(** *** Stepping through the code *)

Ltac fields :=
  cbn [left right parent height key value root_of ctx_ptr frame_addr
       frame_sib frame_cell].

Section NodeFacts.
Context {K V : Type}.
Implicit Types (h : gmap addr (TreeNode K V)) (t l r : @tree K V).
Implicit Types (c : list (@frame K V)) (f : @frame K V).

Lemma bind_ret {S A B} (a : A) (k : A -> M S B) s : bind (ret a) k s = k a s.
Proof. reflexivity. Qed.

Lemma bind_bind {S A B C} (m : M S A) (f : A -> M S B) (g : B -> M S C) s :
  bind (bind m f) g s = bind m (fun x => bind (f x) g) s.
Proof. unfold bind. destruct (m s); reflexivity. Qed.

Lemma bind_load {A} a n (k : _ -> M _ A) h :
  h !! a = Some n -> bind (load a) k h = k n h.
Proof. intros H. unfold bind, load. rewrite H. reflexivity. Qed.

Lemma bind_update {A} a n g (k : _ -> M _ A) h :
  h !! a = Some n -> bind (update a g) k h = k tt (<[a := g n]> h).
Proof. intros H. unfold bind, update. rewrite H. reflexivity. Qed.

Lemma get_height_at h par t :
  tree_at h par t -> get_height (root_of t) h = Done (cached_height t) h.
Proof.
  destruct t as [|a l k v ht r]; simpl; [done|].
  intros (Ha & _). unfold bind, load. rewrite Ha. reflexivity.
Qed.

Lemma bind_get_height {A} h par t (k : _ -> M _ A) :
  tree_at h par t -> bind (get_height (root_of t)) k h = k (cached_height t) h.
Proof. intros H. unfold bind at 1. rewrite (get_height_at _ _ _ H). reflexivity. Qed.

Lemma tree_at_agree h h' par t :
  (forall a, a ∈ dom_tree t -> h' !! a = h !! a) ->
  tree_at h par t -> tree_at h' par t.
Proof.
  revert par. induction t as [|a l IHl k v ht r IHr]; simpl; intros par Hag; [done|].
  intros (Ha & Hl & Hr). split_and!.
  - rewrite Hag; [done|set_solver].
  - apply IHl; [|done]. intros; apply Hag; set_solver.
  - apply IHr; [|done]. intros; apply Hag; set_solver.
Qed.

Lemma ctx_at_agree h h' child c :
  (forall a, a ∈ dom_ctx c -> h' !! a = h !! a) ->
  ctx_at h child c -> ctx_at h' child c.
Proof.
  revert child. induction c as [|f c IH]; simpl; intros child Hag; [done|].
  intros (Ha & Hs & Hc). split_and!.
  - rewrite Hag; [done|set_solver].
  - eapply tree_at_agree; [|done]. intros; apply Hag; set_solver.
  - apply IH; [|done]. intros; apply Hag; set_solver.
Qed.

Lemma root_of_plug1 f t : root_of (plug1 f t) = Some (frame_addr f).
Proof. by destruct f. Qed.

Lemma dom_plug1 f t : dom_tree (plug1 f t) = {[frame_addr f]} ∪ dom_tree (frame_sib f) ∪ dom_tree t.
Proof. destruct f; simpl; set_solver. Qed.

Lemma zip_at_up h t f c : zip_at h t (f :: c) <-> zip_at h (plug1 f t) c.
Proof.
  unfold zip_at. rewrite root_of_plug1, dom_plug1. destruct f; simpl; split; intros (?&?&?&?&?); split_and!; try tauto; set_solver.
Qed.

Lemma zip_at_whole h t c : zip_at h t c <-> whole_at h (plug t c).
Proof.
  revert t. induction c as [|f c IH]; intros t; simpl.
  - unfold zip_at, whole_at. simpl. split; [intros (?&?&?&?&?)|intros (?&?)]; split_and!; try done; set_solver.
  - rewrite zip_at_up. apply IH.
Qed.


Lemma zip_at_set_height h a l k v ht ht' r c :
  zip_at h (Tree a l k v ht r) c ->
  zip_at (<[a := mkTreeNode (root_of l) (root_of r) (ctx_ptr c) ht' k v]> h)
         (Tree a l k v ht' r) c.
Proof.
  intros ((Ha & Hl & Hr) & Hc & (?&?&?&?&?) & Hdc & Hd). simpl in Hd.
  unfold zip_at; simpl; split_and!; try done.
  - by rewrite lookup_insert_eq.
  - eapply tree_at_agree; [|done]. intros x Hx. rewrite lookup_insert_ne; [done|set_solver].
  - eapply tree_at_agree; [|done]. intros x Hx. rewrite lookup_insert_ne; [done|set_solver].
  - eapply ctx_at_agree; [|done]. intros x Hx. rewrite lookup_insert_ne; [done|set_solver].
Qed.

Lemma update_height_spec c : forall h a l k v ht r fuel,
  zip_at h (Tree a l k v ht r) c ->
  (length c < fuel)%nat ->
  exists h',
    update_height fuel a h = Done tt h' /\
    zip_at h' (Tree a l k v (1 + Z.max (cached_height l) (cached_height r)) r)
           (uh_ctx (1 + Z.max (cached_height l) (cached_height r)) c) /\
    (forall x, x ∉ dom_tree (Tree a l k v ht r) ∪ dom_ctx c -> h' !! x = h !! x).
Proof.
  induction c as [|f c IH]; intros h a l k v ht r fuel Hz Hfuel;
    (destruct fuel as [|fuel]; [simpl in Hfuel; lia|]).
  - pose proof Hz as ((Ha & Hl & Hr) & _).
    simpl update_height. erewrite bind_load by exact Ha. simpl left. simpl right.
    erewrite (bind_get_height _ _ l) by exact Hl.
    erewrite (bind_get_height _ _ r) by exact Hr.
    set (ht' := 1 + Z.max (cached_height l) (cached_height r)).
    assert (Hif : (if cached_height r <? cached_height l
                   then update a (set_height (cached_height l + 1))
                   else update a (set_height (cached_height r + 1)))
                  = update a (set_height (K:=K) (V:=V) ht')).
    { subst ht'. destruct (Z.ltb_spec (cached_height r) (cached_height l)); f_equal; f_equal; lia. }
    rewrite Hif. erewrite bind_update by exact Ha.
    erewrite bind_load by apply lookup_insert_eq. simpl.
    eexists; split; [reflexivity|]. split.
    + apply (zip_at_set_height _ _ _ _ _ _ ht') in Hz. exact Hz.
    + intros x Hx. rewrite lookup_insert_ne; [done|set_solver].
  - pose proof Hz as ((Ha & Hl & Hr) & _).
    simpl update_height. erewrite bind_load by exact Ha. simpl left. simpl right.
    erewrite (bind_get_height _ _ l) by exact Hl.
    erewrite (bind_get_height _ _ r) by exact Hr.
    set (ht' := 1 + Z.max (cached_height l) (cached_height r)).
    assert (Hif : (if cached_height r <? cached_height l
                   then update a (set_height (cached_height l + 1))
                   else update a (set_height (cached_height r + 1)))
                  = update a (set_height (K:=K) (V:=V) ht')).
    { subst ht'. destruct (Z.ltb_spec (cached_height r) (cached_height l)); f_equal; f_equal; lia. }
    rewrite Hif. erewrite bind_update by exact Ha.
    erewrite bind_load by apply lookup_insert_eq. simpl parent.
    apply (zip_at_set_height _ _ _ _ _ _ ht') in Hz.
    change (set_height ht' _) with (mkTreeNode (root_of l) (root_of r) (ctx_ptr (f :: c)) ht' k v).
    set (h1 := <[a := _]> h) in *.
    apply zip_at_up in Hz.
    simpl in Hfuel.
    destruct f as [fa fk fv fht fs | fa fs fk fv fht]; simpl plug1 in Hz; simpl frame_addr.
    + destruct (IH _ _ _ _ _ _ _ fuel Hz ltac:(lia)) as (h' & Hrun & Hz' & Hfr).
      exists h'. split; [exact Hrun|]. split.
      * simpl uh_ctx. apply zip_at_up. simpl plug1. exact Hz'.
      * intros x Hx. rewrite Hfr by (simpl in *; set_solver).
        subst h1. rewrite lookup_insert_ne; [done|set_solver].
    + destruct (IH _ _ _ _ _ _ _ fuel Hz ltac:(lia)) as (h' & Hrun & Hz' & Hfr).
      exists h'. split; [exact Hrun|]. split.
      * simpl uh_ctx. apply zip_at_up. simpl plug1.
        rewrite (Z.max_comm ht'). exact Hz'.
      * intros x Hx. rewrite Hfr by (simpl in *; set_solver).
        subst h1. rewrite lookup_insert_ne; [done|set_solver].
Qed.


Lemma root_in_dom t x : root_of t = Some x -> x ∈ dom_tree t.
Proof. destruct t; simpl; [discriminate|]. intros [= ->]. set_solver. Qed.

Lemma root_not_in_dom t x : x ∉ dom_tree t -> root_of t <> Some x.
Proof. intros Hx Hr. apply Hx, root_in_dom, Hr. Qed.

(** [t->parent = par'] when [t] is not empty. *)
Lemma reparent_spec h par par' t :
  tree_at h par t -> distinct t ->
  exists h1,
    (match root_of t with
     | Some x => update x (set_parent par')
     | None => ret tt
     end) h = Done tt h1 /\
    tree_at h1 par' t /\
    (forall y, root_of t <> Some y -> h1 !! y = h !! y).
Proof.
  destruct t as [|x l k v ht r]; simpl.
  - intros _ _. exists h. done.
  - intros (Hx & Hl & Hr) (?&?&?&?&?). unfold update. rewrite Hx.
    eexists; split; [reflexivity|]. split_and!.
    + by rewrite lookup_insert_eq.
    + eapply tree_at_agree; [|done]. intros y Hy. rewrite lookup_insert_ne; [done|set_solver].
    + eapply tree_at_agree; [|done]. intros y Hy. rewrite lookup_insert_ne; [done|set_solver].
    + intros y Hy. rewrite lookup_insert_ne; [done|congruence].
Qed.

Lemma retarget_parent_spec h a n x c :
  h !! a = Some n -> parent n = ctx_ptr c ->
  ctx_at h (Some a) c -> distinct_ctx c -> a ∉ dom_ctx c ->
  exists h1,
    retarget_parent a x h = Done tt h1 /\
    ctx_at h1 x c /\
    (forall y, ctx_ptr c <> Some y -> h1 !! y = h !! y).
Proof.
  intros Ha Hp Hc Hd Hna. unfold retarget_parent.
  erewrite bind_load by exact Ha. rewrite Hp.
  destruct c as [|f c]; simpl.
  - exists h. done.
  - destruct Hc as (Hf & Hs & Hc). destruct Hd as (?&?&?&?&?).
    erewrite bind_load by exact Hf.
    destruct f as [fa fk fv fht fs | fa fs fk fv fht]; simpl in *.
    + rewrite bool_decide_eq_true_2 by done.
      unfold update. rewrite Hf. eexists; split; [reflexivity|]. split_and!.
      * by rewrite lookup_insert_eq.
      * eapply tree_at_agree; [|done]. intros y Hy. rewrite lookup_insert_ne; [done|set_solver].
      * eapply ctx_at_agree; [|done]. intros y Hy. rewrite lookup_insert_ne; [done|set_solver].
      * intros y Hy. rewrite lookup_insert_ne; [done|congruence].
    + rewrite bool_decide_eq_false_2 by (apply root_not_in_dom; set_solver).
      unfold update. rewrite Hf. eexists; split; [reflexivity|]. split_and!.
      * by rewrite lookup_insert_eq.
      * eapply tree_at_agree; [|done]. intros y Hy. rewrite lookup_insert_ne; [done|set_solver].
      * eapply ctx_at_agree; [|done]. intros y Hy. rewrite lookup_insert_ne; [done|set_solver].
      * intros y Hy. rewrite lookup_insert_ne; [done|congruence].
Qed.

Lemma ctx_ptr_in_dom c y : ctx_ptr c = Some y -> y ∈ dom_ctx c.
Proof. destruct c; simpl; [discriminate|]. intros [= <-]. set_solver. Qed.

Lemma bind_Done {S A B} (m : M S A) (k : A -> M S B) s a s' :
  m s = Done a s' -> bind m k s = k a s'.
Proof. intros H. unfold bind. rewrite H. reflexivity. Qed.

Lemma rotate_right_spec h fuel a b ll kb vb hb lr k v ht r c :
  zip_at h (Tree a (Tree b ll kb vb hb lr) k v ht r) c ->
  (length c + 1 < fuel)%nat ->
  exists h',
    rotate_right fuel a h = Done b h' /\
    zip_at h'
      (Tree b ll kb vb
         (1 + Z.max (cached_height ll)
                (1 + Z.max (cached_height lr) (cached_height r)))
         (Tree a lr k v (1 + Z.max (cached_height lr) (cached_height r)) r))
      (uh_ctx (1 + Z.max (cached_height ll)
                     (1 + Z.max (cached_height lr) (cached_height r))) c) /\
    (forall x, x ∉ dom_tree (Tree a (Tree b ll kb vb hb lr) k v ht r) ∪ dom_ctx c ->
               h' !! x = h !! x).
Proof.
  intros ((Ha & (Hb & Hll & Hlr) & Hr) & Hc & Hd & Hdc & Hdd) Hfuel.
  simpl in Hd, Hdd. destruct Hd as (Hd1 & Hd2 & Hd3 & (Hd4 & Hd5 & Hd6 & Hd7 & Hd8) & Hd9).
  assert (Hab : a <> b) by set_solver.
  unfold rotate_right.
  simpl in Ha. erewrite bind_load by exact Ha. fields.
  erewrite bind_load by exact Hb. fields.
  destruct (reparent_spec h (Some b) (Some a) lr Hlr Hd8) as (h1 & Hrun1 & Hlr1 & Hfr1).
  erewrite bind_Done by exact Hrun1.
  assert (Ha1 : h1 !! a = h !! a) by (apply Hfr1, root_not_in_dom; set_solver).
  assert (Hb1 : h1 !! b = h !! b) by (apply Hfr1, root_not_in_dom; set_solver).
  erewrite bind_load by (rewrite Hb1; exact Hb). fields.
  erewrite bind_update by (rewrite Ha1; exact Ha).
  erewrite bind_update by (rewrite lookup_insert_ne by done; rewrite Hb1; exact Hb).
  unfold set_left, set_right; simpl.
  set (h3 := <[b := _]> (<[a := _]> h1)).
  assert (Hc3 : ctx_at h3 (Some a) c).
  { eapply ctx_at_agree; [|exact Hc]. intros y Hy. subst h3.
    rewrite !lookup_insert_ne by set_solver. apply Hfr1, root_not_in_dom. set_solver. }
  assert (Ha3 : h3 !! a = Some (mkTreeNode (root_of lr) (root_of r) (ctx_ptr c) ht k v)).
  { subst h3. rewrite lookup_insert_ne by done. by rewrite lookup_insert_eq. }
  destruct (retarget_parent_spec h3 a _ (Some b) c Ha3 eq_refl Hc3 Hdc ltac:(set_solver))
    as (h4 & Hrun4 & Hc4 & Hfr4).
  erewrite bind_Done by exact Hrun4.
  assert (Ha4 : h4 !! a = h3 !! a).
  { apply Hfr4. intros Hy. apply ctx_ptr_in_dom in Hy. set_solver. }
  assert (Hb4 : h4 !! b = h3 !! b).
  { apply Hfr4. intros Hy. apply ctx_ptr_in_dom in Hy. set_solver. }
  erewrite bind_load by (rewrite Ha4; exact Ha3). fields.
  erewrite bind_update by (rewrite Hb4; subst h3; apply lookup_insert_eq).
  erewrite bind_update by (rewrite lookup_insert_ne by done; rewrite Ha4; exact Ha3).
  unfold set_parent; simpl.
  set (h6 := <[a := _]> (<[b := _]> h4)).
  assert (Hout : forall y, y <> a -> y <> b -> y ∉ dom_tree lr ->
                           y ∉ dom_ctx c -> h6 !! y = h !! y).
  { intros y ? ? ? Hyc. subst h6. rewrite !lookup_insert_ne by done.
    rewrite Hfr4 by (intros Hy'; apply ctx_ptr_in_dom in Hy'; done).
    subst h3. rewrite !lookup_insert_ne by done.
    by apply Hfr1, root_not_in_dom. }
  assert (Hz6 : zip_at h6 (Tree a lr k v ht r) (InRight b ll kb vb hb :: c)).
  { split; [|split; [|split; [|split]]].
    - simpl. split; [|split].
      + subst h6. by rewrite lookup_insert_eq.
      + eapply tree_at_agree; [|exact Hlr1]. intros y Hy. subst h6.
        rewrite !lookup_insert_ne by set_solver. rewrite Hfr4.
        * subst h3. rewrite !lookup_insert_ne by set_solver. reflexivity.
        * intros Hy'. apply ctx_ptr_in_dom in Hy'. set_solver.
      + eapply tree_at_agree; [|exact Hr]. intros y Hy. apply Hout; set_solver.
    - simpl. split; [|split].
      + subst h6. rewrite lookup_insert_ne by done. by rewrite lookup_insert_eq.
      + eapply tree_at_agree; [|exact Hll]. intros y Hy. apply Hout; set_solver.
      + eapply ctx_at_agree; [|exact Hc4]. intros y Hy. subst h6.
        rewrite !lookup_insert_ne by set_solver. reflexivity.
    - simpl. set_solver.
    - simpl. set_solver.
    - simpl. set_solver. }
  destruct (update_height_spec _ _ _ _ _ _ _ _ fuel Hz6 ltac:(simpl; lia))
    as (h' & Hrun & Hz' & Hfr).
  erewrite bind_Done by exact Hrun. simpl.
  eexists; split; [reflexivity|]. split.
  - simpl uh_ctx in Hz'. apply zip_at_up in Hz'. simpl in Hz'.
    rewrite (Z.max_comm (cached_height ll)). exact Hz'.
  - intros y Hy. rewrite Hfr by (simpl; set_solver). simpl in Hy. apply Hout; set_solver.
Qed.

Lemma rotate_left_spec h fuel a b rl kb vb hb rr k v ht l c :
  zip_at h (Tree a l k v ht (Tree b rl kb vb hb rr)) c ->
  (length c + 1 < fuel)%nat ->
  exists h',
    rotate_left fuel a h = Done b h' /\
    zip_at h'
      (Tree b (Tree a l k v (1 + Z.max (cached_height l) (cached_height rl)) rl)
         kb vb
         (1 + Z.max (1 + Z.max (cached_height l) (cached_height rl))
                (cached_height rr))
         rr)
      (uh_ctx (1 + Z.max (1 + Z.max (cached_height l) (cached_height rl))
                     (cached_height rr)) c) /\
    (forall x, x ∉ dom_tree (Tree a l k v ht (Tree b rl kb vb hb rr)) ∪ dom_ctx c ->
               h' !! x = h !! x).
Proof.
  intros ((Ha & Hl & (Hb & Hrl & Hrr)) & Hc & Hd & Hdc & Hdd) Hfuel.
  simpl in Hd, Hdd. destruct Hd as (Hd1 & Hd2 & Hd3 & Hd9 & (Hd4 & Hd5 & Hd6 & Hd7 & Hd8)).
  assert (Hab : a <> b) by set_solver.
  unfold rotate_left.
  simpl in Ha. erewrite bind_load by exact Ha. fields.
  erewrite bind_load by exact Hb. fields.
  destruct (reparent_spec h (Some b) (Some a) rl Hrl Hd7) as (h1 & Hrun1 & Hrl1 & Hfr1).
  erewrite bind_Done by exact Hrun1.
  assert (Ha1 : h1 !! a = h !! a) by (apply Hfr1, root_not_in_dom; set_solver).
  assert (Hb1 : h1 !! b = h !! b) by (apply Hfr1, root_not_in_dom; set_solver).
  erewrite bind_load by (rewrite Hb1; exact Hb). fields.
  erewrite bind_update by (rewrite Ha1; exact Ha).
  erewrite bind_update by (rewrite lookup_insert_ne by done; rewrite Hb1; exact Hb).
  unfold set_left, set_right; simpl.
  set (h3 := <[b := _]> (<[a := _]> h1)).
  assert (Hc3 : ctx_at h3 (Some a) c).
  { eapply ctx_at_agree; [|exact Hc]. intros y Hy. subst h3.
    rewrite !lookup_insert_ne by set_solver. apply Hfr1, root_not_in_dom. set_solver. }
  assert (Ha3 : h3 !! a = Some (mkTreeNode (root_of l) (root_of rl) (ctx_ptr c) ht k v)).
  { subst h3. rewrite lookup_insert_ne by done. by rewrite lookup_insert_eq. }
  destruct (retarget_parent_spec h3 a _ (Some b) c Ha3 eq_refl Hc3 Hdc ltac:(set_solver))
    as (h4 & Hrun4 & Hc4 & Hfr4).
  erewrite bind_Done by exact Hrun4.
  assert (Ha4 : h4 !! a = h3 !! a).
  { apply Hfr4. intros Hy. apply ctx_ptr_in_dom in Hy. set_solver. }
  assert (Hb4 : h4 !! b = h3 !! b).
  { apply Hfr4. intros Hy. apply ctx_ptr_in_dom in Hy. set_solver. }
  erewrite bind_load by (rewrite Ha4; exact Ha3). fields.
  erewrite bind_update by (rewrite Hb4; subst h3; apply lookup_insert_eq).
  erewrite bind_update by (rewrite lookup_insert_ne by done; rewrite Ha4; exact Ha3).
  unfold set_parent; simpl.
  set (h6 := <[a := _]> (<[b := _]> h4)).
  assert (Hout : forall y, y <> a -> y <> b -> y ∉ dom_tree rl ->
                           y ∉ dom_ctx c -> h6 !! y = h !! y).
  { intros y ? ? ? Hyc. subst h6. rewrite !lookup_insert_ne by done.
    rewrite Hfr4 by (intros Hy'; apply ctx_ptr_in_dom in Hy'; done).
    subst h3. rewrite !lookup_insert_ne by done.
    by apply Hfr1, root_not_in_dom. }
  assert (Hz6 : zip_at h6 (Tree a l k v ht rl) (InLeft b kb vb hb rr :: c)).
  { split; [|split; [|split; [|split]]].
    - simpl. split; [|split].
      + subst h6. by rewrite lookup_insert_eq.
      + eapply tree_at_agree; [|exact Hl]. intros y Hy. apply Hout; set_solver.
      + eapply tree_at_agree; [|exact Hrl1]. intros y Hy. subst h6.
        rewrite !lookup_insert_ne by set_solver. rewrite Hfr4.
        * subst h3. rewrite !lookup_insert_ne by set_solver. reflexivity.
        * intros Hy'. apply ctx_ptr_in_dom in Hy'. set_solver.
    - simpl. split; [|split].
      + subst h6. rewrite lookup_insert_ne by done. by rewrite lookup_insert_eq.
      + eapply tree_at_agree; [|exact Hrr]. intros y Hy. apply Hout; set_solver.
      + eapply ctx_at_agree; [|exact Hc4]. intros y Hy. subst h6.
        rewrite !lookup_insert_ne by set_solver. reflexivity.
    - simpl. set_solver.
    - simpl. set_solver.
    - simpl. set_solver. }
  destruct (update_height_spec _ _ _ _ _ _ _ _ fuel Hz6 ltac:(simpl; lia))
    as (h' & Hrun & Hz' & Hfr).
  erewrite bind_Done by exact Hrun. simpl.
  eexists; split; [reflexivity|]. split.
  - simpl uh_ctx in Hz'. apply zip_at_up in Hz'. simpl in Hz'. exact Hz'.
  - intros y Hy. rewrite Hfr by (simpl; set_solver). simpl in Hy. apply Hout; set_solver.
Qed.

Lemma heights_ok_nonneg t : heights_ok t -> 0 <= cached_height t.
Proof.
  induction t as [|a l IHl k v ht r IHr]; simpl; [lia|].
  intros (Hl & Hr & ->). specialize (IHl Hl). lia.
Qed.

Lemma heights_ok_pos a l k v ht r : heights_ok (Tree a l k v ht r) -> 1 <= ht.
Proof.
  simpl. intros (Hl & Hr & ->). apply heights_ok_nonneg in Hl. lia.
Qed.

Lemma heights_ok_real t : heights_ok t -> cached_height t = real_height t.
Proof.
  induction t as [|a l IHl k v ht r IHr]; simpl; [done|].
  intros (Hl & Hr & ->). rewrite IHl, IHr by done. done.
Qed.

Lemma length_uh_ctx x c : length (uh_ctx x c) = length c.
Proof. revert x. induction c as [|f c IH]; intros x; simpl; [done|]. by rewrite IH. Qed.

Lemma frame_sib_set_ht z f : frame_sib (frame_set_ht z f) = frame_sib f.
Proof. by destruct f. Qed.
Lemma frame_addr_set_ht z f : frame_addr (frame_set_ht z f) = frame_addr f.
Proof. by destruct f. Qed.
Lemma frame_ht_set_ht z f : frame_ht (frame_set_ht z f) = z.
Proof. by destruct f. Qed.
Lemma frame_set_ht_twice z z' f : frame_set_ht z (frame_set_ht z' f) = frame_set_ht z f.
Proof. by destruct f. Qed.
Lemma frame_set_ht_id f : frame_set_ht (frame_ht f) f = f.
Proof. by destruct f. Qed.

Lemma ctx_bal_uh hh x c : ctx_bal hh (uh_ctx x c) <-> ctx_bal hh c.
Proof.
  revert hh x. induction c as [|f c IH]; intros hh x; simpl; [done|].
  rewrite frame_sib_set_ht, IH. done.
Qed.

Lemma ctx_hts_uh x c : ctx_hts x (uh_ctx x c).
Proof.
  revert x. induction c as [|f c IH]; intros x; simpl; [done|].
  rewrite frame_sib_set_ht, frame_ht_set_ht. split; [done|]. apply IH.
Qed.

Lemma uh_ctx_twice x y c : uh_ctx x (uh_ctx y c) = uh_ctx x c.
Proof.
  revert x y. induction c as [|f c IH]; intros x y; simpl; [done|].
  rewrite frame_sib_set_ht, frame_set_ht_twice, IH. done.
Qed.

Lemma dom_ctx_uh x c : dom_ctx (uh_ctx x c) = dom_ctx c.
Proof.
  revert x. induction c as [|f c IH]; intros x; simpl; [done|].
  rewrite frame_sib_set_ht, frame_addr_set_ht, IH. done.
Qed.

Lemma dom_plug t c : dom_tree (plug t c) = dom_tree t ∪ dom_ctx c.
Proof.
  revert t. induction c as [|f c IH]; intros t; simpl; [set_solver|].
  rewrite IH, dom_plug1. set_solver.
Qed.

Lemma entries_plug1 f t t' : entries t = entries t' -> entries (plug1 f t) = entries (plug1 f t').
Proof. intros H. destruct f; simpl; by rewrite H. Qed.

Lemma entries_plug t t' c : entries t = entries t' -> entries (plug t c) = entries (plug t' c).
Proof.
  revert t t'. induction c as [|f c IH]; intros t t' H; simpl; [done|].
  apply IH, entries_plug1, H.
Qed.

Lemma entries_plug1_set_ht z f t : entries (plug1 (frame_set_ht z f) t) = entries (plug1 f t).
Proof. by destruct f. Qed.

Lemma entries_plug_uh x t c : entries (plug t (uh_ctx x c)) = entries (plug t c).
Proof.
  revert x t. induction c as [|f c IH]; intros x t; simpl; [done|].
  rewrite IH. apply entries_plug, entries_plug1_set_ht.
Qed.

Lemma avl_plug t c :
  avl (plug t c) <-> avl t ∧ ctx_bal (cached_height t) c ∧ ctx_hts (cached_height t) c.
Proof.
  revert t. induction c as [|f c IH]; intros t; simpl; [tauto|].
  rewrite IH. unfold avl. destruct f; simpl; split; intros; destruct_and?; subst; split_and!; try done; try lia.
  all: try (rewrite (Z.max_comm (cached_height t)); done).
  all: try (rewrite (Z.max_comm (cached_height sib)); done).
  all: try (rewrite (Z.max_comm (cached_height sib)) in *; done).
  all: try (rewrite (Z.max_comm (cached_height t)) in *; done).
Qed.

Lemma get_balance_factor_at h par a l k v ht r :
  tree_at h par (Tree a l k v ht r) ->
  get_balance_factor a h = Done (cached_height l - cached_height r) h.
Proof.
  intros (Ha & Hl & Hr). unfold get_balance_factor.
  erewrite bind_load by exact Ha. fields.
  erewrite bind_get_height by exact Hl.
  erewrite bind_get_height by exact Hr. reflexivity.
Qed.


Lemma rebalance_unfold fuel (self : addr) :
  rebalance (K:=K) (V:=V) (S fuel) self =
  bind (get_balance_factor self) (fun balance_factor =>
  bind (if 1 <? balance_factor then
          bind (load self) (fun n =>
          bind (match left n with
                | Some l =>
                    bind (get_balance_factor l) (fun bl =>
                    if bl <? 0
                    then bind (rotate_left fuel l) (fun _ => ret tt)
                    else ret tt)
                | None => ret tt
                end) (fun _ =>
          bind (rotate_right fuel self) (fun _ => ret tt)))
        else if balance_factor <? -1 then
          bind (load self) (fun n =>
          bind (match right n with
                | Some r =>
                    bind (get_balance_factor r) (fun br =>
                    if 0 <? br
                    then bind (rotate_right fuel r) (fun _ => ret tt)
                    else ret tt)
                | None => ret tt
                end) (fun _ =>
          bind (rotate_left fuel self) (fun _ => ret tt)))
        else ret tt) (fun _ =>
  bind (load self) (fun n =>
  match parent n with
  | Some p => rebalance fuel p
  | None => ret tt
  end))).
Proof. reflexivity. Qed.

Lemma rebalance_left_heavy h p a l k v ht r kp vp hp sib c fuel :
  zip_at h (Tree p (Tree a l k v ht r) kp vp hp sib) c ->
  avl (Tree a l k v ht r) -> avl sib ->
  ht = cached_height sib + 2 -> cached_height l <> cached_height r ->
  (length c + 2 < fuel)%nat ->
  exists h1 x nl nk nv nr,
    rebalance (S fuel) p h = rebalance fuel x h1 /\
    zip_at h1 (Tree x nl nk nv ht nr) (uh_ctx ht c) /\
    avl (Tree x nl nk nv ht nr) /\
    entries (Tree x nl nk nv ht nr)
      = entries (Tree p (Tree a l k v ht r) kp vp hp sib) /\
    dom_tree (Tree x nl nk nv ht nr)
      = dom_tree (Tree p (Tree a l k v ht r) kp vp hp sib) /\
    (forall y, y ∉ dom_tree (Tree p (Tree a l k v ht r) kp vp hp sib) ∪ dom_ctx c ->
               h1 !! y = h !! y).
Proof.
  intros Hz ((Hhl & Hhr & Hht) & (Hbl & Hbr & Hbt)) (Hhs & Hbs) Hun Hne Hfuel.
  pose proof Hz as (Hp & _). pose proof Hp as (Hpc & Ht & Hs).
  pose proof (heights_ok_nonneg _ Hhl). pose proof (heights_ok_nonneg _ Hhr).
  pose proof (heights_ok_nonneg _ Hhs).
  rewrite rebalance_unfold.
  erewrite bind_Done by (eapply get_balance_factor_at; exact Hp).
  cbn [cached_height].
  replace (1 <? ht - cached_height sib) with true by (symmetry; apply Z.ltb_lt; lia).
  rewrite !bind_bind. erewrite bind_load by exact Hpc. fields.
  rewrite !bind_bind.
  erewrite bind_Done by (eapply get_balance_factor_at; exact Ht).
  destruct (Z.ltb_spec (cached_height l - cached_height r) 0) as [Hlt|Hge].
  - (* double rotation *)
    destruct r as [|b rl kb vb hb rr]; [simpl in *; lia|].
    apply zip_at_up with (f := InLeft p kp vp hp sib) in Hz.
    destruct (rotate_left_spec _ fuel _ _ _ _ _ _ _ _ _ _ _ _ Hz ltac:(simpl; lia))
      as (h2 & Hrun2 & Hz2 & Hfr2).
    rewrite !bind_bind. erewrite bind_Done by exact Hrun2. rewrite bind_ret.
    simpl uh_ctx in Hz2. apply zip_at_up in Hz2. simpl plug1 in Hz2.
    destruct (rotate_right_spec _ fuel _ _ _ _ _ _ _ _ _ _ _ _ Hz2
                ltac:(rewrite length_uh_ctx; lia))
      as (h3 & Hrun3 & Hz3 & Hfr3).
    rewrite !bind_bind. erewrite bind_Done by exact Hrun3. rewrite bind_ret.
    rewrite uh_ctx_twice in Hz3. cbn [cached_height] in Hz3.
    simpl in Hhr, Hbr, Hht, Hbt, Hlt, H0.
    destruct Hhr as (Hhrl & Hhrr & Hhb). destruct Hbr as (Hbrl & Hbrr & Hbb).
    pose proof (heights_ok_nonneg _ Hhrl). pose proof (heights_ok_nonneg _ Hhrr).
    match type of Hz3 with zip_at _ (Tree _ _ _ _ ?z _) _ =>
      replace z with ht in Hz3 by lia end.
    pose proof Hz3 as ((_ & _ & (Hp3 & _)) & _).
    erewrite bind_load by exact Hp3. fields.
    eexists h3, b, _, kb, vb, _. split; [reflexivity|]. split; [exact Hz3|].
    split; [|split; [|split]].
    + unfold avl; simpl. split_and!; try done; lia.
    + simpl. rewrite <- ?app_assoc. simpl. rewrite <- ?app_assoc. done.
    + simpl. set_solver.
    + intros y Hy. rewrite Hfr3, Hfr2; [done| |]; rewrite ?dom_ctx_uh; simpl in *; set_solver.
  - (* single rotation *)
    rewrite bind_ret.
    destruct (rotate_right_spec _ fuel _ _ _ _ _ _ _ _ _ _ _ _ Hz ltac:(lia))
      as (h3 & Hrun3 & Hz3 & Hfr3).
    rewrite !bind_bind. erewrite bind_Done by exact Hrun3. rewrite bind_ret.
    match type of Hz3 with zip_at _ (Tree _ _ _ _ ?z _) _ =>
      replace z with ht in Hz3 by lia end.
    pose proof Hz3 as ((_ & _ & (Hp3 & _)) & _).
    erewrite bind_load by exact Hp3. fields.
    eexists h3, a, _, k, v, _. split; [reflexivity|]. split; [exact Hz3|].
    split; [|split; [|split]].
    + unfold avl; simpl. split_and!; try done; lia.
    + simpl. rewrite <- ?app_assoc. done.
    + simpl. set_solver.
    + intros y Hy. rewrite Hfr3; [done|]. simpl in *; set_solver.
Qed.


Lemma rebalance_right_heavy h p a l k v ht r kp vp hp sib c fuel :
  zip_at h (Tree p sib kp vp hp (Tree a l k v ht r)) c ->
  avl (Tree a l k v ht r) -> avl sib ->
  ht = cached_height sib + 2 -> cached_height l <> cached_height r ->
  (length c + 2 < fuel)%nat ->
  exists h1 x nl nk nv nr,
    rebalance (S fuel) p h = rebalance fuel x h1 /\
    zip_at h1 (Tree x nl nk nv ht nr) (uh_ctx ht c) /\
    avl (Tree x nl nk nv ht nr) /\
    entries (Tree x nl nk nv ht nr)
      = entries (Tree p sib kp vp hp (Tree a l k v ht r)) /\
    dom_tree (Tree x nl nk nv ht nr)
      = dom_tree (Tree p sib kp vp hp (Tree a l k v ht r)) /\
    (forall y, y ∉ dom_tree (Tree p sib kp vp hp (Tree a l k v ht r)) ∪ dom_ctx c ->
               h1 !! y = h !! y).
Proof.
  intros Hz ((Hhl & Hhr & Hht) & (Hbl & Hbr & Hbt)) (Hhs & Hbs) Hun Hne Hfuel.
  pose proof Hz as (Hp & _). pose proof Hp as (Hpc & Hs & Ht).
  pose proof (heights_ok_nonneg _ Hhl). pose proof (heights_ok_nonneg _ Hhr).
  pose proof (heights_ok_nonneg _ Hhs).
  rewrite rebalance_unfold.
  erewrite bind_Done by (eapply get_balance_factor_at; exact Hp).
  cbn [cached_height].
  replace (1 <? cached_height sib - ht) with false by (symmetry; apply Z.ltb_ge; lia).
  replace (cached_height sib - ht <? -1) with true by (symmetry; apply Z.ltb_lt; lia).
  rewrite !bind_bind. erewrite bind_load by exact Hpc. fields.
  rewrite !bind_bind.
  erewrite bind_Done by (eapply get_balance_factor_at; exact Ht).
  destruct (Z.ltb_spec 0 (cached_height l - cached_height r)) as [Hlt|Hge].
  - (* double rotation *)
    destruct l as [|b ll kb vb hb lr]; [simpl in *; lia|].
    apply zip_at_up with (f := InRight p sib kp vp hp) in Hz.
    destruct (rotate_right_spec _ fuel _ _ _ _ _ _ _ _ _ _ _ _ Hz ltac:(simpl; lia))
      as (h2 & Hrun2 & Hz2 & Hfr2).
    rewrite !bind_bind. erewrite bind_Done by exact Hrun2. rewrite bind_ret.
    simpl uh_ctx in Hz2. apply zip_at_up in Hz2. simpl plug1 in Hz2.
    destruct (rotate_left_spec _ fuel _ _ _ _ _ _ _ _ _ _ _ _ Hz2
                ltac:(rewrite length_uh_ctx; lia))
      as (h3 & Hrun3 & Hz3 & Hfr3).
    rewrite !bind_bind. erewrite bind_Done by exact Hrun3. rewrite bind_ret.
    rewrite uh_ctx_twice in Hz3. cbn [cached_height] in Hz3.
    simpl in Hhl, Hbl, Hht, Hbt, Hlt, H.
    destruct Hhl as (Hhll & Hhlr & Hhb). destruct Hbl as (Hbll & Hblr & Hbb).
    pose proof (heights_ok_nonneg _ Hhll). pose proof (heights_ok_nonneg _ Hhlr).
    match type of Hz3 with zip_at _ (Tree _ _ _ _ ?z _) _ =>
      replace z with ht in Hz3 by lia end.
    pose proof Hz3 as ((_ & (Hp3 & _) & _) & _).
    erewrite bind_load by exact Hp3. fields.
    eexists h3, b, _, kb, vb, _. split; [reflexivity|]. split; [exact Hz3|].
    split; [|split; [|split]].
    + unfold avl; simpl. split_and!; try done; lia.
    + simpl. rewrite <- ?app_assoc. simpl. rewrite <- ?app_assoc. done.
    + simpl. set_solver.
    + intros y Hy. rewrite Hfr3, Hfr2; [done| |]; rewrite ?dom_ctx_uh; simpl in *; set_solver.
  - (* single rotation *)
    rewrite bind_ret.
    destruct (rotate_left_spec _ fuel _ _ _ _ _ _ _ _ _ _ _ _ Hz ltac:(lia))
      as (h3 & Hrun3 & Hz3 & Hfr3).
    rewrite !bind_bind. erewrite bind_Done by exact Hrun3. rewrite bind_ret.
    match type of Hz3 with zip_at _ (Tree _ _ _ _ ?z _) _ =>
      replace z with ht in Hz3 by lia end.
    pose proof Hz3 as ((_ & (Hp3 & _) & _) & _).
    erewrite bind_load by exact Hp3. fields.
    eexists h3, a, _, k, v, _. split; [reflexivity|]. split; [exact Hz3|].
    split; [|split; [|split]].
    + unfold avl; simpl. split_and!; try done; lia.
    + simpl. rewrite <- ?app_assoc. done.
    + simpl. set_solver.
    + intros y Hy. rewrite Hfr3; [done|]. simpl in *; set_solver.
Qed.

Lemma rebalance_spec_len n : forall c, length c = n -> forall h a l k v ht r hh fuel,
  zip_at h (Tree a l k v ht r) c ->
  avl (Tree a l k v ht r) ->
  ctx_bal hh c -> ctx_hts ht c ->
  ht = hh \/ (ht = hh + 1 /\ (cached_height l <> cached_height r \/ ht = 1)) ->
  (2 * length c + 3 <= fuel)%nat ->
  exists h' t',
    rebalance fuel a h = Done tt h' /\
    whole_at h' t' /\ avl t' /\
    entries t' = entries (plug (Tree a l k v ht r) c) /\
    dom_tree t' = dom_tree (plug (Tree a l k v ht r) c) /\
    (forall y, y ∉ dom_tree (plug (Tree a l k v ht r) c) -> h' !! y = h !! y).
Proof.
  induction n as [|n IH]; intros [|f c] Hlen; try discriminate Hlen;
    intros h a l k v ht r hh fuel Hz Havl Hcb Hch Hgrow Hfuel;
    (destruct fuel as [|fuel]; [simpl in Hfuel; lia|]).
  - pose proof Hz as (Ht & _). pose proof Ht as (Ha & _).
    pose proof Havl as ((Hhl & Hhr & Hht) & (Hbl & Hbr & Hbt)).
    rewrite rebalance_unfold.
    erewrite bind_Done by (eapply get_balance_factor_at; exact Ht).
    replace (1 <? cached_height l - cached_height r) with false
      by (symmetry; apply Z.ltb_ge; lia).
    replace (cached_height l - cached_height r <? -1) with false
      by (symmetry; apply Z.ltb_ge; lia).
    rewrite bind_ret. erewrite bind_load by exact Ha. fields.
    exists h, (Tree a l k v ht r). split; [reflexivity|].
    split; [by apply zip_at_whole in Hz|]. done.
  - pose proof Hz as (Ht & _). pose proof Ht as (Ha & _).
    pose proof Havl as ((Hhl & Hhr & Hht) & (Hbl & Hbr & Hbt)).
    rewrite rebalance_unfold.
    erewrite bind_Done by (eapply get_balance_factor_at; exact Ht).
    replace (1 <? cached_height l - cached_height r) with false
      by (symmetry; apply Z.ltb_ge; lia).
    replace (cached_height l - cached_height r <? -1) with false
      by (symmetry; apply Z.ltb_ge; lia).
    rewrite bind_ret. erewrite bind_load by exact Ha. fields.
    simpl in Hfuel.
    pose proof (heights_ok_nonneg _ Hhl). pose proof (heights_ok_nonneg _ Hhr).
    apply zip_at_up in Hz.
    destruct f as [p kp vp hp sib | p sib kp vp hp];
      simpl in Hcb, Hch; destruct Hcb as ((Hhs & Hbs) & Hhh & Hcb); destruct Hch as (Hhp & Hch);
      pose proof (heights_ok_nonneg _ Hhs); simpl plug1 in Hz; fields; simpl plug.
    + destruct (Z_le_gt_dec (ht - cached_height sib) 1) as [Hle|Hgt].
      * eapply (IH c ltac:(by injection Hlen) _ _ _ _ _ _ _ _ fuel Hz); [| exact Hcb | exact Hch | | lia].
        -- unfold avl; simpl. split_and!; try done; lia.
        -- cbn [cached_height]. lia.
      * destruct fuel as [|fuel]; [lia|].
        destruct (rebalance_left_heavy _ _ _ _ _ _ _ _ _ _ _ _ _ fuel Hz Havl
                    (conj Hhs Hbs) ltac:(lia) ltac:(lia) ltac:(lia))
          as (h1 & x & nl & nk & nv & nr & Hrun & Hz1 & Havl1 & Hent & Hdom & Hfr).
        rewrite Hrun.
        destruct (IH (uh_ctx ht c) ltac:(rewrite length_uh_ctx; by injection Hlen)
                    _ _ _ _ _ _ _ (1 + Z.max hh (cached_height sib)) fuel Hz1 Havl1)
          as (h' & t' & Hrun' & Hw & Havl' & Hent' & Hdom' & Hfr').
        { by apply ctx_bal_uh. }
        { apply ctx_hts_uh. }
        { left. lia. }
        { rewrite length_uh_ctx. lia. }
        exists h', t'. split; [exact Hrun'|]. split; [exact Hw|]. split; [exact Havl'|].
        split; [|split].
        -- rewrite Hent', entries_plug_uh. by apply entries_plug.
        -- rewrite Hdom', !dom_plug, dom_ctx_uh, Hdom. done.
        -- intros y Hy. rewrite Hfr', Hfr; [done| |].
           ++ rewrite dom_plug in Hy. set_solver.
           ++ rewrite dom_plug, dom_ctx_uh, Hdom. rewrite dom_plug in Hy. exact Hy.
    + destruct (Z_le_gt_dec (ht - cached_height sib) 1) as [Hle|Hgt].
      * eapply (IH c ltac:(by injection Hlen) _ _ _ _ _ _ _ _ fuel Hz); [| exact Hcb | | | lia].
        -- unfold avl; simpl. split_and!; try done; lia.
        -- replace hp with (1 + Z.max (cached_height sib) ht) in Hch by lia.
           replace hp with (1 + Z.max (cached_height sib) ht) by lia. exact Hch.
        -- cbn [cached_height]. lia.
      * destruct fuel as [|fuel]; [lia|].
        destruct (rebalance_right_heavy _ _ _ _ _ _ _ _ _ _ _ _ _ fuel Hz Havl
                    (conj Hhs Hbs) ltac:(lia) ltac:(lia) ltac:(lia))
          as (h1 & x & nl & nk & nv & nr & Hrun & Hz1 & Havl1 & Hent & Hdom & Hfr).
        rewrite Hrun.
        destruct (IH (uh_ctx ht c) ltac:(rewrite length_uh_ctx; by injection Hlen)
                    _ _ _ _ _ _ _ (1 + Z.max hh (cached_height sib)) fuel Hz1 Havl1)
          as (h' & t' & Hrun' & Hw & Havl' & Hent' & Hdom' & Hfr').
        { by apply ctx_bal_uh. }
        { apply ctx_hts_uh. }
        { left. lia. }
        { rewrite length_uh_ctx. lia. }
        exists h', t'. split; [exact Hrun'|]. split; [exact Hw|]. split; [exact Havl'|].
        split; [|split].
        -- rewrite Hent', entries_plug_uh. by apply entries_plug.
        -- rewrite Hdom', !dom_plug, dom_ctx_uh, Hdom. done.
        -- intros y Hy. rewrite Hfr', Hfr; [done| |].
           ++ rewrite dom_plug in Hy. set_solver.
           ++ rewrite dom_plug, dom_ctx_uh, Hdom. rewrite dom_plug in Hy. exact Hy.
Qed.


Lemma rebalance_spec c h a l k v ht r hh fuel :
  zip_at h (Tree a l k v ht r) c ->
  avl (Tree a l k v ht r) ->
  ctx_bal hh c -> ctx_hts ht c ->
  ht = hh \/ (ht = hh + 1 /\ (cached_height l <> cached_height r \/ ht = 1)) ->
  (2 * length c + 3 <= fuel)%nat ->
  exists h' t',
    rebalance fuel a h = Done tt h' /\
    whole_at h' t' /\ avl t' /\
    entries t' = entries (plug (Tree a l k v ht r) c) /\
    dom_tree t' = dom_tree (plug (Tree a l k v ht r) c) /\
    (forall y, y ∉ dom_tree (plug (Tree a l k v ht r) c) -> h' !! y = h !! y).
Proof. by apply (rebalance_spec_len (length c)). Qed.

Lemma keys_Tree a l k v ht r :
  keys (Tree a l k v ht r) = keys l ++ k :: keys r.
Proof. unfold keys. simpl. by rewrite fmap_app. Qed.

Lemma do_insert_unfold cmp fuel (self to_insert : addr) :
  do_insert (K:=K) (V:=V) cmp (S fuel) self to_insert =
  bind (load self) (fun n =>
  bind (load to_insert) (fun ti =>
  let compare := cmp (key n) (key ti) in
  if compare =? 0 then ret TREE_DUPLICATE_KEY
  else
    let attach_parent :=
      bind (update to_insert (set_parent (Some self))) (fun _ => ret TREE_SUCCESS) in
    if 0 <? compare then
      match left n with
      | Some l => do_insert cmp fuel l to_insert
      | None => bind (update self (set_left (Some to_insert))) (fun _ => attach_parent)
      end
    else if compare <? 0 then
      match right n with
      | Some r => do_insert cmp fuel r to_insert
      | None => bind (update self (set_right (Some to_insert))) (fun _ => attach_parent)
      end
    else attach_parent)).
Proof. reflexivity. Qed.

Lemma do_insert_attach cmp n np hn kn vn t : forall c h fuel a,
  root_of t = Some a ->
  zip_at h t c ->
  h !! n = Some (mkTreeNode None None np hn kn vn) ->
  n ∉ dom_tree t ∪ dom_ctx c ->
  (forall k, k ∈ keys t -> cmp k kn <> 0) ->
  (depth t <= fuel)%nat ->
  exists h' c',
    do_insert cmp fuel a n h = Done TREE_SUCCESS h' /\
    plug Empty c' = plug t c /\
    (length c' <= length c + depth t)%nat /\
    zip_at h' (Tree n Empty kn vn hn Empty) c' /\
    (forall y, y ∉ {[n]} ∪ dom_tree t ∪ dom_ctx c -> h' !! y = h !! y).
Proof.
  induction t as [|a' l IHl k v ht r IHr]; intros c h fuel a Hroot Hz Hn Hfresh Hkeys Hfuel;
    [discriminate|].
  injection Hroot as ->.
  destruct fuel as [|fuel]; [simpl in Hfuel; lia|]. cbn [depth] in Hfuel.
  pose proof Hz as ((Ha & Hl & Hr) & Hc & (Hd1 & Hd2 & Hd3 & Hd4 & Hd5) & Hdc & Hdd).
  simpl in Hfresh, Hdd.
  assert (Hna : n <> a) by set_solver.
  rewrite do_insert_unfold.
  erewrite bind_load by exact Ha. erewrite bind_load by exact Hn. fields. cbv zeta.
  assert (Hk : cmp k kn <> 0).
  { apply Hkeys. rewrite keys_Tree. apply elem_of_app. right. apply elem_of_cons. by left. }
  replace (cmp k kn =? 0) with false by (symmetry; by apply Z.eqb_neq).
  destruct (Z.ltb_spec 0 (cmp k kn)) as [Hgt|Hle].
  - destruct l as [|b ll kb vb hb lr].
    + fields. erewrite bind_update by exact Ha.
      erewrite bind_update by (rewrite lookup_insert_ne by done; exact Hn).
      unfold set_left, set_parent; simpl.
      eexists _, (InLeft a k v ht r :: c). split; [reflexivity|].
      split; [reflexivity|]. split; [simpl; lia|]. split.
      * split; [|split; [|split; [|split]]].
        -- simpl. split; [|done]. by rewrite lookup_insert_eq.
        -- simpl. split; [|split].
           ++ rewrite lookup_insert_ne by done. by rewrite lookup_insert_eq.
           ++ eapply tree_at_agree; [|exact Hr]. intros y Hy.
              rewrite !lookup_insert_ne by set_solver. done.
           ++ eapply ctx_at_agree; [|exact Hc]. intros y Hy.
              rewrite !lookup_insert_ne by set_solver. done.
        -- simpl. set_solver.
        -- simpl. set_solver.
        -- simpl. set_solver.
      * intros y Hy. rewrite !lookup_insert_ne by set_solver. done.
    + fields.
      apply zip_at_up with (f := InLeft a k v ht r) in Hz.
      destruct (IHl (InLeft a k v ht r :: c) h fuel b eq_refl Hz Hn) as (h' & c' & Hrun & Hplug & Hlen & Hz' & Hfr).
      { simpl. set_solver. }
      { intros k' Hk'. apply Hkeys. rewrite (keys_Tree a). apply elem_of_app. by left. }
      { lia. }
      exists h', c'. split; [exact Hrun|]. split; [exact Hplug|].
      split; [cbn [length depth] in Hlen |- *; lia|]. split; [exact Hz'|].
      intros y Hy. apply Hfr. simpl. set_solver.
  - replace (cmp k kn <? 0) with true by (symmetry; apply Z.ltb_lt; lia).
    destruct r as [|b rl kb vb hb rr].
    + fields. erewrite bind_update by exact Ha.
      erewrite bind_update by (rewrite lookup_insert_ne by done; exact Hn).
      unfold set_right, set_parent; simpl.
      eexists _, (InRight a l k v ht :: c). split; [reflexivity|].
      split; [reflexivity|]. split; [simpl; lia|]. split.
      * split; [|split; [|split; [|split]]].
        -- simpl. split; [|done]. by rewrite lookup_insert_eq.
        -- simpl. split; [|split].
           ++ rewrite lookup_insert_ne by done. by rewrite lookup_insert_eq.
           ++ eapply tree_at_agree; [|exact Hl]. intros y Hy.
              rewrite !lookup_insert_ne by set_solver. done.
           ++ eapply ctx_at_agree; [|exact Hc]. intros y Hy.
              rewrite !lookup_insert_ne by set_solver. done.
        -- simpl. set_solver.
        -- simpl. set_solver.
        -- simpl. set_solver.
      * intros y Hy. rewrite !lookup_insert_ne by set_solver. done.
    + fields.
      apply zip_at_up with (f := InRight a l k v ht) in Hz.
      destruct (IHr (InRight a l k v ht :: c) h fuel b eq_refl Hz Hn) as (h' & c' & Hrun & Hplug & Hlen & Hz' & Hfr).
      { simpl. set_solver. }
      { intros k' Hk'. apply Hkeys. rewrite (keys_Tree a). apply elem_of_app. right. apply elem_of_cons. by right. }
      { lia. }
      exists h', c'. split; [exact Hrun|]. split; [exact Hplug|].
      split; [cbn [length depth] in Hlen |- *; lia|]. split; [exact Hz'|].
      intros y Hy. apply Hfr. simpl. set_solver.
Qed.


Lemma entries_plug_insert x c : forall t t',
  (exists e1 e2, entries t' = e1 ++ e2 /\ entries t = e1 ++ x :: e2) ->
  exists e1 e2, entries (plug t' c) = e1 ++ e2 /\ entries (plug t c) = e1 ++ x :: e2.
Proof.
  induction c as [|f c IH]; intros t t' H; simpl; [done|].
  apply IH. destruct H as (e1 & e2 & H1 & H2).
  destruct f as [p kp vp hp sib | p sib kp vp hp]; simpl; rewrite H1, H2.
  - exists e1, (e2 ++ (kp, vp) :: entries sib). by rewrite <- !app_assoc.
  - exists (entries sib ++ (kp, vp) :: e1), e2. by rewrite <- !app_assoc.
Qed.

(** C7. Inserting a fresh node whose key compares equal to no stored key
    into a tree that satisfies the height and balance invariants succeeds,
    and the memory then holds a tree that satisfies both invariants at
    every node; its in-order entries are the old ones with the new pair
    put in at one place, and no cell outside the tree and the new node has
    changed. *)
Theorem TreeNode_insert_restores_avl cmp h t a n np hn kn vn fuel :
  whole_at h t -> root_of t = Some a -> avl t ->
  h !! n = Some (mkTreeNode None None np hn kn vn) ->
  n ∉ dom_tree t ->
  (forall k, k ∈ keys t -> cmp k kn <> 0) ->
  (2 * depth t + 3 <= fuel)%nat ->
  exists h' t',
    TreeNode_insert cmp fuel a n h = Done TREE_SUCCESS h' /\
    whole_at h' t' /\ heights_ok t' /\ balanced t' /\
    (exists e1 e2, entries t = e1 ++ e2 /\ entries t' = e1 ++ (kn, vn) :: e2) /\
    dom_tree t' = {[n]} ∪ dom_tree t /\
    (forall y, y ∉ {[n]} ∪ dom_tree t -> h' !! y = h !! y).
Proof.
  intros Hw Hroot Havl Hn Hfresh Hkeys Hfuel.
  apply (zip_at_whole h t []) in Hw.
  destruct (do_insert_attach cmp n np hn kn vn t [] h fuel a Hroot Hw Hn)
    as (h1 & c & Hrun1 & Hplug & Hlen & Hz1 & Hfr1).
  { simpl. set_solver. }
  { exact Hkeys. }
  { lia. }
  simpl in Hplug, Hlen. rewrite <- Hplug in Havl.
  apply avl_plug in Havl. destruct Havl as (_ & Hcb & Hch). simpl in Hcb, Hch.
  destruct (update_height_spec _ _ _ _ _ _ _ _ fuel Hz1 ltac:(lia))
    as (h2 & Hrun2 & Hz2 & Hfr2).
  cbn [cached_height] in Hz2. change (1 + Z.max 0 0) with 1 in Hz2.
  destruct (rebalance_spec _ _ _ _ _ _ _ _ 0 fuel Hz2)
    as (h3 & t' & Hrun3 & Hw3 & (Hh3 & Hb3) & Hent & Hdom & Hfr3).
  { unfold avl; simpl. split_and!; try done; lia. }
  { by apply ctx_bal_uh. }
  { apply ctx_hts_uh. }
  { right. split; [lia|]. by right. }
  { rewrite length_uh_ctx. lia. }
  exists h3, t'. split.
  { unfold TreeNode_insert. erewrite bind_Done by exact Hrun1.
    rewrite bool_decide_eq_false_2 by (intros Hne; by apply Hne).
    erewrite bind_Done by exact Hrun2. erewrite bind_Done by exact Hrun3.
    reflexivity. }
  split; [exact Hw3|]. split; [exact Hh3|]. split; [exact Hb3|].
  assert (Hdomt : dom_tree t = dom_ctx c).
  { rewrite <- Hplug, dom_plug. simpl. set_solver. }
  split; [|split].
  - rewrite Hent, entries_plug_uh, <- Hplug.
    apply entries_plug_insert. exists [], []. done.
  - rewrite Hdom, dom_plug, dom_ctx_uh, Hdomt. simpl. set_solver.
  - intros y Hy. rewrite Hfr3, Hfr2, Hfr1; [done| | |].
    + simpl. set_solver.
    + simpl. rewrite <- Hdomt. set_solver.
    + rewrite dom_plug, dom_ctx_uh, <- Hdomt. simpl. set_solver.
Qed.

Section WithCmp.
Context (cmp : K -> K -> Z).

Lemma lower_bound_unfold fuel (self : addr) (q : K) (bound : ptr) :
  TreeNode_lower_bound (V:=V) cmp (S fuel) self q bound =
  bind (load self) (fun n =>
  let compare := cmp (key n) q in
  if compare <? 0 then
    match right n with
    | None => ret (TREE_NO_SUCH_KEY, bound)
    | Some r => TreeNode_lower_bound cmp fuel r q bound
    end
  else
    match (if 0 <? compare then left n else None) with
    | Some l =>
        bind (TreeNode_lower_bound cmp fuel l q bound) (fun res =>
        if bool_decide (fst res <> TREE_SUCCESS)
        then ret (TREE_SUCCESS, Some self)
        else ret (TREE_SUCCESS, snd res))
    | None => ret (TREE_SUCCESS, Some self)
    end).
Proof. reflexivity. Qed.

Lemma lower_bound_run t : forall par h fuel a q b0,
  root_of t = Some a -> tree_at h par t -> (depth t <= fuel)%nat ->
  TreeNode_lower_bound cmp fuel a q b0 h =
  Done (match lower_bound_of cmp t q with
        | Some b => (TREE_SUCCESS, Some (fst b))
        | None => (TREE_NO_SUCH_KEY, b0)
        end) h.
Proof.
  induction t as [|a' l IHl k v ht r IHr]; intros par h fuel a q b0 Hroot Ht Hfuel;
    [discriminate|].
  injection Hroot as ->. destruct Ht as (Ha & Hl & Hr).
  destruct fuel as [|fuel]; [simpl in Hfuel; lia|]. cbn [depth] in Hfuel.
  rewrite lower_bound_unfold. erewrite bind_load by exact Ha. fields. cbv zeta.
  cbn [lower_bound_of].
  destruct (cmp k q <? 0).
  - destruct r as [|b rl kb vb hb rr]; [reflexivity|]. fields.
    apply (IHr (Some a)); [done|done|lia].
  - destruct (0 <? cmp k q); [|reflexivity].
    destruct l as [|b ll kb vb hb lr]; [reflexivity|]. fields.
    erewrite bind_Done by (apply (IHl (Some a)); [done|done|lia]).
    destruct (lower_bound_of cmp (Tree b ll kb vb hb lr) q) as [[x kx]|]; reflexivity.
Qed.

Lemma lower_bound_heap fuel : forall a q b0 h res h',
  TreeNode_lower_bound (V:=V) cmp fuel a q b0 h = Done res h' -> h' = h.
Proof.
  induction fuel as [|fuel IH]; intros a q b0 h res h'; [discriminate|].
  rewrite lower_bound_unfold. unfold bind at 1, load.
  destruct (h !! a) as [n|]; [|discriminate]. cbv zeta.
  destruct (cmp (key n) q <? 0).
  - destruct (right n) as [r|]; [apply IH|]. by intros [= _ ->].
  - destruct (if 0 <? cmp (key n) q then left n else None) as [l|].
    + unfold bind.
      destruct (TreeNode_lower_bound cmp fuel l q b0 h) as [res1 h1| |] eqn:Hrec;
        [|discriminate..].
      apply IH in Hrec. subst h1.
      destruct (bool_decide (res1.1 ≠ TREE_SUCCESS)); by intros [= _ ->].
    + by intros [= _ ->].
Qed.

Context `{!TotalCmp cmp}.

#[local] Instance cmp_lt_transitive : Transitive (fun a b : K => cmp a b < 0).
Proof. intros a b c. apply cmp_lt_trans, _. Qed.

Lemma cmp_refl a : cmp a a = 0.
Proof. pose proof (cmp_antisym a a). lia. Qed.

Lemma bst_inv a l k v ht r :
  bst cmp (Tree a l k v ht r) ->
  bst cmp l /\ bst cmp r /\
  (forall x, x ∈ keys l -> cmp x k < 0) /\
  (forall y, y ∈ keys r -> cmp k y < 0).
Proof.
  unfold bst. rewrite keys_Tree. intros Hs.
  apply (Sorted_StronglySorted _) in Hs.
  apply StronglySorted_app in Hs. destruct Hs as (Hlr & Hl & Hr).
  apply StronglySorted_cons in Hr. destruct Hr as (Hk & Hr).
  split; [by apply StronglySorted_Sorted|]. split; [by apply StronglySorted_Sorted|].
  split.
  - intros x Hx. apply Hlr; [done|]. apply elem_of_cons. by left.
  - intros y Hy. rewrite Forall_forall in Hk. by apply Hk.
Qed.

Lemma lower_bound_of_spec t q :
  bst cmp t ->
  match lower_bound_of cmp t q with
  | Some (b, kb) =>
      b ∈ dom_tree t /\ kb ∈ keys t /\ 0 <= cmp kb q /\
      (forall k, k ∈ keys t -> 0 <= cmp k q -> cmp kb k <= 0)
  | None => forall k, k ∈ keys t -> cmp k q < 0
  end.
Proof.
  induction t as [|a l IHl k v ht r IHr]; intros Hb; simpl.
  - intros k Hk. unfold keys in Hk. simpl in Hk. by apply elem_of_nil in Hk.
  - apply bst_inv in Hb. destruct Hb as (Hbl & Hbr & Hlk & Hkr).
    specialize (IHl Hbl). specialize (IHr Hbr).
    assert (Hin : forall x, x ∈ keys (Tree a l k v ht r) ->
                            x ∈ keys l \/ x = k \/ x ∈ keys r).
    { intros x. rewrite keys_Tree, elem_of_app, elem_of_cons. tauto. }
    assert (Hinl : forall x, x ∈ keys l -> x ∈ keys (Tree a l k v ht r)).
    { intros x ?. rewrite keys_Tree, elem_of_app. by left. }
    assert (Hink : k ∈ keys (Tree a l k v ht r)).
    { rewrite keys_Tree, elem_of_app, elem_of_cons. right. by left. }
    assert (Hinr : forall x, x ∈ keys r -> x ∈ keys (Tree a l k v ht r)).
    { intros x ?. rewrite keys_Tree, elem_of_app, elem_of_cons. right. by right. }
    destruct (Z.ltb_spec (cmp k q) 0) as [Hlt|Hge].
    + destruct (lower_bound_of cmp r q) as [[b kb]|].
      * destruct IHr as (Hbd & Hkb & Hge & Hmin). split_and!; [set_solver|by apply Hinr|done|].
        intros x Hx Hxq. destruct (Hin x Hx) as [Hxl|[->|Hxr]].
        -- specialize (Hlk x Hxl). pose proof (cmp_lt_trans cmp _ _ _ Hlk Hlt). lia.
        -- lia.
        -- by apply Hmin.
      * intros x Hx. destruct (Hin x Hx) as [Hxl|[->|Hxr]].
        -- specialize (Hlk x Hxl). apply (cmp_lt_trans cmp _ _ _ Hlk Hlt).
        -- done.
        -- by apply IHr.
    + assert (Hself : a ∈ dom_tree (Tree a l k v ht r) /\ k ∈ keys (Tree a l k v ht r) /\
                      0 <= cmp k q /\
                      (forall x, x ∈ keys (Tree a l k v ht r) ->
                                 (x ∈ keys l -> cmp x q < 0) -> 0 <= cmp x q -> cmp k x <= 0)).
      { split_and!; [set_solver|done|done|].
        intros x Hx Hl Hxq. destruct (Hin x Hx) as [Hxl|[->|Hxr]].
        - specialize (Hl Hxl). lia.
        - rewrite cmp_refl. lia.
        - specialize (Hkr x Hxr). lia. }
      destruct Hself as (S1 & S2 & S3 & S4).
      destruct (Z.ltb_spec 0 (cmp k q)) as [Hgt|Hle].
      * destruct (lower_bound_of cmp l q) as [[b kb]|].
        -- destruct IHl as (Hbd & Hkb & Hge' & Hmin). split_and!; [set_solver|by apply Hinl|done|].
           intros x Hx Hxq. destruct (Hin x Hx) as [Hxl|[->|Hxr]].
           ++ by apply Hmin.
           ++ specialize (Hlk kb Hkb). lia.
           ++ specialize (Hlk kb Hkb). specialize (Hkr x Hxr).
              pose proof (cmp_lt_trans cmp _ _ _ Hlk Hkr). lia.
        -- split_and!; try done. intros x Hx Hxq. apply S4; try done. apply IHl.
      * split_and!; try done. intros x Hx Hxq. apply S4; try done.
        intros Hxl. specialize (Hlk x Hxl).
        apply (cmp_lt_le_trans cmp x k q); [done|lia].
Qed.


Lemma do_insert_duplicate n nd t : forall par h fuel a,
  root_of t = Some a -> tree_at h par t -> bst cmp t ->
  h !! n = Some nd ->
  (exists k, k ∈ keys t /\ cmp k (key nd) = 0) ->
  (depth t <= fuel)%nat ->
  do_insert cmp fuel a n h = Done TREE_DUPLICATE_KEY h.
Proof.
  induction t as [|a' l IHl k v ht r IHr]; intros par h fuel a Hroot Ht Hb Hn Hdup Hfuel;
    [discriminate|].
  injection Hroot as ->. destruct Ht as (Ha & Hl & Hr).
  destruct fuel as [|fuel]; [simpl in Hfuel; lia|]. cbn [depth] in Hfuel.
  apply bst_inv in Hb. destruct Hb as (Hbl & Hbr & Hlk & Hkr).
  destruct Hdup as (k0 & Hk0 & Heq).
  rewrite keys_Tree, elem_of_app, elem_of_cons in Hk0.
  rewrite do_insert_unfold.
  erewrite bind_load by exact Ha. erewrite bind_load by exact Hn. fields. cbv zeta.
  destruct (Z.eqb_spec (cmp k (key nd)) 0) as [|Hne]; [reflexivity|].
  destruct (Z.ltb_spec 0 (cmp k (key nd))) as [Hgt|Hle].
  - destruct Hk0 as [Hk0|[->|Hk0]].
    + destruct l as [|b ll kb vb hb lr].
      { unfold keys in Hk0. simpl in Hk0. by apply elem_of_nil in Hk0. }
      fields. apply (IHl (Some a)); [done|done|done|done| |lia].
      exists k0. done.
    + done.
    + specialize (Hkr k0 Hk0).
      pose proof (cmp_lt_le_trans cmp k k0 (key nd) Hkr ltac:(lia)). lia.
  - replace (cmp k (key nd) <? 0) with true by (symmetry; apply Z.ltb_lt; lia).
    destruct Hk0 as [Hk0|[->|Hk0]].
    + specialize (Hlk k0 Hk0).
      assert (cmp (key nd) k0 <= 0) by (apply cmp_eq_sym in Heq; [lia|done]).
      assert (cmp k (key nd) < 0) by lia.
      pose proof (cmp_lt_le_trans cmp k (key nd) k0 ltac:(done) ltac:(done)).
      apply cmp_lt_gt in H1; [lia|done].
    + done.
    + destruct r as [|b rl kb vb hb rr].
      { unfold keys in Hk0. simpl in Hk0. by apply elem_of_nil in Hk0. }
      fields. apply (IHr (Some a)); [done|done|done|done| |lia].
      exists k0. done.
Qed.

End WithCmp.

Lemma lower_bound_of_cell cmp q b kb t : forall h par,
  tree_at h par t -> lower_bound_of cmp t q = Some (b, kb) ->
  exists nb, h !! b = Some nb /\ key nb = kb.
Proof.
  induction t as [|a l IHl k v ht r IHr]; intros h par Ht; simpl; [discriminate|].
  destruct Ht as (Ha & Hl & Hr).
  destruct (cmp k q <? 0); [by apply (IHr h (Some a))|].
  destruct (0 <? cmp k q).
  - destruct (lower_bound_of cmp l q) as [[x kx]|] eqn:Hlb.
    + intros [= -> ->]. by apply (IHl h (Some a)).
    + intros [= <- <-]. eexists; split; [exact Ha|done].
  - intros [= <- <-]. eexists; split; [exact Ha|done].
Qed.

(** C6. On a non-empty tree whose in-order keys are strictly ascending,
    [TreeNode_lower_bound] fails with [TREE_NO_SUCH_KEY] exactly when every
    stored key is before the query, and otherwise succeeds and stores in
    [*bound] a node of the tree whose key is at or after the query and at
    or before every other stored key that is at or after the query. *)
Theorem TreeNode_lower_bound_correct cmp `{!TotalCmp cmp} h par t a q b0 fuel :
  root_of t = Some a -> tree_at h par t -> bst cmp t ->
  (depth t <= fuel)%nat ->
  exists err bound,
    TreeNode_lower_bound cmp fuel a q b0 h = Done (err, bound) h /\
    (err = TREE_NO_SUCH_KEY <-> forall k, k ∈ keys t -> cmp k q < 0) /\
    (err <> TREE_NO_SUCH_KEY ->
     err = TREE_SUCCESS /\
     exists b nb,
       bound = Some b /\ b ∈ dom_tree t /\ h !! b = Some nb /\
       key nb ∈ keys t /\ 0 <= cmp (key nb) q /\
       forall k, k ∈ keys t -> 0 <= cmp k q -> cmp (key nb) k <= 0).
Proof.
  intros Hroot Ht Hb Hfuel.
  rewrite (lower_bound_run cmp t par h fuel a q b0 Hroot Ht Hfuel).
  pose proof (lower_bound_of_spec cmp t q Hb) as Hspec.
  destruct (lower_bound_of cmp t q) as [[b kb]|] eqn:Hlb.
  - destruct Hspec as (Hbd & Hkb & Hge & Hmin).
    destruct (lower_bound_of_cell cmp q b kb t h par Ht Hlb) as (nb & Hnb & <-).
    eexists _, _. split; [reflexivity|]. split.
    + split; [discriminate|]. intros Hall. specialize (Hall _ Hkb). lia.
    + intros _. split; [done|]. exists b, nb. done.
  - eexists _, _. split; [reflexivity|]. split; [done|]. by intros [].
Qed.

(** C10. [TreeNode_lower_bound] only reads: on every tree, for every
    comparator and query, the call completes with [TREE_SUCCESS] or
    [TREE_NO_SUCH_KEY] and leaves the memory exactly as it found it; and
    whatever memory it is run on, a call that completes has changed no
    cell. *)
Theorem TreeNode_lower_bound_read_only (cmp : K -> K -> Z) h par t a q b0 fuel :
  root_of t = Some a -> tree_at h par t -> (depth t <= fuel)%nat ->
  (exists err bound,
     TreeNode_lower_bound cmp fuel a q b0 h = Done (err, bound) h /\
     (err = TREE_SUCCESS \/ err = TREE_NO_SUCH_KEY)) /\
  (forall (h0 : gmap addr (TreeNode K V)) fuel0 a0 res h1,
     TreeNode_lower_bound cmp fuel0 a0 q b0 h0 = Done res h1 -> h1 = h0).
Proof.
  intros Hroot Ht Hfuel. split.
  - rewrite (lower_bound_run cmp t par h fuel a q b0 Hroot Ht Hfuel).
    destruct (lower_bound_of cmp t q) as [[b kb]|]; eexists _, _; split; eauto.
  - intros h0 fuel0 a0 res h1. apply lower_bound_heap.
Qed.

(** C8. When the key of the node to insert compares equal to a stored key
    of a tree with strictly ascending keys, [TreeNode_insert] returns
    [TREE_DUPLICATE_KEY] and the memory, the rejected node included, is
    exactly as before. *)
Theorem TreeNode_insert_duplicate_key cmp `{!TotalCmp cmp} h par t a n nd fuel :
  root_of t = Some a -> tree_at h par t -> bst cmp t ->
  h !! n = Some nd ->
  (exists k, k ∈ keys t /\ cmp k (key nd) = 0) ->
  (depth t <= fuel)%nat ->
  TreeNode_insert cmp fuel a n h = Done TREE_DUPLICATE_KEY h.
Proof.
  intros Hroot Ht Hb Hn Hdup Hfuel. unfold TreeNode_insert.
  erewrite bind_Done
    by exact (do_insert_duplicate cmp n nd t par h fuel a Hroot Ht Hb Hn Hdup Hfuel).
  reflexivity.
Qed.

(** [TreeNode_erase] and the payload of the cells. *)

Lemma links_only_ret {A} (a : A) : links_only (K:=K) (V:=V) (ret a).
Proof. intros h. simpl. done. Qed.

Lemma links_only_fault {A} : links_only (K:=K) (V:=V) (fault (A:=A)).
Proof. intros h. simpl. done. Qed.

Lemma links_only_load a : links_only (K:=K) (V:=V) (load a).
Proof. intros h. unfold load. by destruct (h !! a). Qed.

Lemma links_only_update a g :
  (forall n, payload (g n) = payload n) ->
  links_only (K:=K) (V:=V) (update a g).
Proof.
  intros Hg h. unfold update. destruct (h !! a) as [n|] eqn:Ha; [|done].
  intros x. destruct (decide (x = a)) as [->|Hne].
  - rewrite lookup_insert_eq, Ha. simpl. by rewrite Hg.
  - by rewrite lookup_insert_ne.
Qed.

Lemma links_only_bind {A B} (m : M _ A) (k : A -> M _ B) :
  links_only m -> (forall a, links_only (K:=K) (V:=V) (k a)) ->
  links_only (K:=K) (V:=V) (bind m k).
Proof.
  intros Hm Hk h. unfold bind. specialize (Hm h).
  destruct (m h) as [a h1| |]; [|done..].
  specialize (Hk a h1). destruct (k a h1) as [b h2| |]; [|done..].
  intros x. by rewrite Hk, Hm.
Qed.

Lemma links_only_retarget_parent a x :
  links_only (K:=K) (V:=V) (retarget_parent a x).
Proof.
  unfold retarget_parent. apply links_only_bind; [apply links_only_load|].
  intros n. destruct (parent n); [|apply links_only_ret].
  apply links_only_bind; [apply links_only_load|]. intros pn.
  destruct (bool_decide _); by apply links_only_update.
Qed.

Lemma links_only_remove_parent a :
  links_only (K:=K) (V:=V) (remove_parent a).
Proof.
  unfold remove_parent. apply links_only_bind; [apply links_only_retarget_parent|].
  intros _. by apply links_only_update.
Qed.

Lemma links_only_leftmost fuel :
  forall a, links_only (K:=K) (V:=V) (leftmost fuel a).
Proof.
  induction fuel as [|fuel IH]; intros a; [by intros h|].
  simpl. apply links_only_bind; [apply links_only_load|].
  intros n. destruct (left n); [apply IH|apply links_only_ret].
Qed.

(** X1. [TreeNode_erase] writes links only: whatever the tree and the
    node, no cell's key, value or cached height is different afterwards. *)
Lemma TreeNode_erase_links_only fuel a :
  links_only (K:=K) (V:=V) (TreeNode_erase fuel a).
Proof.
  unfold TreeNode_erase, replace_left, replace_right, replace_successor,
    inorder_successor.
  repeat first
    [ apply links_only_ret | apply links_only_fault | apply links_only_load
    | apply links_only_retarget_parent | apply links_only_remove_parent
    | apply links_only_leftmost
    | apply links_only_update; done
    | apply links_only_bind
    | match goal with |- forall _, _ => intro end
    | match goal with |- links_only (match ?x with _ => _ end) => destruct x end ].
Qed.

End NodeFacts.

(** *** The claims on concrete trees *)

Example lower_bound_6 :
  TreeNode_lower_bound Zcmp 3 1 6 None heap5 = Done (TREE_SUCCESS, Some 3%positive) heap5.
Proof. vm_compute. reflexivity. Qed.

Example lower_bound_10 :
  TreeNode_lower_bound Zcmp 3 1 10 None heap5 = Done (TREE_NO_SUCH_KEY, None) heap5.
Proof. vm_compute. reflexivity. Qed.

Lemma TreeNode_lower_bound_correct_witness :
  exists err bound,
    TreeNode_lower_bound Zcmp 3 1 6 None heap5 = Done (err, bound) heap5 /\
    (err = TREE_NO_SUCH_KEY <-> forall k, k ∈ keys tree5 -> Zcmp k 6 < 0) /\
    (err <> TREE_NO_SUCH_KEY ->
     err = TREE_SUCCESS /\
     exists b nb,
       bound = Some b /\ b ∈ dom_tree tree5 /\ heap5 !! b = Some nb /\
       key nb ∈ keys tree5 /\ 0 <= Zcmp (key nb) 6 /\
       forall k, k ∈ keys tree5 -> 0 <= Zcmp k 6 -> Zcmp (key nb) k <= 0).
Proof.
  apply (TreeNode_lower_bound_correct Zcmp heap5 None tree5 1 6 None 3).
  - reflexivity.
  - simpl. repeat split; reflexivity.
  - unfold bst, keys; simpl. repeat constructor; unfold Zcmp; lia.
  - simpl. lia.
Defined.

Lemma TreeNode_lower_bound_read_only_witness :
  (exists err bound,
     TreeNode_lower_bound Zcmp 3 1 10 None heap5 = Done (err, bound) heap5 /\
     (err = TREE_SUCCESS \/ err = TREE_NO_SUCH_KEY)) /\
  (forall (h0 : gmap addr (TreeNode Z Z)) fuel0 a0 res h1,
     TreeNode_lower_bound Zcmp fuel0 a0 10 None h0 = Done res h1 -> h1 = h0).
Proof.
  apply (TreeNode_lower_bound_read_only Zcmp heap5 None tree5 1 10 None 3).
  - reflexivity.
  - simpl. repeat split; reflexivity.
  - simpl. lia.
Defined.

Lemma TreeNode_insert_duplicate_key_witness :
  TreeNode_insert Zcmp 3 1 6 heap5_dup = Done TREE_DUPLICATE_KEY heap5_dup.
Proof.
  apply (TreeNode_insert_duplicate_key Zcmp heap5_dup None tree5 1 6 (leaf_cell None 7 71) 3).
  - reflexivity.
  - simpl. repeat split; reflexivity.
  - unfold bst, keys; simpl. repeat constructor; unfold Zcmp; lia.
  - reflexivity.
  - exists 7. split; [|reflexivity]. unfold keys; simpl.
    do 3 apply list_elem_of_further. apply list_elem_of_here.
  - simpl. lia.
Defined.

Example init_is_leaf_cell (h : gmap addr (TreeNode Z Z)) :
  TreeNode_init 3 30 300 h = Done TREE_SUCCESS (<[3%positive := leaf_cell None 30 300]> h).
Proof. reflexivity. Qed.

Example insert_30_rotates :
  cells_after (TreeNode_insert Zcmp 7 1 3) heap_spine [1; 2; 3]%positive =
  Some (TREE_SUCCESS,
        [Some (mkTreeNode None None (Some 2%positive) 1 10 100);
         Some (mkTreeNode (Some 1%positive) (Some 3%positive) None 2 20 200);
         Some (mkTreeNode None None (Some 2%positive) 1 30 300)]).
Proof. vm_compute. reflexivity. Qed.

Lemma TreeNode_insert_restores_avl_witness :
  exists h' t',
    TreeNode_insert Zcmp 7 1 3 heap_spine = Done TREE_SUCCESS h' /\
    whole_at h' t' /\ heights_ok t' /\ balanced t' /\
    (exists e1 e2, entries tree_spine = e1 ++ e2 /\
                   entries t' = e1 ++ (30, 300) :: e2) /\
    dom_tree t' = {[3%positive]} ∪ dom_tree tree_spine /\
    (forall y, y ∉ {[3%positive]} ∪ dom_tree tree_spine -> h' !! y = heap_spine !! y).
Proof.
  apply (TreeNode_insert_restores_avl Zcmp heap_spine tree_spine 1 3 None 1 30 300 7).
  - split; [simpl; repeat split; reflexivity|simpl; set_solver].
  - reflexivity.
  - unfold avl; simpl. lia.
  - reflexivity.
  - simpl. set_solver.
  - intros k Hk. unfold keys in Hk. simpl in Hk. unfold Zcmp.
    apply elem_of_cons in Hk as [->|Hk]; [lia|].
    apply elem_of_cons in Hk as [->|Hk]; [lia|].
    by apply elem_of_nil in Hk.
  - simpl. lia.
Defined.

(** C1. Erasing a node with two children.  On the tree 10, 20, 30 the
    root cell still holds key 20 and value 200, not the successor's 30 and
    300; its right link is cleared, and the successor's cell, with the
    pair (30, 300), is detached from the tree.  On the tree 10, 20, 30, 40
    the successor 30 has a right child: the cells of 30 and of 40 both
    leave the tree, still linked to each other. *)
Theorem TreeNode_erase_two_children_keeps_node :
  cells_after (TreeNode_erase 3 1) heap3 [1; 2; 3]%positive =
    Some (TREE_SUCCESS,
          [Some (mkTreeNode (Some 2%positive) None None 2 20 200);
           Some (leaf_cell (Some 1%positive) 10 100);
           Some (leaf_cell None 30 300)]) /\
  cells_after (TreeNode_erase 3 1) heap4 [1; 2; 3; 4]%positive =
    Some (TREE_SUCCESS,
          [Some (mkTreeNode (Some 2%positive) None None 3 20 200);
           Some (leaf_cell (Some 1%positive) 10 100);
           Some (mkTreeNode None (Some 4%positive) None 2 30 300);
           Some (leaf_cell (Some 3%positive) 40 400)]).
Proof. split; vm_compute; reflexivity. Qed.

(** C2. [TreeNode_erase] runs neither [update_height] nor [rebalance].
    Erasing the leaf 10 of the tree 10, 20 leaves the root, now childless,
    with the cached height 2; erasing the leaf 10 of the balanced tree
    10, 20, 30, 40 leaves a root whose balance factor is -2. *)
Theorem TreeNode_erase_no_rebalance :
  cells_after (TreeNode_erase 3 2) heap2 [1%positive] =
    Some (TREE_SUCCESS, [Some (mkTreeNode None None None 2 20 200)]) /\
  cells_after (bind (TreeNode_erase 3 2) (fun _ => get_balance_factor 1)) heap4
              [1; 3]%positive =
    Some (-2, [Some (mkTreeNode None (Some 3%positive) None 3 20 200);
               Some (mkTreeNode None (Some 4%positive) (Some 1%positive) 2 30 300)]).
Proof. split; vm_compute; reflexivity. Qed.

(** ** Further properties of node.c *)

Section NodeMore.
Context {K V : Type}.
Implicit Types (h : gmap addr (TreeNode K V)) (t l r : @tree K V).
Implicit Types (c : list (@frame K V)) (f : @frame K V).

Lemma keys_plug t c : keys (plug t c) = ctx_before c ++ keys t ++ ctx_after c.
Proof.
  revert t. induction c as [|f c IH]; intros t; simpl.
  - by rewrite app_nil_r.
  - rewrite IH. destruct f; simpl; rewrite keys_Tree.
    + by rewrite <- !app_assoc.
    + rewrite <- !app_assoc. simpl. done.
Qed.

Section Preserves.
Context {X : Type} (proj : TreeNode K V -> X).

Lemma preserves_ret {A} (a : A) : preserves proj (ret a).
Proof. intros h. simpl. done. Qed.

Lemma preserves_fault {A} : preserves proj (fault (A:=A)).
Proof. intros h. simpl. done. Qed.

Lemma preserves_load a : preserves proj (load a).
Proof. intros h. unfold load. by destruct (h !! a). Qed.

Lemma preserves_update a g :
  (forall n, proj (g n) = proj n) -> preserves proj (update a g).
Proof.
  intros Hg h. unfold update. destruct (h !! a) as [n|] eqn:Ha; [|done].
  intros x. destruct (decide (x = a)) as [->|Hne].
  - rewrite lookup_insert_eq, Ha. simpl. by rewrite Hg.
  - by rewrite lookup_insert_ne.
Qed.

Lemma preserves_bind {A B} (m : M _ A) (k : A -> M _ B) :
  preserves proj m -> (forall a, preserves proj (k a)) ->
  preserves proj (bind m k).
Proof.
  intros Hm Hk h. unfold bind. specialize (Hm h).
  destruct (m h) as [a h1| |]; [|done..].
  specialize (Hk a h1). destruct (k a h1) as [b h2| |]; [|done..].
  intros x. by rewrite Hk, Hm.
Qed.

Lemma preserves_get_height p : preserves proj (get_height p).
Proof.
  destruct p as [a|]; simpl; [|apply preserves_ret].
  apply preserves_bind; [apply preserves_load|]. intros n. apply preserves_ret.
Qed.
End Preserves.

Ltac preserves_step IH :=
  repeat first
    [ IH | apply preserves_ret | apply preserves_fault | apply preserves_load
    | apply preserves_get_height
    | apply preserves_update; done
    | apply preserves_bind
    | match goal with |- forall _, _ => intro end
    | match goal with |- preserves _ (if ?x then _ else _) => destruct x end
    | match goal with |- preserves _ (match ?x with _ => _ end) => destruct x end ].

Lemma update_height_keeps_kv fuel :
  forall a, preserves (key_value (K:=K) (V:=V)) (update_height fuel a).
Proof.
  induction fuel as [|fuel IH]; intros a; [by intros h|].
  simpl. preserves_step ltac:(apply IH).
Qed.

Lemma retarget_parent_keeps_kv a x :
  preserves (key_value (K:=K) (V:=V)) (retarget_parent a x).
Proof. unfold retarget_parent. preserves_step fail. Qed.

Lemma rotate_right_keeps_kv fuel a :
  preserves (key_value (K:=K) (V:=V)) (rotate_right fuel a).
Proof.
  unfold rotate_right.
  preserves_step ltac:(first [apply update_height_keeps_kv | apply retarget_parent_keeps_kv]).
Qed.

Lemma rotate_left_keeps_kv fuel a :
  preserves (key_value (K:=K) (V:=V)) (rotate_left fuel a).
Proof.
  unfold rotate_left.
  preserves_step ltac:(first [apply update_height_keeps_kv | apply retarget_parent_keeps_kv]).
Qed.

Lemma get_balance_factor_keeps_kv a :
  preserves (key_value (K:=K) (V:=V)) (get_balance_factor a).
Proof. unfold get_balance_factor. preserves_step fail. Qed.

Lemma rebalance_keeps_kv fuel :
  forall a, preserves (key_value (K:=K) (V:=V)) (rebalance fuel a).
Proof.
  induction fuel as [|fuel IH]; intros a; [by intros h|].
  rewrite rebalance_unfold.
  preserves_step ltac:(first [apply IH | apply get_balance_factor_keeps_kv
                             | apply rotate_right_keeps_kv | apply rotate_left_keeps_kv]).
Qed.

Lemma do_insert_keeps_kv cmp fuel n :
  forall a, preserves (key_value (K:=K) (V:=V)) (do_insert cmp fuel a n).
Proof.
  induction fuel as [|fuel IH]; intros a; [by intros h|].
  rewrite do_insert_unfold. cbv zeta.
  preserves_step ltac:(apply IH).
Qed.

(** X2. [TreeNode_insert] writes links and cached heights only: whatever
    the tree, the node and the outcome of the comparisons, no cell's key
    or value is different afterwards. *)
Theorem TreeNode_insert_keeps_keys_and_values cmp fuel (a n : addr) :
  preserves (key_value (K:=K) (V:=V)) (TreeNode_insert cmp fuel a n).
Proof.
  unfold TreeNode_insert.
  preserves_step ltac:(first [apply do_insert_keeps_kv | apply update_height_keeps_kv
                             | apply rebalance_keeps_kv]).
Qed.

Lemma heights_ok_plug t c :
  heights_ok (plug t c) <->
  heights_ok t /\ ctx_hts (cached_height t) c /\
  Forall (fun f => heights_ok (frame_sib f)) c.
Proof.
  revert t. induction c as [|f c IH]; intros t; simpl.
  - split; [intros ?; split_and!; [done|done|constructor]|tauto].
  - rewrite IH, Forall_cons.
    destruct f; simpl; split; intros H; destruct_and?; split_and!;
      try done; try lia;
      match goal with
      | H : ctx_hts ?x c |- ctx_hts ?y c => replace y with x by lia; exact H
      end.
Qed.

Lemma Forall_sib_uh x c :
  Forall (fun f => heights_ok (frame_sib f)) (uh_ctx x c) <->
  Forall (fun f => heights_ok (frame_sib f)) c.
Proof.
  revert x. induction c as [|f c IH]; intros x; simpl; [done|].
  rewrite !Forall_cons, frame_sib_set_ht, IH. done.
Qed.

Lemma uh_ctx_id x c : ctx_hts x c -> uh_ctx x c = c.
Proof.
  revert x. induction c as [|f c IH]; intros x; simpl; [done|].
  intros (Hf & Hc). rewrite <- Hf, frame_set_ht_id, IH by done. done.
Qed.

Lemma update_height_keeps_skeleton fuel :
  forall a, preserves (skeleton (K:=K) (V:=V)) (update_height fuel a).
Proof.
  induction fuel as [|fuel IH]; intros a; [by intros h|].
  simpl. preserves_step ltac:(apply IH).
Qed.

(** X3. [update_height] from a node whose subtrees and whose ancestors'
    other subtrees have right cached heights: afterwards every cached
    height of the tree is right, whatever the node and its ancestors held
    before; links, keys and values are as they were. *)
Theorem update_height_restores_heights h a l k v ht r c fuel :
  zip_at h (Tree a l k v ht r) c ->
  heights_ok l -> heights_ok r ->
  Forall (fun f => heights_ok (frame_sib f)) c ->
  (length c < fuel)%nat ->
  exists h' t',
    update_height fuel a h = Done tt h' /\
    whole_at h' t' /\ heights_ok t' /\
    entries t' = entries (plug (Tree a l k v ht r) c) /\
    (forall x, skeleton <$> (h' !! x) = skeleton <$> (h !! x)) /\
    (forall x, x ∉ dom_tree (plug (Tree a l k v ht r) c) -> h' !! x = h !! x).
Proof.
  intros Hz Hl Hr Hsib Hfuel.
  destruct (update_height_spec c h a l k v ht r fuel Hz Hfuel) as (h' & Hrun & Hz' & Hfr).
  eexists h', _. split; [exact Hrun|].
  split; [apply zip_at_whole; exact Hz'|]. split; [|split; [|split]].
  - apply heights_ok_plug. split; [simpl; done|]. split; [apply ctx_hts_uh|].
    by apply Forall_sib_uh.
  - rewrite entries_plug_uh. by apply entries_plug.
  - pose proof (update_height_keeps_skeleton fuel a h) as Ho. by rewrite Hrun in Ho.
  - intros x Hx. apply Hfr. rewrite dom_plug in Hx. exact Hx.
Qed.

(** X4. [rotate_right] at a node with a left child returns that child;
    the child has taken the node's place in the tree and the node is its
    right child, with the child's old right subtree as its left one.  The
    in-order entries are the same, and cached heights that were right are
    right again. *)
Theorem rotate_right_keeps_order h a b ll kb vb hb lr k v ht r c fuel :
  zip_at h (Tree a (Tree b ll kb vb hb lr) k v ht r) c ->
  (length c + 1 < fuel)%nat ->
  exists h' ha' hb',
    rotate_right fuel a h = Done b h' /\
    whole_at h' (plug (Tree b ll kb vb hb' (Tree a lr k v ha' r)) (uh_ctx hb' c)) /\
    entries (plug (Tree b ll kb vb hb' (Tree a lr k v ha' r)) (uh_ctx hb' c))
      = entries (plug (Tree a (Tree b ll kb vb hb lr) k v ht r) c) /\
    (heights_ok (plug (Tree a (Tree b ll kb vb hb lr) k v ht r) c) ->
     heights_ok (plug (Tree b ll kb vb hb' (Tree a lr k v ha' r)) (uh_ctx hb' c))) /\
    (forall x, x ∉ dom_tree (plug (Tree a (Tree b ll kb vb hb lr) k v ht r) c) ->
               h' !! x = h !! x).
Proof.
  intros Hz Hfuel.
  destruct (rotate_right_spec h fuel a b ll kb vb hb lr k v ht r c Hz Hfuel)
    as (h' & Hrun & Hz' & Hfr).
  eexists h', _, _. split; [exact Hrun|].
  split; [apply zip_at_whole; exact Hz'|]. split; [|split].
  - rewrite entries_plug_uh. apply entries_plug. simpl. by rewrite <- ?app_assoc.
  - intros Hok. apply heights_ok_plug in Hok.
    destruct Hok as ((( Hll & Hlr & _ ) & Hr & _) & _ & Hsib).
    apply heights_ok_plug. split; [simpl; done|]. split; [apply ctx_hts_uh|].
    by apply Forall_sib_uh.
  - intros x Hx. apply Hfr. rewrite dom_plug in Hx. exact Hx.
Qed.

(** X5. [rotate_left], the mirror image: the right child takes the node's
    place, the node becomes its left child; same entries in order, and
    right cached heights stay right. *)
Theorem rotate_left_keeps_order h a b rl kb vb hb rr k v ht l c fuel :
  zip_at h (Tree a l k v ht (Tree b rl kb vb hb rr)) c ->
  (length c + 1 < fuel)%nat ->
  exists h' ha' hb',
    rotate_left fuel a h = Done b h' /\
    whole_at h' (plug (Tree b (Tree a l k v ha' rl) kb vb hb' rr) (uh_ctx hb' c)) /\
    entries (plug (Tree b (Tree a l k v ha' rl) kb vb hb' rr) (uh_ctx hb' c))
      = entries (plug (Tree a l k v ht (Tree b rl kb vb hb rr)) c) /\
    (heights_ok (plug (Tree a l k v ht (Tree b rl kb vb hb rr)) c) ->
     heights_ok (plug (Tree b (Tree a l k v ha' rl) kb vb hb' rr) (uh_ctx hb' c))) /\
    (forall x, x ∉ dom_tree (plug (Tree a l k v ht (Tree b rl kb vb hb rr)) c) ->
               h' !! x = h !! x).
Proof.
  intros Hz Hfuel.
  destruct (rotate_left_spec h fuel a b rl kb vb hb rr k v ht l c Hz Hfuel)
    as (h' & Hrun & Hz' & Hfr).
  eexists h', _, _. split; [exact Hrun|].
  split; [apply zip_at_whole; exact Hz'|]. split; [|split].
  - rewrite entries_plug_uh. apply entries_plug. simpl. by rewrite <- ?app_assoc.
  - intros Hok. apply heights_ok_plug in Hok.
    destruct Hok as ((Hl & (Hrl & Hrr & _) & _) & _ & Hsib).
    apply heights_ok_plug. split; [simpl; done|]. split; [apply ctx_hts_uh|].
    by apply Forall_sib_uh.
  - intros x Hx. apply Hfr. rewrite dom_plug in Hx. exact Hx.
Qed.

Lemma tree_at_lookup_eq h h' par t :
  tree_at h par t -> tree_at h' par t ->
  forall x, x ∈ dom_tree t -> h' !! x = h !! x.
Proof.
  revert par. induction t as [|a l IHl k v ht r IHr]; intros par; simpl.
  - intros _ _ x Hx. by apply not_elem_of_empty in Hx.
  - intros (Ha & Hl & Hr) (Ha' & Hl' & Hr') x Hx.
    apply elem_of_union in Hx as [Hx|Hx]; [apply elem_of_union in Hx as [Hx|Hx]|].
    + apply elem_of_singleton in Hx as ->. by rewrite Ha, Ha'.
    + by apply (IHl (Some a)).
    + by apply (IHr (Some a)).
Qed.

Lemma whole_at_heap_eq h h' t :
  whole_at h t -> whole_at h' t ->
  (forall x, x ∉ dom_tree t -> h' !! x = h !! x) -> h' = h.
Proof.
  intros (Ht & _) (Ht' & _) Hfr. apply map_eq. intros x.
  destruct (decide (x ∈ dom_tree t)) as [Hx|Hx].
  - by apply (tree_at_lookup_eq h h' None t).
  - by apply Hfr.
Qed.

(** X6. [rotate_right] at a node, then [rotate_left] at the node it
    returns, on a tree with right cached heights: the second call returns
    the first node, and the memory is what it was. *)
Theorem rotate_left_undoes_rotate_right h a b ll kb vb hb lr k v ht r c fuel :
  zip_at h (Tree a (Tree b ll kb vb hb lr) k v ht r) c ->
  heights_ok (plug (Tree a (Tree b ll kb vb hb lr) k v ht r) c) ->
  (length c + 1 < fuel)%nat ->
  bind (rotate_right fuel a) (fun b' => rotate_left fuel b') h = Done a h.
Proof.
  intros Hz Hok Hfuel.
  destruct (rotate_right_spec h fuel a b ll kb vb hb lr k v ht r c Hz Hfuel)
    as (h1 & Hrun1 & Hz1 & Hfr1).
  destruct (rotate_left_spec h1 fuel b a _ _ _ _ _ _ _ _ _ _ Hz1
              ltac:(rewrite length_uh_ctx; lia))
    as (h2 & Hrun2 & Hz2 & Hfr2).
  erewrite bind_Done by exact Hrun1. rewrite Hrun2. f_equal.
  apply heights_ok_plug in Hok.
  destruct Hok as (((Hll & Hlr & Hhb) & Hr & Hht) & Hch & Hsib).
  simpl in Hch, Hhb, Hht.
  rewrite uh_ctx_twice in Hz2.
  rewrite <- Hhb, <- Hht in Hz2. rewrite (uh_ctx_id _ _ Hch) in Hz2.
  apply (whole_at_heap_eq h h2 (plug (Tree a (Tree b ll kb vb hb lr) k v ht r) c)).
  - by apply zip_at_whole.
  - by apply zip_at_whole.
  - intros x Hx. rewrite dom_plug in Hx.
    rewrite Hfr2, Hfr1; [done|exact Hx|].
    rewrite dom_ctx_uh. simpl in *. set_solver.
Qed.

Lemma plug1_is_Tree f t :
  exists l k v ht r, plug1 f t = Tree (frame_addr f) l k v ht r.
Proof. destruct f; simpl; eauto 10. Qed.

(** On a tree whose cached heights are right, [update_height] writes at
    every node the height that is there. *)
Lemma update_height_noop c : forall h a l k v ht r fuel,
  zip_at h (Tree a l k v ht r) c ->
  avl (plug (Tree a l k v ht r) c) ->
  (length c < fuel)%nat ->
  update_height fuel a h = Done tt h.
Proof.
  induction c as [|f c IH]; intros h a l k v ht r fuel Hz Havl Hfuel;
    (destruct fuel as [|fuel]; [simpl in Hfuel; lia|]);
    pose proof Hz as ((Ha & Hl & Hr) & _);
    pose proof Havl as Havl0;
    apply avl_plug in Havl0; destruct Havl0 as (((_ & _ & Hht) & _) & _);
    cbn [update_height];
    erewrite bind_load by exact Ha; fields;
    erewrite bind_get_height by exact Hl;
    erewrite bind_get_height by exact Hr.
  - assert (Hid : forall z, z = ht ->
      <[a := set_height z (mkTreeNode (root_of l) (root_of r) None ht k v)]> h = h)
      by (intros z ->; apply insert_id; exact Ha).
    destruct (Z.ltb_spec (cached_height r) (cached_height l)).
    + erewrite bind_update by exact Ha. rewrite Hid by lia.
      erewrite bind_load by exact Ha. reflexivity.
    + erewrite bind_update by exact Ha. rewrite Hid by lia.
      erewrite bind_load by exact Ha. reflexivity.
  - assert (Hid : forall z, z = ht ->
      <[a := set_height z (mkTreeNode (root_of l) (root_of r) (Some (frame_addr f)) ht k v)]> h = h)
      by (intros z ->; apply insert_id; exact Ha).
    apply zip_at_up in Hz. simpl in Havl, Hfuel.
    destruct (plug1_is_Tree f (Tree a l k v ht r)) as (l' & k' & v' & ht' & r' & Hp).
    rewrite Hp in Hz, Havl.
    destruct (Z.ltb_spec (cached_height r) (cached_height l)).
    + erewrite bind_update by exact Ha. rewrite Hid by lia.
      erewrite bind_load by exact Ha. fields.
      eapply IH; [exact Hz|exact Havl|lia].
    + erewrite bind_update by exact Ha. rewrite Hid by lia.
      erewrite bind_load by exact Ha. fields.
      eapply IH; [exact Hz|exact Havl|lia].
Qed.

(** On a tree that satisfies both invariants, [rebalance] finds every
    balance factor on its way within bounds and writes nothing. *)
Lemma rebalance_noop c : forall h a l k v ht r fuel,
  zip_at h (Tree a l k v ht r) c ->
  avl (plug (Tree a l k v ht r) c) ->
  (length c < fuel)%nat ->
  rebalance fuel a h = Done tt h.
Proof.
  induction c as [|f c IH]; intros h a l k v ht r fuel Hz Havl Hfuel;
    (destruct fuel as [|fuel]; [simpl in Hfuel; lia|]);
    pose proof Hz as (Ht & _); pose proof Ht as (Ha & _);
    pose proof Havl as Havl0;
    apply avl_plug in Havl0; destruct Havl0 as ((_ & (_ & _ & Hbal)) & _);
    rewrite rebalance_unfold;
    erewrite bind_Done by (eapply get_balance_factor_at; exact Ht);
    replace (1 <? cached_height l - cached_height r) with false
      by (symmetry; apply Z.ltb_ge; lia);
    replace (cached_height l - cached_height r <? -1) with false
      by (symmetry; apply Z.ltb_ge; lia);
    rewrite bind_ret;
    erewrite bind_load by exact Ha; fields.
  - reflexivity.
  - apply zip_at_up in Hz. simpl in Havl, Hfuel.
    destruct (plug1_is_Tree f (Tree a l k v ht r)) as (l' & k' & v' & ht' & r' & Hp).
    rewrite Hp in Hz, Havl.
    eapply IH; [exact Hz|exact Havl|lia].
Qed.

(** X7. The fix-up [TreeNode_insert] runs after linking the new node,
    [update_height] and then [rebalance], from any node of a tree that
    satisfies both invariants: nothing is rotated and the memory is what
    it was. *)
Theorem fixup_on_avl_tree_writes_nothing h a l k v ht r c fuel :
  zip_at h (Tree a l k v ht r) c ->
  avl (plug (Tree a l k v ht r) c) ->
  (length c < fuel)%nat ->
  (let* _ := update_height fuel a in rebalance fuel a) h = Done tt h.
Proof.
  intros Hz Havl Hfuel.
  erewrite bind_Done by (eapply update_height_noop; eauto).
  eapply rebalance_noop; eauto.
Qed.

Lemma erase_leaf h a k v ht c fuel :
  zip_at h (Tree a Empty k v ht Empty) c ->
  exists h',
    TreeNode_erase fuel a h = Done TREE_SUCCESS h' /\
    zip_at h' Empty c /\
    h' !! a = Some (mkTreeNode None None None ht k v) /\
    (forall x, x ∉ {[a]} ∪ dom_ctx c -> h' !! x = h !! x).
Proof.
  intros ((Ha & _ & _) & Hc & _ & Hdc & Hdd). simpl in *.
  unfold TreeNode_erase. erewrite bind_load by exact Ha. fields.
  unfold remove_parent.
  destruct (retarget_parent_spec h a _ None c Ha eq_refl Hc Hdc ltac:(set_solver))
    as (h1 & Hrun1 & Hc1 & Hfr1).
  rewrite !bind_bind. erewrite bind_Done by exact Hrun1.
  assert (Ha1 : h1 !! a = h !! a).
  { apply Hfr1. intros Hy. apply ctx_ptr_in_dom in Hy. set_solver. }
  erewrite bind_update by (rewrite Ha1; exact Ha).
  unfold set_parent; simpl.
  eexists; split; [reflexivity|]. split; [|split].
  - split; [done|]. split; [|split; [done|split; [done|simpl; set_solver]]].
    simpl. eapply ctx_at_agree; [|exact Hc1]. intros y Hy.
    rewrite lookup_insert_ne; [done|set_solver].
  - by rewrite lookup_insert_eq.
  - intros x Hx. rewrite lookup_insert_ne by set_solver.
    apply Hfr1. intros Hy. apply ctx_ptr_in_dom in Hy. set_solver.
Qed.

Lemma erase_left_child h a b ll kb vb hb lr k v ht c fuel :
  zip_at h (Tree a (Tree b ll kb vb hb lr) k v ht Empty) c ->
  exists h',
    TreeNode_erase fuel a h = Done TREE_SUCCESS h' /\
    zip_at h' (Tree b ll kb vb hb lr) c /\
    h' !! a = Some (mkTreeNode None None None ht k v) /\
    (forall x, x ∉ dom_tree (Tree a (Tree b ll kb vb hb lr) k v ht Empty) ∪ dom_ctx c ->
               h' !! x = h !! x).
Proof.
  intros ((Ha & (Hb & Hll & Hlr) & _) & Hc & Hd & Hdc & Hdd). simpl in *.
  destruct Hd as (Hd1 & _ & _ & (Hd4 & Hd5 & Hd6 & Hd7 & Hd8) & _).
  assert (Hab : a <> b) by set_solver.
  unfold TreeNode_erase. erewrite bind_load by exact Ha. fields.
  unfold replace_left. rewrite !bind_bind. erewrite bind_load by exact Ha. fields.
  destruct (retarget_parent_spec h a _ (Some b) c Ha eq_refl Hc Hdc ltac:(set_solver))
    as (h1 & Hrun1 & Hc1 & Hfr1).
  rewrite !bind_bind. erewrite bind_Done by exact Hrun1.
  assert (Hout : forall y, y ∉ dom_ctx c -> h1 !! y = h !! y).
  { intros y Hy. apply Hfr1. intros Hy'. apply ctx_ptr_in_dom in Hy'. done. }
  rewrite ?bind_bind. erewrite bind_load by (rewrite Hout by set_solver; exact Ha). fields.
  rewrite ?bind_bind.
  erewrite bind_update by (rewrite Hout by set_solver; exact Hb).
  rewrite ?bind_bind.
  erewrite bind_update by (rewrite lookup_insert_ne by done; rewrite Hout by set_solver; exact Ha).
  rewrite ?bind_bind.
  erewrite bind_update by (rewrite lookup_insert_eq; reflexivity).
  unfold set_parent, set_left; simpl.
  eexists; split; [reflexivity|]. split; [|split].
  - split; [|split; [|split; [|split]]].
    + simpl. split; [|split].
      * rewrite !lookup_insert_ne by done. by rewrite lookup_insert_eq.
      * eapply tree_at_agree; [|exact Hll]. intros y Hy.
        rewrite !lookup_insert_ne by set_solver. apply Hout. set_solver.
      * eapply tree_at_agree; [|exact Hlr]. intros y Hy.
        rewrite !lookup_insert_ne by set_solver. apply Hout. set_solver.
    + simpl. eapply ctx_at_agree; [|exact Hc1]. intros y Hy.
      rewrite !lookup_insert_ne by set_solver. done.
    + simpl. done.
    + done.
    + simpl. set_solver.
  - by rewrite lookup_insert_eq.
  - intros x Hx. rewrite !lookup_insert_ne by set_solver.
    apply Hfr1. intros Hy. apply ctx_ptr_in_dom in Hy. set_solver.
Qed.

Lemma erase_right_child h a b rl kb vb hb rr k v ht c fuel :
  zip_at h (Tree a Empty k v ht (Tree b rl kb vb hb rr)) c ->
  exists h',
    TreeNode_erase fuel a h = Done TREE_SUCCESS h' /\
    zip_at h' (Tree b rl kb vb hb rr) c /\
    h' !! a = Some (mkTreeNode None None None ht k v) /\
    (forall x, x ∉ dom_tree (Tree a Empty k v ht (Tree b rl kb vb hb rr)) ∪ dom_ctx c ->
               h' !! x = h !! x).
Proof.
  intros ((Ha & _ & (Hb & Hrl & Hrr)) & Hc & Hd & Hdc & Hdd). simpl in *.
  destruct Hd as (_ & Hd1 & _ & _ & (Hd4 & Hd5 & Hd6 & Hd7 & Hd8)).
  assert (Hab : a <> b) by set_solver.
  unfold TreeNode_erase. erewrite bind_load by exact Ha. fields.
  unfold replace_right. rewrite !bind_bind. erewrite bind_load by exact Ha. fields.
  destruct (retarget_parent_spec h a _ (Some b) c Ha eq_refl Hc Hdc ltac:(set_solver))
    as (h1 & Hrun1 & Hc1 & Hfr1).
  rewrite !bind_bind. erewrite bind_Done by exact Hrun1.
  assert (Hout : forall y, y ∉ dom_ctx c -> h1 !! y = h !! y).
  { intros y Hy. apply Hfr1. intros Hy'. apply ctx_ptr_in_dom in Hy'. done. }
  rewrite ?bind_bind. erewrite bind_load by (rewrite Hout by set_solver; exact Ha). fields.
  rewrite ?bind_bind.
  erewrite bind_update by (rewrite Hout by set_solver; exact Hb).
  rewrite ?bind_bind.
  erewrite bind_update by (rewrite lookup_insert_ne by done; rewrite Hout by set_solver; exact Ha).
  rewrite ?bind_bind.
  erewrite bind_update by (rewrite lookup_insert_eq; reflexivity).
  unfold set_parent, set_right; simpl.
  eexists; split; [reflexivity|]. split; [|split].
  - split; [|split; [|split; [|split]]].
    + simpl. split; [|split].
      * rewrite !lookup_insert_ne by done. by rewrite lookup_insert_eq.
      * eapply tree_at_agree; [|exact Hrl]. intros y Hy.
        rewrite !lookup_insert_ne by set_solver. apply Hout. set_solver.
      * eapply tree_at_agree; [|exact Hrr]. intros y Hy.
        rewrite !lookup_insert_ne by set_solver. apply Hout. set_solver.
    + simpl. eapply ctx_at_agree; [|exact Hc1]. intros y Hy.
      rewrite !lookup_insert_ne by set_solver. done.
    + simpl. done.
    + done.
    + simpl. set_solver.
  - by rewrite lookup_insert_eq.
  - intros x Hx. rewrite !lookup_insert_ne by set_solver.
    apply Hfr1. intros Hy. apply ctx_ptr_in_dom in Hy. set_solver.
Qed.

(** X8. [TreeNode_erase] of a node with at most one child: the child, if
    any, takes the node's place; the node's cell is left without links,
    with its key, value and cached height; the in-order entries are the
    old ones without the node's pair. *)
Theorem TreeNode_erase_splices h a l k v ht r c fuel :
  zip_at h (Tree a l k v ht r) c ->
  l = Empty \/ r = Empty ->
  exists h',
    TreeNode_erase fuel a h = Done TREE_SUCCESS h' /\
    whole_at h' (plug (only_child l r) c) /\
    h' !! a = Some (mkTreeNode None None None ht k v) /\
    (exists e1 e2,
       entries (plug (only_child l r) c) = e1 ++ e2 /\
       entries (plug (Tree a l k v ht r) c) = e1 ++ (k, v) :: e2) /\
    (forall x, x ∉ dom_tree (plug (Tree a l k v ht r) c) -> h' !! x = h !! x).
Proof.
  intros Hz Hone.
  assert (Hent : exists e1 e2,
             entries (only_child l r) = e1 ++ e2 /\
             entries (Tree a l k v ht r) = e1 ++ (k, v) :: e2).
  { destruct Hone as [->| ->].
    - exists [], (entries r). done.
    - exists (entries l), []. simpl. rewrite app_nil_r.
      destruct l; done. }
  apply (entries_plug_insert (k, v) c) in Hent.
  destruct l as [|b ll kb vb hb lr].
  - destruct r as [|b rl kb vb hb rr].
    + destruct (erase_leaf h a k v ht c fuel Hz) as (h' & Hrun & Hz' & Ha' & Hfr).
      exists h'. split; [done|]. split; [by apply zip_at_whole|]. split; [done|].
      split; [done|]. intros x Hx. apply Hfr. rewrite dom_plug in Hx. simpl in Hx. set_solver.
    + destruct (erase_right_child h a b rl kb vb hb rr k v ht c fuel Hz)
        as (h' & Hrun & Hz' & Ha' & Hfr).
      exists h'. split; [done|]. split; [by apply zip_at_whole|]. split; [done|].
      split; [done|]. intros x Hx. apply Hfr. by rewrite dom_plug in Hx.
  - destruct Hone as [?| ->]; [discriminate|].
    destruct (erase_left_child h a b ll kb vb hb lr k v ht c fuel Hz)
      as (h' & Hrun & Hz' & Ha' & Hfr).
    exists h'. split; [done|]. split; [by apply zip_at_whole|]. split; [done|].
    split; [done|]. intros x Hx. apply Hfr. by rewrite dom_plug in Hx.
Qed.


Lemma leftmost_first t : forall h par fuel a,
  root_of t = Some a -> tree_at h par t -> (depth t <= fuel)%nat ->
  exists s ns e,
    leftmost fuel a h = Done s h /\
    s ∈ dom_tree t /\ h !! s = Some ns /\ left ns = None /\
    entries t = (key ns, value ns) :: e.
Proof.
  induction t as [|a' l IHl k v ht r _]; intros h par fuel a Hroot Ht Hfuel;
    [discriminate|].
  injection Hroot as ->. destruct Ht as (Ha & Hl & Hr).
  destruct fuel as [|fuel]; [simpl in Hfuel; lia|]. cbn [depth] in Hfuel.
  simpl leftmost. erewrite bind_load by exact Ha. fields.
  destruct l as [|b ll kb vb hb lr].
  - simpl. eexists a, _, _. split; [reflexivity|]. split; [set_solver|].
    split; [exact Ha|]. done.
  - fields.
    destruct (IHl h (Some a) fuel b eq_refl Hl ltac:(lia))
      as (s & ns & e & Hrun & Hs & Hns & Hleft & Hent).
    exists s, ns, (e ++ (k, v) :: entries r).
    split; [exact Hrun|]. split; [set_solver|]. split; [done|]. split; [done|].
    change (entries (Tree a (Tree b ll kb vb hb lr) k v ht r))
      with (entries (Tree b ll kb vb hb lr) ++ (k, v) :: entries r).
    rewrite Hent. done.
Qed.

(** X9. [inorder_successor] of a node with a right child reads only, and
    returns the node of the right subtree without a left child whose
    pair comes right after the node's own in order. *)
Theorem inorder_successor_is_next h par a l k v ht r fuel :
  tree_at h par (Tree a l k v ht r) -> r <> Empty ->
  (depth r <= fuel)%nat ->
  exists s ns e,
    inorder_successor fuel a h = Done s h /\
    s ∈ dom_tree r /\ h !! s = Some ns /\ left ns = None /\
    entries (Tree a l k v ht r)
      = entries l ++ (k, v) :: (key ns, value ns) :: e.
Proof.
  intros (Ha & Hl & Hr) Hne Hfuel.
  destruct r as [|b rl kb vb hb rr]; [done|].
  unfold inorder_successor. erewrite bind_load by exact Ha. fields.
  destruct (leftmost_first (Tree b rl kb vb hb rr) h (Some a) fuel b eq_refl Hr Hfuel)
    as (s & ns & e & Hrun & Hs & Hns & Hleft & Hent).
  exists s, ns, e. split; [exact Hrun|]. split; [done|]. split; [done|].
  split; [done|].
  change (entries (Tree a l k v ht (Tree b rl kb vb hb rr)))
    with (entries l ++ (k, v) :: entries (Tree b rl kb vb hb rr)).
  by rewrite Hent.
Qed.

Lemma destroy_unfold nk nv fuel (self : addr) :
  TreeNode_destroy (K:=K) (V:=V) nk nv (S fuel) self =
  bind (load self) (fun n =>
  bind (match left n with
        | Some l =>
            bind (TreeNode_destroy nk nv fuel l) (fun _ =>
            update self (set_left None))
        | None => ret tt
        end) (fun _ =>
  bind (load self) (fun n =>
  bind (match right n with
        | Some r =>
            bind (TreeNode_destroy nk nv fuel r) (fun _ =>
            update self (set_right None))
        | None => ret tt
        end) (fun _ =>
  bind (update self (set_parent None)) (fun _ =>
  bind (update self (set_key nk)) (fun _ =>
  bind (update self (set_value nv)) (fun _ =>
  bind (update self (set_height 1)) (fun _ =>
  ret TREE_SUCCESS)))))))).
Proof. reflexivity. Qed.

(** X10. [TreeNode_destroy] on the root of a subtree leaves every cell of
    the subtree without links, with null key and value and height 1, and
    no other cell changed. *)
Theorem TreeNode_destroy_blanks nk nv t : forall h par fuel a,
  root_of t = Some a -> tree_at h par t -> distinct t ->
  (depth t <= fuel)%nat ->
  exists h',
    TreeNode_destroy nk nv fuel a h = Done TREE_SUCCESS h' /\
    (forall x, x ∈ dom_tree t ->
               h' !! x = Some (mkTreeNode None None None 1 nk nv)) /\
    (forall x, x ∉ dom_tree t -> h' !! x = h !! x).
Proof.
  induction t as [|a' l IHl k v ht r IHr]; intros h par fuel a Hroot Ht Hd Hfuel;
    [discriminate|].
  injection Hroot as ->. destruct Ht as (Ha & Hl & Hr).
  destruct Hd as (Hd1 & Hd2 & Hd3 & Hd4 & Hd5).
  destruct fuel as [|fuel]; [simpl in Hfuel; lia|]. cbn [depth] in Hfuel.
  rewrite destroy_unfold. erewrite bind_load by exact Ha. fields.
  (* the left subtree *)
  assert (exists h1 n1,
    (match root_of l with
     | Some l0 => bind (TreeNode_destroy nk nv fuel l0) (fun _ => update a (set_left None))
     | None => ret tt
     end) h = Done tt h1 /\
    h1 !! a = Some n1 /\ right n1 = root_of r /\ left n1 = None /\
    (forall x, x ∈ dom_tree l -> h1 !! x = Some (mkTreeNode None None None 1 nk nv)) /\
    (forall x, x ∉ {[a]} ∪ dom_tree l -> h1 !! x = h !! x)) as (h1 & n1 & Hrun1 & Ha1 & Hr1 & Hl1 & Hin1 & Hout1).
  { destruct l as [|b ll kb vb hb lr].
    - exists h. eexists. split; [reflexivity|]. split; [exact Ha|]. split; [done|].
      split; [done|]. split; [|done]. intros x Hx. by apply not_elem_of_empty in Hx.
    - fields.
      destruct (IHl h (Some a) fuel b eq_refl Hl Hd4 ltac:(lia)) as (h1 & Hrun & Hin & Hout).
      erewrite bind_Done by exact Hrun.
      unfold update. rewrite Hout by done. rewrite Ha.
      eexists _, _. split; [reflexivity|]. split; [apply lookup_insert_eq|]. split; [done|].
      split; [done|]. split.
      + intros x Hx. rewrite lookup_insert_ne by set_solver. by apply Hin.
      + intros x Hx. rewrite lookup_insert_ne by set_solver. apply Hout. set_solver. }
  erewrite bind_Done by exact Hrun1.
  erewrite bind_load by exact Ha1. rewrite Hr1.
  assert (Hr' : tree_at h1 (Some a) r).
  { eapply tree_at_agree; [|exact Hr]. intros y Hy. apply Hout1. set_solver. }
  assert (exists h2 n2,
    (match root_of r with
     | Some r0 => bind (TreeNode_destroy nk nv fuel r0) (fun _ => update a (set_right None))
     | None => ret tt
     end) h1 = Done tt h2 /\
    h2 !! a = Some n2 /\ left n2 = None /\ right n2 = None /\
    (forall x, x ∈ dom_tree r -> h2 !! x = Some (mkTreeNode None None None 1 nk nv)) /\
    (forall x, x ∉ {[a]} ∪ dom_tree r -> h2 !! x = h1 !! x)) as (h2 & n2 & Hrun2 & Ha2 & Hl2 & Hr2 & Hin2 & Hout2).
  { destruct r as [|b rl kb vb hb rr].
    - exists h1. eexists. split; [reflexivity|]. split; [exact Ha1|].
      split; [done|]. split; [done|]. split; [|done]. intros x Hx. by apply not_elem_of_empty in Hx.
    - fields.
      destruct (IHr h1 (Some a) fuel b eq_refl Hr' Hd5 ltac:(lia)) as (h2 & Hrun & Hin & Hout).
      erewrite bind_Done by exact Hrun.
      unfold update. rewrite Hout by done. rewrite Ha1.
      eexists _, _. split; [reflexivity|]. split; [apply lookup_insert_eq|].
      split; [done|]. split; [done|]. split.
      + intros x Hx. rewrite lookup_insert_ne by set_solver. by apply Hin.
      + intros x Hx. rewrite lookup_insert_ne by set_solver. apply Hout. set_solver. }
  erewrite bind_Done by exact Hrun2.
  erewrite bind_update by exact Ha2.
  erewrite bind_update by apply lookup_insert_eq.
  erewrite bind_update by apply lookup_insert_eq.
  erewrite bind_update by apply lookup_insert_eq.
  rewrite !insert_insert_eq.
  eexists; split; [reflexivity|]. split.
  - intros x Hx. simpl in Hx.
    destruct (decide (x = a)) as [->|Hne].
    + rewrite lookup_insert_eq. unfold set_height, set_value, set_key, set_parent; simpl.
      by rewrite Hl2, Hr2.
    + rewrite lookup_insert_ne by done.
      destruct (decide (x ∈ dom_tree r)) as [Hxr|Hxr]; [by apply Hin2|].
      rewrite Hout2 by set_solver. apply Hin1. set_solver.
  - intros x Hx. simpl in Hx. rewrite lookup_insert_ne by set_solver.
    rewrite Hout2 by set_solver. apply Hout1. set_solver.
Qed.

Lemma plug_app t c1 c2 : plug t (c1 ++ c2) = plug (plug t c1) c2.
Proof. revert t. induction c1 as [|f c1 IH]; intros t; simpl; [done|apply IH]. Qed.

(** The loop of [inorder_successor] ends at the first node in order; the
    path back to where it started goes up through left links only. *)
Lemma leftmost_zip t : forall h c fuel a,
  root_of t = Some a -> zip_at h t c -> (depth t <= fuel)%nat ->
  exists s ks vs hs sr cl,
    leftmost fuel a h = Done s h /\
    zip_at h (Tree s Empty ks vs hs sr) (cl ++ c) /\
    entries t = (ks, vs) :: entries sr ++ entries (plug Empty cl).
Proof.
  induction t as [|a' l IHl k v ht r _]; intros h c fuel a Hroot Hz Hfuel;
    [discriminate|].
  injection Hroot as ->. pose proof Hz as ((Ha & _) & _).
  destruct fuel as [|fuel]; [simpl in Hfuel; lia|]. cbn [depth] in Hfuel.
  simpl leftmost. erewrite bind_load by exact Ha. fields.
  destruct l as [|b ll kb vb hb lr].
  - simpl. exists a, k, v, ht, r, []. split; [reflexivity|]. split; [exact Hz|].
    simpl. by rewrite app_nil_r.
  - fields.
    apply (zip_at_up h (Tree b ll kb vb hb lr) (InLeft a k v ht r) c) in Hz.
    destruct (IHl h (InLeft a k v ht r :: c) fuel b eq_refl Hz ltac:(lia))
      as (s & ks & vs & hs & sr & cl & Hrun & Hz' & Hent).
    exists s, ks, vs, hs, sr, (cl ++ [InLeft a k v ht r]).
    split; [exact Hrun|]. split; [by rewrite <- app_assoc|].
    change (entries (Tree a (Tree b ll kb vb hb lr) k v ht r))
      with (entries (Tree b ll kb vb hb lr) ++ (k, v) :: entries r).
    rewrite Hent, plug_app. simpl. by rewrite <- app_assoc.
Qed.

(** [remove_parent] cuts the subtree of [self] off: the slot that held it
    is empty, and the subtree is a tree of its own. *)
Lemma remove_parent_spec h a l k v ht r c :
  zip_at h (Tree a l k v ht r) c ->
  exists h',
    remove_parent a h = Done tt h' /\
    zip_at h' Empty c /\
    whole_at h' (Tree a l k v ht r) /\
    (forall x, x <> a -> ctx_ptr c <> Some x -> h' !! x = h !! x).
Proof.
  intros ((Ha & Hl & Hr) & Hc & Hd & Hdc & Hdd). simpl in Hdd.
  unfold remove_parent.
  destruct (retarget_parent_spec h a _ None c Ha eq_refl Hc Hdc ltac:(set_solver))
    as (h1 & Hrun1 & Hc1 & Hfr1).
  erewrite bind_Done by exact Hrun1.
  assert (Ha1 : h1 !! a = h !! a).
  { apply Hfr1. intros Hy. apply ctx_ptr_in_dom in Hy. set_solver. }
  unfold update. rewrite Ha1, Ha. unfold set_parent; simpl.
  eexists; split; [reflexivity|]. split; [|split].
  - split; [done|]. split; [|split; [done|split; [done|simpl; set_solver]]].
    simpl. eapply ctx_at_agree; [|exact Hc1]. intros y Hy.
    rewrite lookup_insert_ne; [done|set_solver].
  - split; [|done]. pose proof Hd as (Hd1 & Hd2 & _).
    simpl. split; [by rewrite lookup_insert_eq|]. split.
    + eapply tree_at_agree; [|exact Hl]. intros y Hy.
      rewrite lookup_insert_ne by set_solver. apply Hfr1.
      intros Hy'. apply ctx_ptr_in_dom in Hy'. set_solver.
    + eapply tree_at_agree; [|exact Hr]. intros y Hy.
      rewrite lookup_insert_ne by set_solver. apply Hfr1.
      intros Hy'. apply ctx_ptr_in_dom in Hy'. set_solver.
  - intros x Hx Hp. rewrite lookup_insert_ne by done. by apply Hfr1.
Qed.

(** X11. [TreeNode_erase] of a node with two children, on any tree: the
    node stays where it is, with its pair; the first node in order of its
    right subtree is cut off together with its own right subtree, and is
    the root of a tree of its own afterwards. *)
Theorem TreeNode_erase_detaches_successor h a l k v ht r c fuel :
  zip_at h (Tree a l k v ht r) c ->
  l <> Empty -> r <> Empty ->
  (depth r <= fuel)%nat ->
  exists h' s ks vs hs sr r',
    TreeNode_erase fuel a h = Done TREE_SUCCESS h' /\
    whole_at h' (plug (Tree a l k v ht r') c) /\
    whole_at h' (Tree s Empty ks vs hs sr) /\
    entries r = (ks, vs) :: entries sr ++ entries r'.
Proof.
  intros Hz Hl Hr Hfuel.
  destruct l as [|b ll kb vb hb lr]; [done|].
  destruct r as [|d rl kd vd hd rr]; [done|].
  pose proof Hz as ((Ha & _) & _).
  apply (zip_at_up h (Tree d rl kd vd hd rr) (InRight a (Tree b ll kb vb hb lr) k v ht) c) in Hz.
  destruct (leftmost_zip (Tree d rl kd vd hd rr) h _ fuel d eq_refl Hz Hfuel)
    as (s & ks & vs & hs & sr & cl & Hrun & Hz' & Hent).
  destruct (remove_parent_spec _ _ _ _ _ _ _ _ Hz') as (h' & Hrun' & Hz'' & Hw & _).
  exists h', s, ks, vs, hs, sr, (plug Empty cl).
  split; [|split; [|split; [done|done]]].
  - unfold TreeNode_erase. erewrite bind_load by exact Ha. fields.
    unfold replace_successor. rewrite !bind_bind. erewrite bind_load by exact Ha. fields.
    unfold inorder_successor. rewrite !bind_bind. erewrite bind_load by exact Ha. fields.
    erewrite bind_Done by exact Hrun. erewrite bind_Done by exact Hrun'. reflexivity.
  - apply zip_at_whole in Hz''. rewrite plug_app in Hz''. exact Hz''.
Qed.

(** [do_insert_attach], with the path taken. *)
Lemma do_insert_path cmp n np hn kn vn t : forall c h fuel a,
  root_of t = Some a ->
  zip_at h t c ->
  h !! n = Some (mkTreeNode None None np hn kn vn) ->
  n ∉ dom_tree t ∪ dom_ctx c ->
  (forall k, k ∈ keys t -> cmp k kn <> 0) ->
  Forall (frame_desc cmp kn) c ->
  (depth t <= fuel)%nat ->
  exists h' c',
    do_insert cmp fuel a n h = Done TREE_SUCCESS h' /\
    plug Empty c' = plug t c /\
    (length c' <= length c + depth t)%nat /\
    zip_at h' (Tree n Empty kn vn hn Empty) c' /\
    Forall (frame_desc cmp kn) c' /\
    (forall y, y ∉ {[n]} ∪ dom_tree t ∪ dom_ctx c -> h' !! y = h !! y).
Proof.
  induction t as [|a' l IHl k v ht r IHr];
    intros c h fuel a Hroot Hz Hn Hfresh Hkeys Hdesc Hfuel; [discriminate|].
  injection Hroot as ->.
  destruct fuel as [|fuel]; [simpl in Hfuel; lia|]. cbn [depth] in Hfuel.
  pose proof Hz as ((Ha & Hl & Hr) & Hc & (Hd1 & Hd2 & Hd3 & Hd4 & Hd5) & Hdc & Hdd).
  simpl in Hfresh, Hdd.
  assert (Hna : n <> a) by set_solver.
  rewrite do_insert_unfold.
  erewrite bind_load by exact Ha. erewrite bind_load by exact Hn. fields. cbv zeta.
  assert (Hk : cmp k kn <> 0).
  { apply Hkeys. rewrite keys_Tree. apply elem_of_app. right. apply elem_of_cons. by left. }
  replace (cmp k kn =? 0) with false by (symmetry; by apply Z.eqb_neq).
  destruct (Z.ltb_spec 0 (cmp k kn)) as [Hgt|Hle].
  - destruct l as [|b ll kb vb hb lr].
    + fields. erewrite bind_update by exact Ha.
      erewrite bind_update by (rewrite lookup_insert_ne by done; exact Hn).
      unfold set_left, set_parent; simpl.
      eexists _, (InLeft a k v ht r :: c). split; [reflexivity|].
      split; [reflexivity|]. split; [simpl; lia|]. split; [|split].
      * split; [|split; [|split; [|split]]].
        -- simpl. split; [|done]. by rewrite lookup_insert_eq.
        -- simpl. split; [|split].
           ++ rewrite lookup_insert_ne by done. by rewrite lookup_insert_eq.
           ++ eapply tree_at_agree; [|exact Hr]. intros y Hy.
              rewrite !lookup_insert_ne by set_solver. done.
           ++ eapply ctx_at_agree; [|exact Hc]. intros y Hy.
              rewrite !lookup_insert_ne by set_solver. done.
        -- simpl. set_solver.
        -- simpl. set_solver.
        -- simpl. set_solver.
      * by constructor.
      * intros y Hy. rewrite !lookup_insert_ne by set_solver. done.
    + fields.
      apply zip_at_up with (f := InLeft a k v ht r) in Hz.
      destruct (IHl (InLeft a k v ht r :: c) h fuel b eq_refl Hz Hn)
        as (h' & c' & Hrun & Hplug & Hlen & Hz' & Hdesc' & Hfr).
      { simpl. set_solver. }
      { intros k' Hk'. apply Hkeys. rewrite (keys_Tree a). apply elem_of_app. by left. }
      { by constructor. }
      { lia. }
      exists h', c'. split; [exact Hrun|]. split; [exact Hplug|].
      split; [cbn [length depth] in Hlen |- *; lia|]. split; [exact Hz'|].
      split; [exact Hdesc'|].
      intros y Hy. apply Hfr. simpl. set_solver.
  - replace (cmp k kn <? 0) with true by (symmetry; apply Z.ltb_lt; lia).
    assert (Hlt : cmp k kn < 0) by lia.
    destruct r as [|b rl kb vb hb rr].
    + fields. erewrite bind_update by exact Ha.
      erewrite bind_update by (rewrite lookup_insert_ne by done; exact Hn).
      unfold set_right, set_parent; simpl.
      eexists _, (InRight a l k v ht :: c). split; [reflexivity|].
      split; [reflexivity|]. split; [simpl; lia|]. split; [|split].
      * split; [|split; [|split; [|split]]].
        -- simpl. split; [|done]. by rewrite lookup_insert_eq.
        -- simpl. split; [|split].
           ++ rewrite lookup_insert_ne by done. by rewrite lookup_insert_eq.
           ++ eapply tree_at_agree; [|exact Hl]. intros y Hy.
              rewrite !lookup_insert_ne by set_solver. done.
           ++ eapply ctx_at_agree; [|exact Hc]. intros y Hy.
              rewrite !lookup_insert_ne by set_solver. done.
        -- simpl. set_solver.
        -- simpl. set_solver.
        -- simpl. set_solver.
      * by constructor.
      * intros y Hy. rewrite !lookup_insert_ne by set_solver. done.
    + fields.
      apply zip_at_up with (f := InRight a l k v ht) in Hz.
      destruct (IHr (InRight a l k v ht :: c) h fuel b eq_refl Hz Hn)
        as (h' & c' & Hrun & Hplug & Hlen & Hz' & Hdesc' & Hfr).
      { simpl. set_solver. }
      { intros k' Hk'. apply Hkeys. rewrite (keys_Tree a). apply elem_of_app. right.
        apply elem_of_cons. by right. }
      { by constructor. }
      { lia. }
      exists h', c'. split; [exact Hrun|]. split; [exact Hplug|].
      split; [cbn [length depth] in Hlen |- *; lia|]. split; [exact Hz'|].
      split; [exact Hdesc'|].
      intros y Hy. apply Hfr. simpl. set_solver.
Qed.

Section Ordered.
Context (cmp : K -> K -> Z) `{!TotalCmp cmp}.

#[local] Instance cmp_lt_trans_inst : Transitive (fun a b : K => cmp a b < 0).
Proof. intros a b c. apply cmp_lt_trans, _. Qed.

(** On a path of [do_insert], every key before the hole is before the
    new key and every key after the hole is after it. *)
Lemma desc_bounds kn c :
  StronglySorted (fun a b => cmp a b < 0) (ctx_before c ++ ctx_after c) ->
  Forall (frame_desc cmp kn) c ->
  (forall x, x ∈ ctx_before c -> cmp x kn < 0) /\
  (forall y, y ∈ ctx_after c -> cmp kn y < 0).
Proof.
  induction c as [|f c IH]; intros Hs Hd.
  - split; intros x Hx; by apply elem_of_nil in Hx.
  - apply Forall_cons in Hd as (Hf & Hd).
    destruct f as [p k v ht s | p s k v ht]; simpl in *.
    + apply StronglySorted_app in Hs as (Hba & Hb & Ha).
      apply StronglySorted_cons in Ha as (Hk & Ha).
      apply StronglySorted_app in Ha as (Hsa & Hs' & Ha).
      rewrite Forall_forall in Hk.
      destruct IH as (IHb & IHa); [|done|].
      { apply StronglySorted_app. split; [|done].
        intros x1 x2 H1 H2. apply Hba; [done|]. set_solver. }
      assert (Hkn : cmp kn k < 0) by (by apply (cmp_lt_gt cmp)).
      split; [exact IHb|].
      intros y Hy. apply elem_of_cons in Hy as [->|Hy]; [done|].
      apply elem_of_app in Hy as [Hy|Hy]; [|by apply IHa].
      apply (cmp_lt_trans cmp kn k y); [done|]. apply Hk. set_solver.
    + rewrite <- !app_assoc in Hs.
      apply StronglySorted_app in Hs as (Hba & Hb & Ha).
      apply StronglySorted_app in Ha as (Hsa & Hs' & Ha).
      simpl in Ha. apply StronglySorted_cons in Ha as (Hk & Ha).
      destruct IH as (IHb & IHa); [|done|].
      { apply StronglySorted_app. split; [|done].
        intros x1 x2 H1 H2. apply Hba; [done|]. set_solver. }
      split; [|exact IHa].
      intros x Hx. apply elem_of_app in Hx as [Hx|Hx]; [by apply IHb|].
      apply elem_of_app in Hx as [Hx|Hx].
      * apply (cmp_lt_trans cmp x k kn); [|done]. apply Hsa; [done|]. set_solver.
      * apply list_elem_of_singleton in Hx as ->. done.
Qed.

Lemma bst_plug_leaf n kn vn hn c :
  bst cmp (plug Empty c) -> Forall (frame_desc cmp kn) c ->
  bst cmp (plug (Tree n Empty kn vn hn Empty) c).
Proof.
  unfold bst. rewrite !keys_plug. intros Hs Hd.
  apply (Sorted_StronglySorted _) in Hs. change (keys Empty) with (@nil K) in Hs.
  simpl in Hs.
  destruct (desc_bounds kn c Hs Hd) as (Hb & Ha).
  apply StronglySorted_Sorted.
  apply StronglySorted_app in Hs as (Hba & Hsb & Hsa).
  rewrite keys_Tree. change (keys Empty) with (@nil K). simpl.
  apply StronglySorted_app. split; [|split; [done|]].
  - intros x1 x2 H1 H2. apply elem_of_cons in H2 as [->|H2]; [by apply Hb|by apply Hba].
  - apply StronglySorted_cons. split; [|done]. apply Forall_forall. exact Ha.
Qed.


Lemma nodes_keys t : (nodes t).*2 = keys t.
Proof.
  induction t as [|a l IHl k v ht r IHr]; [done|].
  rewrite keys_Tree. cbn [nodes]. rewrite fmap_app, fmap_cons. by rewrite IHl, IHr.
Qed.

Lemma tree_at_node h par t x :
  tree_at h par t -> x ∈ dom_tree t ->
  exists nx, h !! x = Some nx /\ (x, key nx) ∈ nodes t.
Proof.
  revert par. induction t as [|a l IHl k v ht r IHr]; intros par; simpl.
  - intros _ Hx. by apply not_elem_of_empty in Hx.
  - intros (Ha & Hl & Hr) Hx.
    apply elem_of_union in Hx as [Hx|Hx]; [apply elem_of_union in Hx as [Hx|Hx]|].
    + apply elem_of_singleton in Hx as ->. eexists; split; [exact Ha|].
      simpl. apply elem_of_app. right. apply list_elem_of_here.
    + destruct (IHl (Some a) Hl Hx) as (nx & Hnx & Hin).
      exists nx. split; [done|]. apply elem_of_app. by left.
    + destruct (IHr (Some a) Hr Hx) as (nx & Hnx & Hin).
      exists nx. split; [done|]. apply elem_of_app. right. by apply list_elem_of_further.
Qed.

Lemma lower_bound_of_node t q b kb :
  lower_bound_of cmp t q = Some (b, kb) -> (b, kb) ∈ nodes t.
Proof.
  induction t as [|a l IHl k v ht r IHr]; simpl; [discriminate|].
  destruct (cmp k q <? 0).
  - intros H. apply elem_of_app. right. apply list_elem_of_further. by apply IHr.
  - destruct (0 <? cmp k q).
    + destruct (lower_bound_of cmp l q) as [[x kx]|].
      * intros [= -> ->]. apply elem_of_app. left. by apply IHl.
      * intros [= <- <-]. apply elem_of_app. right. apply list_elem_of_here.
    + intros [= <- <-]. apply elem_of_app. right. apply list_elem_of_here.
Qed.

(** In a strictly ascending sequence no two places hold keys that
    compare equal. *)
Lemma sorted_nodes_unique (l : list (addr * K)) x y :
  StronglySorted (fun a b => cmp a b < 0) (l.*2) ->
  x ∈ l -> y ∈ l -> cmp x.2 y.2 = 0 -> x = y.
Proof.
  induction l as [|z l IH]; intros Hs Hx Hy Heq.
  - by apply elem_of_nil in Hx.
  - simpl in Hs. apply StronglySorted_cons in Hs as (Hz & Hs).
    rewrite Forall_forall in Hz.
    apply elem_of_cons in Hx as [->|Hx]; apply elem_of_cons in Hy as [->|Hy].
    + done.
    + assert (cmp z.2 y.2 < 0) by (apply Hz; by apply list_elem_of_fmap_2). lia.
    + assert (cmp z.2 x.2 < 0) by (apply Hz; by apply list_elem_of_fmap_2).
      apply (cmp_eq_sym cmp) in Heq. lia.
    + by apply IH.
Qed.

(** [TreeNode_insert] of a fresh key, with all that the theorems below
    read off it. *)
Lemma TreeNode_insert_full h t a n np hn kn vn fuel :
  whole_at h t -> root_of t = Some a -> avl t -> bst cmp t ->
  h !! n = Some (mkTreeNode None None np hn kn vn) ->
  n ∉ dom_tree t ->
  (forall k, k ∈ keys t -> cmp k kn <> 0) ->
  (2 * depth t + 3 <= fuel)%nat ->
  exists h' t' nn,
    TreeNode_insert cmp fuel a n h = Done TREE_SUCCESS h' /\
    whole_at h' t' /\ avl t' /\ bst cmp t' /\
    (exists k1 k2, keys t = k1 ++ k2 /\ keys t' = k1 ++ kn :: k2) /\
    h' !! n = Some nn /\ key nn = kn /\ value nn = vn /\ (n, kn) ∈ nodes t'.
Proof.
  intros Hw Hroot Havl Hbst Hn Hfresh Hkeys Hfuel.
  apply (zip_at_whole h t []) in Hw.
  destruct (do_insert_path cmp n np hn kn vn t [] h fuel a Hroot Hw Hn)
    as (h1 & c & Hrun1 & Hplug & Hlen & Hz1 & Hdesc & Hfr1).
  { simpl. set_solver. }
  { exact Hkeys. }
  { constructor. }
  { lia. }
  simpl in Hplug, Hlen. rewrite <- Hplug in Havl.
  apply avl_plug in Havl. destruct Havl as (_ & Hcb & Hch). simpl in Hcb, Hch.
  destruct (update_height_spec _ _ _ _ _ _ _ _ fuel Hz1 ltac:(lia))
    as (h2 & Hrun2 & Hz2 & Hfr2).
  cbn [cached_height] in Hz2. change (1 + Z.max 0 0) with 1 in Hz2.
  destruct (rebalance_spec _ _ _ _ _ _ _ _ 0 fuel Hz2)
    as (h3 & t' & Hrun3 & Hw3 & Havl3 & Hent & Hdom & Hfr3).
  { unfold avl; simpl. split_and!; try done; lia. }
  { by apply ctx_bal_uh. }
  { apply ctx_hts_uh. }
  { right. split; [lia|]. by right. }
  { rewrite length_uh_ctx. lia. }
  assert (Hkeys' : keys t' = keys (plug (Tree n Empty kn vn hn Empty) c)).
  { unfold keys. rewrite Hent, entries_plug_uh.
    f_equal. by apply entries_plug. }
  assert (Hn3 : exists nn, h3 !! n = Some nn /\ key nn = kn /\ value nn = vn).
  { pose proof (rebalance_keeps_kv fuel n h2) as Hkv. rewrite Hrun3 in Hkv.
    specialize (Hkv n). destruct Hz2 as ((Hn2 & _) & _). rewrite Hn2 in Hkv.
    destruct (h3 !! n) as [nn|]; [|discriminate].
    exists nn. split; [done|]. simpl in Hkv. by injection Hkv. }
  destruct Hn3 as (nn & Hnn & Hknn & Hvnn).
  exists h3, t', nn. split.
  { unfold TreeNode_insert. erewrite bind_Done by exact Hrun1.
    rewrite bool_decide_eq_false_2 by (intros Hne; by apply Hne).
    erewrite bind_Done by exact Hrun2. erewrite bind_Done by exact Hrun3.
    reflexivity. }
  split; [exact Hw3|]. split; [exact Havl3|]. split; [|split; [|split; [done|split; [done|split; [done|]]]]].
  - unfold bst. rewrite Hkeys'. apply bst_plug_leaf; [|done]. by rewrite Hplug.
  - exists (ctx_before c), (ctx_after c). rewrite Hkeys', <- Hplug, !keys_plug.
    rewrite keys_Tree. done.
  - destruct Hw3 as (Ht3 & _).
    destruct (tree_at_node h3 None t' n Ht3) as (nx & Hnx & Hin).
    { rewrite Hdom, dom_plug. simpl. set_solver. }
    rewrite Hnn in Hnx. injection Hnx as <-. by rewrite Hknn in Hin.
Qed.

(** X12. [TreeNode_insert] of a fresh key into a tree that satisfies the
    height and balance invariants and whose keys ascend in order: the
    keys still ascend, with the new key put in at its place. *)
Theorem TreeNode_insert_keeps_bst h t a n np hn kn vn fuel :
  whole_at h t -> root_of t = Some a -> avl t -> bst cmp t ->
  h !! n = Some (mkTreeNode None None np hn kn vn) ->
  n ∉ dom_tree t ->
  (forall k, k ∈ keys t -> cmp k kn <> 0) ->
  (2 * depth t + 3 <= fuel)%nat ->
  exists h' t',
    TreeNode_insert cmp fuel a n h = Done TREE_SUCCESS h' /\
    whole_at h' t' /\ bst cmp t' /\
    (exists k1 k2, keys t = k1 ++ k2 /\ keys t' = k1 ++ kn :: k2).
Proof.
  intros Hw Hroot Havl Hbst Hn Hfresh Hkeys Hfuel.
  destruct (TreeNode_insert_full h t a n np hn kn vn fuel Hw Hroot Havl Hbst Hn Hfresh
              Hkeys Hfuel)
    as (h' & t' & nn & Hrun & Hw' & _ & Hbst' & Hk & _).
  exists h', t'. done.
Qed.

(** X13. After [TreeNode_insert] of a fresh key, [TreeNode_lower_bound]
    for that key from the new root stores the inserted node in [*bound]. *)
Theorem TreeNode_insert_then_lower_bound h t a n np hn kn vn fuel :
  whole_at h t -> root_of t = Some a -> avl t -> bst cmp t ->
  h !! n = Some (mkTreeNode None None np hn kn vn) ->
  n ∉ dom_tree t ->
  (forall k, k ∈ keys t -> cmp k kn <> 0) ->
  (2 * depth t + 3 <= fuel)%nat ->
  exists h' t' a',
    TreeNode_insert cmp fuel a n h = Done TREE_SUCCESS h' /\
    whole_at h' t' /\ root_of t' = Some a' /\
    forall b0 fuel', (depth t' <= fuel')%nat ->
      TreeNode_lower_bound cmp fuel' a' kn b0 h'
        = Done (TREE_SUCCESS, Some n) h'.
Proof.
  intros Hw Hroot Havl Hbst Hn Hfresh Hkeys Hfuel.
  destruct (TreeNode_insert_full h t a n np hn kn vn fuel Hw Hroot Havl Hbst Hn Hfresh
              Hkeys Hfuel)
    as (h' & t' & nn & Hrun & Hw' & _ & Hbst' & _ & Hnn & Hknn & _ & Hin).
  destruct t' as [|a' l' k' v' ht' r'] eqn:Et; [by apply elem_of_nil in Hin|].
  rewrite <- Et in *.
  exists h', t', a'. split; [done|]. split; [done|]. split; [by rewrite Et|].
  intros b0 fuel' Hfuel'.
  rewrite (lower_bound_run cmp t' None h' fuel' a' kn b0); [|by rewrite Et|apply Hw'|done].
  pose proof (lower_bound_of_spec cmp t' kn Hbst') as Hspec.
  assert (Hkin : kn ∈ keys t').
  { rewrite <- nodes_keys. by apply (list_elem_of_fmap_2 snd) in Hin. }
  destruct (lower_bound_of cmp t' kn) as [[b kb]|] eqn:Hlb.
  - destruct Hspec as (_ & _ & Hge & Hmin).
    specialize (Hmin kn Hkin). rewrite (cmp_refl cmp) in Hmin. specialize (Hmin ltac:(lia)).
    apply lower_bound_of_node in Hlb.
    assert (Heq : (b, kb) = (n, kn)).
    { apply (sorted_nodes_unique (nodes t')); [|done|done|simpl; lia].
      rewrite nodes_keys. by apply (Sorted_StronglySorted _). }
    injection Heq as -> ->. done.
  - specialize (Hspec kn Hkin). rewrite (cmp_refl cmp) in Hspec. lia.
Qed.


(** X14. [TreeNode_init] on storage outside the tree, then
    [TreeNode_insert] of it, whatever the storage held: the tree
    satisfies the height, balance and order invariants with the new key in
    place, and the cell holds the key and the value given to
    [TreeNode_init]. *)
Theorem TreeNode_init_then_insert h t a n kn vn fuel :
  whole_at h t -> root_of t = Some a -> avl t -> bst cmp t ->
  n ∉ dom_tree t ->
  (forall k, k ∈ keys t -> cmp k kn <> 0) ->
  (2 * depth t + 3 <= fuel)%nat ->
  exists h' t' nn,
    (let* _ := TreeNode_init n kn vn in TreeNode_insert cmp fuel a n) h
      = Done TREE_SUCCESS h' /\
    whole_at h' t' /\ avl t' /\ bst cmp t' /\
    (exists k1 k2, keys t = k1 ++ k2 /\ keys t' = k1 ++ kn :: k2) /\
    h' !! n = Some nn /\ key nn = kn /\ value nn = vn.
Proof.
  intros (Ht & Hd) Hroot Havl Hbst Hfresh Hkeys Hfuel.
  set (h0 := <[n := mkTreeNode None None None 1 kn vn]> h).
  assert (Hw0 : whole_at h0 t).
  { split; [|done]. eapply tree_at_agree; [|exact Ht]. intros y Hy.
    unfold h0. rewrite lookup_insert_ne by set_solver. done. }
  destruct (TreeNode_insert_full h0 t a n None 1 kn vn fuel Hw0 Hroot Havl Hbst)
    as (h' & t' & nn & Hrun & Hw' & Havl' & Hbst' & Hk & Hnn & Hknn & Hvnn & _);
    [by unfold h0; rewrite lookup_insert_eq|done|done|done|].
  exists h', t', nn. split; [|done].
  unfold bind, TreeNode_init. fold h0. exact Hrun.
Qed.

End Ordered.

End NodeMore.

(** *** The further properties on concrete trees *)

Lemma whole_heap5 : whole_at heap5 tree5.
Proof. split; [simpl; repeat split; reflexivity|simpl; set_solver]. Qed.

Lemma whole_heap_spine : whole_at heap_spine tree_spine.
Proof. split; [simpl; repeat split; reflexivity|simpl; set_solver]. Qed.

Lemma whole_heap3 : whole_at heap3 tree3.
Proof. split; [simpl; repeat split; reflexivity|simpl; set_solver]. Qed.

Lemma whole_heap2 : whole_at heap2 tree2.
Proof. split; [simpl; repeat split; reflexivity|simpl; set_solver]. Qed.

Lemma spine_keys_not_30 k : k ∈ keys tree_spine -> Zcmp k 30 <> 0.
Proof.
  intros Hk. unfold keys in Hk. simpl in Hk. unfold Zcmp.
  apply elem_of_cons in Hk as [->|Hk]; [lia|].
  apply elem_of_cons in Hk as [->|Hk]; [lia|].
  by apply elem_of_nil in Hk.
Qed.

Lemma update_height_restores_heights_witness :
  exists h' t',
    update_height 2 2 heap_spine = Done tt h' /\
    whole_at h' t' /\ heights_ok t' /\
    entries t' = entries tree_spine /\
    (forall x, skeleton <$> (h' !! x) = skeleton <$> (heap_spine !! x)) /\
    (forall x, x ∉ dom_tree tree_spine -> h' !! x = heap_spine !! x).
Proof.
  apply (update_height_restores_heights heap_spine 2 Empty 20 200 1 Empty
           [InRight 1 Empty 10 100 2] 2).
  - apply zip_at_whole. exact whole_heap_spine.
  - exact I.
  - exact I.
  - repeat constructor.
  - simpl. lia.
Defined.

Lemma rotate_right_keeps_order_witness :
  exists h' ha' hb',
    rotate_right 2 1 heap2 = Done 2%positive h' /\
    whole_at h' (Tree 2 Empty 10 100 hb' (Tree 1 Empty 20 200 ha' Empty)) /\
    entries (Tree 2 Empty 10 100 hb' (Tree 1 Empty 20 200 ha' Empty)) = entries tree2 /\
    (heights_ok tree2 ->
     heights_ok (Tree 2 Empty 10 100 hb' (Tree 1 Empty 20 200 ha' Empty))) /\
    (forall x, x ∉ dom_tree tree2 -> h' !! x = heap2 !! x).
Proof.
  apply (rotate_right_keeps_order heap2 1 2 Empty 10 100 1 Empty 20 200 2 Empty [] 2).
  - apply zip_at_whole. exact whole_heap2.
  - simpl. lia.
Defined.

Lemma rotate_left_keeps_order_witness :
  exists h' ha' hb',
    rotate_left 2 1 heap_spine = Done 2%positive h' /\
    whole_at h' (Tree 2 (Tree 1 Empty 10 100 ha' Empty) 20 200 hb' Empty) /\
    entries (Tree 2 (Tree 1 Empty 10 100 ha' Empty) 20 200 hb' Empty)
      = entries tree_spine /\
    (heights_ok tree_spine ->
     heights_ok (Tree 2 (Tree 1 Empty 10 100 ha' Empty) 20 200 hb' Empty)) /\
    (forall x, x ∉ dom_tree tree_spine -> h' !! x = heap_spine !! x).
Proof.
  apply (rotate_left_keeps_order heap_spine 1 2 Empty 20 200 1 Empty 10 100 2 Empty [] 2).
  - apply zip_at_whole. exact whole_heap_spine.
  - simpl. lia.
Defined.

Lemma rotate_left_undoes_rotate_right_witness :
  bind (rotate_right 2 1) (fun b' => rotate_left 2 b') heap2 = Done 1%positive heap2.
Proof.
  apply (rotate_left_undoes_rotate_right heap2 1 2 Empty 10 100 1 Empty 20 200 2 Empty [] 2).
  - apply zip_at_whole. exact whole_heap2.
  - simpl. repeat split; reflexivity.
  - simpl. lia.
Defined.

Lemma fixup_on_avl_tree_writes_nothing_witness :
  (let* _ := update_height 3 4 in rebalance 3 4) heap5 = Done tt heap5.
Proof.
  apply (fixup_on_avl_tree_writes_nothing heap5 4 Empty 1 10 1 Empty path5 3).
  - apply zip_at_whole. exact whole_heap5.
  - unfold avl; simpl. repeat split; lia.
  - simpl. lia.
Defined.

Lemma TreeNode_erase_splices_witness :
  exists h',
    TreeNode_erase 1 1 heap2 = Done TREE_SUCCESS h' /\
    whole_at h' (Tree 2 Empty 10 100 1 Empty) /\
    h' !! 1%positive = Some (mkTreeNode None None None 2 20 200) /\
    (exists e1 e2,
       entries (Tree 2 Empty 10 100 1 Empty) = e1 ++ e2 /\
       entries tree2 = e1 ++ (20, 200) :: e2) /\
    (forall x, x ∉ dom_tree tree2 -> h' !! x = heap2 !! x).
Proof.
  apply (TreeNode_erase_splices heap2 1 (Tree 2 Empty 10 100 1 Empty) 20 200 2 Empty [] 1).
  - apply zip_at_whole. exact whole_heap2.
  - right. reflexivity.
Defined.

Lemma inorder_successor_is_next_witness :
  exists s ns e,
    inorder_successor 1 1 heap3 = Done s heap3 /\
    s ∈ dom_tree (Tree 3 Empty 30 300 1 Empty) /\ heap3 !! s = Some ns /\
    left ns = None /\
    entries tree3 = entries (Tree 2 Empty 10 100 1 Empty)
                      ++ (20, 200) :: (key ns, value ns) :: e.
Proof.
  apply (inorder_successor_is_next heap3 None 1 (Tree 2 Empty 10 100 1 Empty) 20 200 2
           (Tree 3 Empty 30 300 1 Empty) 1).
  - apply whole_heap3.
  - discriminate.
  - simpl. lia.
Defined.

Lemma TreeNode_destroy_blanks_witness :
  exists h',
    TreeNode_destroy 0 0 2 1 heap3 = Done TREE_SUCCESS h' /\
    (forall x, x ∈ dom_tree tree3 ->
               h' !! x = Some (mkTreeNode None None None 1 0 0)) /\
    (forall x, x ∉ dom_tree tree3 -> h' !! x = heap3 !! x).
Proof.
  apply (TreeNode_destroy_blanks 0 0 tree3 heap3 None 2 1).
  - reflexivity.
  - apply whole_heap3.
  - apply whole_heap3.
  - simpl. lia.
Defined.

Lemma TreeNode_erase_detaches_successor_witness :
  exists h' s ks vs hs sr r',
    TreeNode_erase 1 1 heap3 = Done TREE_SUCCESS h' /\
    whole_at h' (Tree 1 (Tree 2 Empty 10 100 1 Empty) 20 200 2 r') /\
    whole_at h' (Tree s Empty ks vs hs sr) /\
    entries (Tree 3 Empty 30 300 1 Empty) = (ks, vs) :: entries sr ++ entries r'.
Proof.
  apply (TreeNode_erase_detaches_successor heap3 1 (Tree 2 Empty 10 100 1 Empty) 20 200 2
           (Tree 3 Empty 30 300 1 Empty) [] 1).
  - apply zip_at_whole. exact whole_heap3.
  - discriminate.
  - discriminate.
  - simpl. lia.
Defined.

Lemma TreeNode_insert_keeps_bst_witness :
  exists h' t',
    TreeNode_insert Zcmp 7 1 3 heap_spine = Done TREE_SUCCESS h' /\
    whole_at h' t' /\ bst Zcmp t' /\
    (exists k1 k2, keys tree_spine = k1 ++ k2 /\ keys t' = k1 ++ 30 :: k2).
Proof.
  apply (TreeNode_insert_keeps_bst Zcmp heap_spine tree_spine 1 3 None 1 30 300 7).
  - exact whole_heap_spine.
  - reflexivity.
  - unfold avl; simpl. lia.
  - unfold bst, keys; simpl. repeat constructor; unfold Zcmp; lia.
  - reflexivity.
  - simpl. set_solver.
  - exact spine_keys_not_30.
  - simpl. lia.
Defined.

Lemma TreeNode_insert_then_lower_bound_witness :
  exists h' t' a',
    TreeNode_insert Zcmp 7 1 3 heap_spine = Done TREE_SUCCESS h' /\
    whole_at h' t' /\ root_of t' = Some a' /\
    forall b0 fuel', (depth t' <= fuel')%nat ->
      TreeNode_lower_bound Zcmp fuel' a' 30 b0 h'
        = Done (TREE_SUCCESS, Some 3%positive) h'.
Proof.
  apply (TreeNode_insert_then_lower_bound Zcmp heap_spine tree_spine 1 3 None 1 30 300 7).
  - exact whole_heap_spine.
  - reflexivity.
  - unfold avl; simpl. lia.
  - unfold bst, keys; simpl. repeat constructor; unfold Zcmp; lia.
  - reflexivity.
  - simpl. set_solver.
  - exact spine_keys_not_30.
  - simpl. lia.
Defined.

Lemma TreeNode_init_then_insert_witness :
  exists h' t' nn,
    (let* _ := TreeNode_init 3 30 300 in TreeNode_insert Zcmp 7 1 3) heap_spine
      = Done TREE_SUCCESS h' /\
    whole_at h' t' /\ avl t' /\ bst Zcmp t' /\
    (exists k1 k2, keys tree_spine = k1 ++ k2 /\ keys t' = k1 ++ 30 :: k2) /\
    h' !! 3%positive = Some nn /\ key nn = 30 /\ value nn = 300.
Proof.
  apply (TreeNode_init_then_insert Zcmp heap_spine tree_spine 1 3 30 300 7).
  - exact whole_heap_spine.
  - reflexivity.
  - unfold avl; simpl. lia.
  - unfold bst, keys; simpl. repeat constructor; unfold Zcmp; lia.
  - simpl. set_solver.
  - exact spine_keys_not_30.
  - simpl. lia.
Defined.

End NodeProofs.

(** ** The map layer *)

Module AvlbstProofs.
Import Avlbst.

Section MapFacts.
Context {K V : Type}.
Implicit Types (m : gmap addr (AvlNode K V)) (w : world K V) (t l r : @tree K V).

Lemma map_bind_load {A} a n (k : _ -> M (world K V) A) w :
  cells w !! a = Some n -> bind (load a) k w = k n w.
Proof. intros H. unfold bind, load. rewrite H. reflexivity. Qed.

Lemma map_bind_update {A} a n g (k : _ -> M (world K V) A) w :
  cells w !! a = Some n ->
  bind (update a g) k w = k tt (set_cells (<[a := g n]> (cells w)) w).
Proof. intros H. unfold bind, update. rewrite H. reflexivity. Qed.

Lemma map_tree_at_agree m m' t :
  (forall a, a ∈ dom_tree t -> m' !! a = m !! a) ->
  tree_at m t -> tree_at m' t.
Proof.
  induction t as [|a l IHl k v bf r IHr]; simpl; intros Hag; [done|].
  intros (Ha & Hl & Hr). split; [|split].
  - rewrite Hag; [done|set_solver].
  - apply IHl; [|done]. intros; apply Hag; set_solver.
  - apply IHr; [|done]. intros; apply Hag; set_solver.
Qed.

Lemma map_entries_Tree a l k v bf r :
  entries (Tree a l k v bf r) = entries l ++ (k, v) :: entries r.
Proof. reflexivity. Qed.

Lemma map_keys_Tree a l k v bf r :
  keys (Tree a l k v bf r) = keys l ++ k :: keys r.
Proof. unfold keys. simpl. by rewrite fmap_app. Qed.

Lemma insert_loop_unfold compare fuel (k : K) (v : V) (current : addr) :
  insert_loop compare (S fuel) k v current =
  bind (load current) (fun n =>
  let c := compare k (key n) in
  if c =? 0 then
    bind (update current (set_value v)) (fun _ => ret (Some (value n)))
  else if c <? 0 then
    match left n with
    | Some l => insert_loop compare fuel k v l
    | None =>
        bind (alloc_node k v) (fun a =>
        bind (update current (set_left (Some a))) (fun _ =>
        bind incr_len (fun _ => ret None)))
    end
  else
    match right n with
    | Some r => insert_loop compare fuel k v r
    | None =>
        bind (alloc_node k v) (fun a =>
        bind (update current (set_right (Some a))) (fun _ =>
        bind incr_len (fun _ => ret None)))
    end).
Proof. reflexivity. Qed.

Section Quiet.
Context (compare : K -> K -> Z).

Lemma quiet_ret {A} (a : A) : quiet (K:=K) (V:=V) (ret a).
Proof. intros w. simpl. done. Qed.

Lemma quiet_load a : quiet (K:=K) (V:=V) (load a).
Proof. intros w. unfold load. by destruct (cells w !! a). Qed.

Lemma quiet_update a g : quiet (K:=K) (V:=V) (update a g).
Proof. intros w. unfold update. by destruct (cells w !! a). Qed.

Lemma quiet_alloc_node k v : quiet (K:=K) (V:=V) (alloc_node k v).
Proof. intros w. simpl. done. Qed.

Lemma quiet_incr_len : quiet (K:=K) (V:=V) incr_len.
Proof. intros w. simpl. done. Qed.

Lemma quiet_bind {A B} (m : M _ A) (k : A -> M _ B) :
  quiet m -> (forall a, quiet (K:=K) (V:=V) (k a)) ->
  quiet (K:=K) (V:=V) (bind m k).
Proof.
  intros Hm Hk w. unfold bind. specialize (Hm w).
  destruct (m w) as [a w1| |]; [|done..].
  specialize (Hk a w1). destruct (k a w1) as [b w2| |]; [|done..].
  by rewrite Hk, Hm.
Qed.

Lemma quiet_insert_loop fuel k v :
  forall a, quiet (K:=K) (V:=V) (insert_loop compare fuel k v a).
Proof.
  induction fuel as [|fuel IH]; intros a; [by intros w|].
  rewrite insert_loop_unfold. apply quiet_bind; [apply quiet_load|].
  intros n. cbv zeta.
  repeat first
    [ apply IH | apply quiet_ret | apply quiet_update | apply quiet_alloc_node
    | apply quiet_incr_len | apply quiet_bind
    | match goal with |- forall _, _ => intro end
    | match goal with |- quiet (if ?x then _ else _) => destruct x end
    | match goal with |- quiet (match ?x with _ => _ end) => destruct x end ].
Qed.

(** X15. [AvlMap_insert] never calls the deleter and never frees,
    whatever the map and the key. *)
Lemma AvlMap_insert_quiet fuel k v :
  quiet (K:=K) (V:=V) (AvlMap_insert compare fuel k v).
Proof.
  intros w. unfold AvlMap_insert. destruct (root w) as [r|].
  - apply quiet_insert_loop.
  - simpl. done.
Qed.

End Quiet.

Section WithCmp.
Context (compare : K -> K -> Z) `{!TotalCmp compare}.

#[local] Instance map_lt_transitive : Transitive (fun a b : K => compare a b < 0).
Proof. intros a b c. apply cmp_lt_trans, _. Qed.

Lemma map_bst_inv a l k v bf r :
  bst compare (Tree a l k v bf r) ->
  bst compare l /\ bst compare r /\
  (forall x, x ∈ keys l -> compare x k < 0) /\
  (forall y, y ∈ keys r -> compare k y < 0).
Proof.
  unfold bst. rewrite map_keys_Tree. intros Hs.
  apply (Sorted_StronglySorted _) in Hs.
  apply StronglySorted_app in Hs. destruct Hs as (Hlr & Hl & Hr).
  apply StronglySorted_cons in Hr. destruct Hr as (Hk & Hr).
  split; [by apply StronglySorted_Sorted|]. split; [by apply StronglySorted_Sorted|].
  split.
  - intros x Hx. apply Hlr; [done|]. apply elem_of_cons. by left.
  - intros y Hy. rewrite Forall_forall in Hk. by apply Hk.
Qed.

(** The loop of [AvlMap_insert] on a key that compares equal to a stored
    one: it ends at the node of that key, overwrites the value there and
    returns the old one; nothing else changes. *)
Lemma insert_loop_existing q vnew t : forall w fuel a,
  root_of t = Some a -> tree_at (cells w) t -> distinct t ->
  bst compare t ->
  (exists k0, k0 ∈ keys t /\ compare q k0 = 0) ->
  (depth t <= fuel)%nat ->
  exists e1 k0 v0 e2 m' t',
    entries t = e1 ++ (k0, v0) :: e2 /\ compare q k0 = 0 /\
    insert_loop compare fuel q vnew a w = Done (Some v0) (set_cells m' w) /\
    tree_at m' t' /\ entries t' = e1 ++ (k0, vnew) :: e2 /\
    root_of t' = root_of t /\ dom_tree t' = dom_tree t /\ distinct t' /\
    (forall y, y ∉ dom_tree t -> m' !! y = cells w !! y).
Proof.
  induction t as [|a' l IHl k v bf r IHr]; intros w fuel a Hroot Ht Hd Hb Hdup Hfuel;
    [discriminate|].
  injection Hroot as ->. destruct Ht as (Ha & Hl & Hr).
  destruct Hd as (Hd1 & Hd2 & Hd3 & Hd4 & Hd5).
  destruct fuel as [|fuel]; [simpl in Hfuel; lia|]. cbn [depth] in Hfuel.
  apply map_bst_inv in Hb. destruct Hb as (Hbl & Hbr & Hlk & Hkr).
  destruct Hdup as (k0 & Hk0 & Heq).
  rewrite map_keys_Tree, elem_of_app, elem_of_cons in Hk0.
  rewrite insert_loop_unfold.
  erewrite map_bind_load by exact Ha. cbn [key left right value]. cbv zeta.
  destruct (Z.eqb_spec (compare q k) 0) as [Hz|Hne].
  - erewrite map_bind_update by exact Ha. unfold set_value; simpl.
    eexists (entries l), k, v, (entries r), _, (Tree a l k vnew bf r).
    split; [done|]. split; [done|]. split; [reflexivity|].
    split; [|split; [done|split; [done|split; [done|split; [done|]]]]].
    + simpl. split; [|split].
      * by rewrite lookup_insert_eq.
      * eapply map_tree_at_agree; [|exact Hl]. intros y Hy.
        rewrite lookup_insert_ne; [done|set_solver].
      * eapply map_tree_at_agree; [|exact Hr]. intros y Hy.
        rewrite lookup_insert_ne; [done|set_solver].
    + intros y Hy. rewrite lookup_insert_ne; [done|set_solver].
  - destruct (Z.ltb_spec (compare q k) 0) as [Hlt|Hge].
    + (* the stored key is in the left subtree *)
      assert (Hin : k0 ∈ keys l).
      { destruct Hk0 as [Hk0|[->|Hk0]]; [done|done|].
        specialize (Hkr k0 Hk0).
        assert (compare k0 q <= 0) by (apply (cmp_eq_sym compare) in Heq; lia).
        pose proof (cmp_lt_le_trans compare k k0 q Hkr ltac:(done)).
        apply (cmp_lt_gt compare) in H0. lia. }
      destruct l as [|b ll kb vb bfb lr].
      { unfold keys in Hin. simpl in Hin. by apply elem_of_nil in Hin. }
      cbn [root_of].
      destruct (IHl w fuel b eq_refl Hl Hd4 Hbl (ex_intro _ k0 (conj Hin Heq)) ltac:(lia))
        as (e1 & k1 & v1 & e2 & m' & t' & Hent & Heq1 & Hrun & Ht' & Hent' & Hroot' & Hdom' & Hdis' & Hfr).
      exists e1, k1, v1, (e2 ++ (k, v) :: entries r), m', (Tree a t' k v bf r).
      split; [rewrite map_entries_Tree, Hent, <- ?app_assoc; done|].
      split; [done|]. split; [exact Hrun|].
      split; [|split; [|split; [done|split; [|split]]]].
      * cbn [tree_at]. split; [|split; [done|]].
        -- rewrite Hroot'. rewrite Hfr by done. exact Ha.
        -- eapply map_tree_at_agree; [|exact Hr]. intros y Hy. apply Hfr. set_solver.
      * rewrite map_entries_Tree, Hent', <- ?app_assoc. done.
      * cbn [dom_tree]. by rewrite Hdom'.
      * cbn [distinct]. rewrite Hdom'. done.
      * intros y Hy. apply Hfr. cbn [dom_tree] in Hy. set_solver.
    + (* the stored key is in the right subtree *)
      assert (Hin : k0 ∈ keys r).
      { destruct Hk0 as [Hk0|[->|Hk0]]; [|done|done].
        specialize (Hlk k0 Hk0).
        assert (compare q k0 <= 0) by lia.
        pose proof (cmp_le_lt_trans compare q k0 k ltac:(done) Hlk). lia. }
      destruct r as [|b rl kb vb bfb rr].
      { unfold keys in Hin. simpl in Hin. by apply elem_of_nil in Hin. }
      cbn [root_of].
      destruct (IHr w fuel b eq_refl Hr Hd5 Hbr (ex_intro _ k0 (conj Hin Heq)) ltac:(lia))
        as (e1 & k1 & v1 & e2 & m' & t' & Hent & Heq1 & Hrun & Ht' & Hent' & Hroot' & Hdom' & Hdis' & Hfr).
      exists (entries l ++ (k, v) :: e1), k1, v1, e2, m', (Tree a l k v bf t').
      split; [rewrite map_entries_Tree, Hent, <- ?app_assoc; done|].
      split; [done|]. split; [exact Hrun|].
      split; [|split; [|split; [done|split; [|split]]]].
      * cbn [tree_at]. split; [|split; [|done]].
        -- rewrite Hroot'. rewrite Hfr by done. exact Ha.
        -- eapply map_tree_at_agree; [|exact Hl]. intros y Hy. apply Hfr. set_solver.
      * rewrite map_entries_Tree, Hent', <- ?app_assoc. done.
      * cbn [dom_tree]. by rewrite Hdom'.
      * cbn [distinct]. rewrite Hdom'. done.
      * intros y Hy. apply Hfr. cbn [dom_tree] in Hy. set_solver.
Qed.

(** [AvlMap_insert] on a key that compares equal to a stored one. *)
Lemma AvlMap_insert_existing q vnew w t fuel :
  map_at w t -> bst compare t ->
  (exists k0, k0 ∈ keys t /\ compare q k0 = 0) ->
  (depth t <= fuel)%nat ->
  exists e1 k0 v0 e2 m' t',
    entries t = e1 ++ (k0, v0) :: e2 /\ compare q k0 = 0 /\
    AvlMap_insert compare fuel q vnew w = Done (Some v0) (set_cells m' w) /\
    map_at (set_cells m' w) t' /\ entries t' = e1 ++ (k0, vnew) :: e2.
Proof.
  intros (Hroot & Ht & Hd) Hb Hdup Hfuel.
  destruct t as [|a l k v bf r].
  { destruct Hdup as (k0 & Hk0 & _). unfold keys in Hk0. simpl in Hk0.
    by apply elem_of_nil in Hk0. }
  destruct (insert_loop_existing q vnew (Tree a l k v bf r) w fuel a eq_refl Ht Hd Hb Hdup Hfuel)
    as (e1 & k0 & v0 & e2 & m' & t' & Hent & Heq & Hrun & Ht' & Hent' & Hroot' & Hdom' & Hdis' & Hfr).
  exists e1, k0, v0, e2, m', t'. split; [done|]. split; [done|]. split.
  - unfold AvlMap_insert. rewrite Hroot. exact Hrun.
  - split; [|done]. split; [|split; [done|done]].
    simpl. by rewrite Hroot, Hroot'.
Qed.

(** C9. Inserting a key that compares equal to a stored key returns the
    value stored with that key and stores the new value in its place: the
    tree keeps its keys, in the same order, and the count is unchanged. *)
Theorem AvlMap_insert_existing_key q vnew w t fuel :
  map_at w t -> bst compare t ->
  (exists k0, k0 ∈ keys t /\ compare q k0 = 0) ->
  (depth t <= fuel)%nat ->
  exists e1 k0 v0 e2 w' t',
    entries t = e1 ++ (k0, v0) :: e2 /\ compare q k0 = 0 /\
    AvlMap_insert compare fuel q vnew w = Done (Some v0) w' /\
    map_at w' t' /\ entries t' = e1 ++ (k0, vnew) :: e2 /\
    keys t' = keys t /\ len w' = len w.
Proof.
  intros Hm Hb Hdup Hfuel.
  destruct (AvlMap_insert_existing q vnew w t fuel Hm Hb Hdup Hfuel)
    as (e1 & k0 & v0 & e2 & m' & t' & Hent & Heq & Hrun & Hm' & Hent').
  exists e1, k0, v0, e2, (set_cells m' w), t'.
  split; [done|]. split; [done|]. split; [done|]. split; [done|]. split; [done|].
  split; [|done]. unfold keys. rewrite Hent, Hent', !fmap_app. done.
Qed.

(** C5, as amended. Inserting a key that compares equal to a stored key
    calls neither the deleter nor [free]: the old value is handed back to
    the caller as the result. *)
Theorem AvlMap_insert_existing_no_deleter q vnew w t fuel :
  map_at w t -> bst compare t ->
  (exists k0, k0 ∈ keys t /\ compare q k0 = 0) ->
  (depth t <= fuel)%nat ->
  exists k0 v0 w',
    (k0, v0) ∈ entries t /\ compare q k0 = 0 /\
    AvlMap_insert compare fuel q vnew w = Done (Some v0) w' /\
    events w' = events w.
Proof.
  intros Hm Hb Hdup Hfuel.
  destruct (AvlMap_insert_existing q vnew w t fuel Hm Hb Hdup Hfuel)
    as (e1 & k0 & v0 & e2 & m' & t' & Hent & Heq & Hrun & Hm' & Hent').
  exists k0, v0, (set_cells m' w).
  split; [|done]. rewrite Hent, elem_of_app, elem_of_cons. right. by left.
Qed.

End WithCmp.
End MapFacts.

(** *** The claims on concrete maps *)

Example map1_built : insert_all 1 [(1, 10)] empty_map = Done tt map1.
Proof. vm_compute. reflexivity. Qed.

(** C3. Inserting 1, 2, ..., 7 in ascending order into the empty map:
    the tree is the right spine of height 7, every balance factor is the
    0 that [calloc] left, and the count is 7. *)
Theorem AvlMap_insert_ascending_height_7 :
  match insert_all 7 [(1, 10); (2, 20); (3, 30); (4, 40); (5, 50); (6, 60); (7, 70)]
                   empty_map with
  | Done _ w =>
      Some (height_in 8 (cells w) (root w), inorder_in 8 (cells w) (root w), len w)
  | _ => None
  end
  = Some (7, [(1, 10, 0); (2, 20, 0); (3, 30, 0); (4, 40, 0);
              (5, 50, 0); (6, 60, 0); (7, 70, 0)], 7).
Proof. vm_compute. reflexivity. Qed.

(** C4. [AvlMap_clear] on the map with the single pair (1, 10) calls the
    deleter and [free] once each and sets the count to 0, but [root] still
    holds the address of the freed cell, so that a second [AvlMap_clear]
    (or [AvlMap_destroy]) reads freed memory; and on the map built by
    inserting 2 then 1, whose root has a left child, [AvlMap_clear] itself
    reads the cell of 1 after freeing it. *)
Theorem AvlMap_clear_leaves_root_dangling :
  match AvlMap_clear 3 map1 with
  | Done _ w => Some (events w, len w, root w, cells w !! 1%positive)
  | _ => None
  end = Some ([Deleted 1 10; Freed 1], 0, Some 1%positive, None) /\
  bind (AvlMap_clear 3) (fun _ => AvlMap_destroy 3) map1 = Fault /\
  bind (insert_all 2 [(2, 20); (1, 10)]) (fun _ => AvlMap_clear 5) empty_map = Fault.
Proof. repeat split; vm_compute; reflexivity. Qed.

(** C5, the claim as stated fails: overwriting the value of key 1 returns
    the old value 10 and makes no deleter call at all. *)
Lemma AvlMap_insert_overwrite_calls_no_deleter :
  match AvlMap_insert Zcmp 1 1 20 map1 with
  | Done r w => Some (r, events w, cells w !! 1%positive)
  | _ => None
  end = Some (Some 10, [], Some (mkAvlNode None None 1 20 0)).
Proof. vm_compute. reflexivity. Qed.

Lemma AvlMap_insert_existing_key_witness :
  exists e1 k0 v0 e2 w' t',
    entries tree1 = e1 ++ (k0, v0) :: e2 /\ Zcmp 1 k0 = 0 /\
    AvlMap_insert Zcmp 1 1 20 map1 = Done (Some v0) w' /\
    map_at w' t' /\ entries t' = e1 ++ (k0, 20) :: e2 /\
    keys t' = keys tree1 /\ len w' = len map1.
Proof.
  apply (AvlMap_insert_existing_key Zcmp 1 20 map1 tree1 1).
  - split; [reflexivity|]. split; [simpl; repeat split; reflexivity|simpl; set_solver].
  - unfold bst, keys; simpl. repeat constructor.
  - exists 1. split; [apply list_elem_of_here|reflexivity].
  - simpl. lia.
Defined.

Lemma AvlMap_insert_existing_no_deleter_witness :
  exists k0 v0 w',
    (k0, v0) ∈ entries tree1 /\ Zcmp 1 k0 = 0 /\
    AvlMap_insert Zcmp 1 1 20 map1 = Done (Some v0) w' /\
    events w' = events map1.
Proof.
  apply (AvlMap_insert_existing_no_deleter Zcmp 1 20 map1 tree1 1).
  - split; [reflexivity|]. split; [simpl; repeat split; reflexivity|simpl; set_solver].
  - unfold bst, keys; simpl. repeat constructor.
  - exists 1. split; [apply list_elem_of_here|reflexivity].
  - simpl. lia.
Defined.

(** ** Further properties of the map *)

Section MapMore.
Context {K V : Type}.
Implicit Types (m : gmap addr (AvlNode K V)) (w : world K V) (t l r : @tree K V).

Lemma map_tree_at_live m t x : tree_at m t -> x ∈ dom_tree t -> x ∈ dom m.
Proof.
  induction t as [|a l IHl k v bf r IHr]; simpl.
  - intros _ Hx. by apply not_elem_of_empty in Hx.
  - intros (Ha & Hl & Hr) Hx.
    apply elem_of_union in Hx as [Hx|Hx]; [apply elem_of_union in Hx as [Hx|Hx]|].
    + apply elem_of_singleton in Hx as ->. apply elem_of_dom. by eexists.
    + by apply IHl.
    + by apply IHr.
Qed.

Section Fresh.
Context (compare : K -> K -> Z) `{!TotalCmp compare}.

#[local] Instance map_lt_trans_inst : Transitive (fun a b : K => compare a b < 0).
Proof. intros a b c. apply cmp_lt_trans, _. Qed.

(** The loop of [AvlMap_insert] on a key that compares equal to no stored
    one: it ends at an empty slot, where the new cell is linked. *)
Lemma insert_loop_new q v t : forall w fuel a,
  root_of t = Some a -> tree_at (cells w) t -> distinct t ->
  bst compare t ->
  (forall k0, k0 ∈ keys t -> compare q k0 <> 0) ->
  (depth t <= fuel)%nat ->
  exists m' t' e1 e2,
    insert_loop compare fuel q v a w
      = Done None (mkWorld m' (root w) ((len w + 1) mod size_max) (events w)) /\
    tree_at m' t' /\ distinct t' /\ bst compare t' /\
    root_of t' = root_of t /\
    dom_tree t' = {[fresh (dom (cells w))]} ∪ dom_tree t /\
    entries t = e1 ++ e2 /\ entries t' = e1 ++ (q, v) :: e2 /\
    (depth t' <= S (depth t))%nat /\
    (forall y, y ∉ {[fresh (dom (cells w))]} ∪ dom_tree t -> m' !! y = cells w !! y).
Proof.
  induction t as [|a' l IHl k vk bf r IHr]; intros w fuel a Hroot Ht Hd Hb Hnew Hfuel;
    [discriminate|].
  injection Hroot as ->. pose proof Ht as (Ha & Hl & Hr).
  destruct Hd as (Hd1 & Hd2 & Hd3 & Hd4 & Hd5).
  destruct fuel as [|fuel]; [simpl in Hfuel; lia|]. cbn [depth] in Hfuel.
  pose proof Hb as Hb0.
  apply (map_bst_inv compare) in Hb. destruct Hb as (Hbl & Hbr & Hlk & Hkr).
  set (an := fresh (dom (cells w))).
  assert (Hfresh : an ∉ dom (cells w)) by apply is_fresh.
  assert (Hant : an ∉ dom_tree (Tree a l k vk bf r)).
  { intros Hx. apply Hfresh. by apply (map_tree_at_live _ _ _ Ht). }
  simpl in Hant.
  assert (Hana : an <> a) by set_solver.
  assert (Hk : compare q k <> 0).
  { apply Hnew. rewrite map_keys_Tree. apply elem_of_app. right. apply list_elem_of_here. }
  rewrite insert_loop_unfold.
  erewrite map_bind_load by exact Ha. cbn [key left right value]. cbv zeta.
  replace (compare q k =? 0) with false by (symmetry; by apply Z.eqb_neq).
  destruct (Z.ltb_spec (compare q k) 0) as [Hlt|Hge].
  - destruct l as [|b ll kb vb bfb lr].
    + cbn [root_of].
      unfold bind at 1. unfold alloc_node. fold an.
      erewrite map_bind_update
        by (cbn [cells set_cells]; rewrite lookup_insert_ne by done; exact Ha).
      unfold bind, incr_len, ret, set_left, set_len, set_cells; simpl.
      eexists _, (Tree a (Tree an Empty q v 0 Empty) k vk bf r), [], (entries (Tree a Empty k vk bf r)).
      split; [reflexivity|].
      split; [|split; [|split; [|split; [done|split; [|split; [done|split; [done|split]]]]]]].
      * simpl. split; [|split; [split; [|done]|]].
        -- by rewrite lookup_insert_eq.
        -- rewrite lookup_insert_ne by done. by rewrite lookup_insert_eq.
        -- eapply map_tree_at_agree; [|exact Hr]. intros y Hy.
           rewrite !lookup_insert_ne by set_solver. done.
      * simpl. set_solver.
      * unfold bst in *. rewrite map_keys_Tree in *. simpl.
        apply (Sorted_StronglySorted _) in Hb0. apply StronglySorted_Sorted.
        simpl in Hb0. apply StronglySorted_cons. split; [|done].
        apply Forall_cons. split; [done|].
        apply StronglySorted_cons in Hb0 as (Hkf & _).
        rewrite Forall_forall in Hkf |- *. intros x Hx.
        apply (cmp_lt_trans compare q k x); [done|by apply Hkf].
      * simpl. set_solver.
      * simpl. lia.
      * intros y Hy. rewrite !lookup_insert_ne by set_solver. done.
    + cbn [root_of].
      destruct (IHl w fuel b eq_refl Hl Hd4 Hbl) as
        (m' & t' & e1 & e2 & Hrun & Ht' & Hdis' & Hbst' & Hroot' & Hdom' & Hent & Hent' & Hdep & Hfr).
      { intros k0 Hk0. apply Hnew. rewrite map_keys_Tree. apply elem_of_app. by left. }
      { lia. }
      fold an in Hdom', Hfr.
      exists m', (Tree a t' k vk bf r), e1, (e2 ++ (k, vk) :: entries r).
      split; [exact Hrun|].
      split; [|split; [|split; [|split; [done|split; [|split; [|split; [|split]]]]]]].
      * cbn [tree_at]. split; [|split; [done|]].
        -- rewrite Hroot'. rewrite Hfr by set_solver. exact Ha.
        -- eapply map_tree_at_agree; [|exact Hr]. intros y Hy. apply Hfr. set_solver.
      * cbn [distinct]. rewrite Hdom'. set_solver.
      * unfold bst in *. rewrite map_keys_Tree in *.
        apply (Sorted_StronglySorted _) in Hb0, Hbst'. apply StronglySorted_Sorted.
        apply StronglySorted_app in Hb0 as (Hlr & _ & Hsr).
        apply StronglySorted_app. split; [|done].
        intros x1 x2 H1 H2.
        assert (Hx1 : x1 ∈ keys (Tree b ll kb vb bfb lr) \/ x1 = q).
        { unfold keys in H1 |- *. rewrite Hent' in H1. rewrite Hent.
          rewrite fmap_app, fmap_cons in H1. rewrite fmap_app.
          rewrite elem_of_app, elem_of_cons in H1. rewrite elem_of_app. simpl in H1. tauto. }
        destruct Hx1 as [Hx1| ->]; [by apply Hlr|].
        apply elem_of_cons in H2 as [->|H2]; [done|].
        apply (cmp_lt_trans compare q k x2); [done|]. by apply Hkr.
      * cbn [dom_tree]. rewrite Hdom'. set_solver.
      * rewrite map_entries_Tree, Hent, <- ?app_assoc. done.
      * rewrite map_entries_Tree, Hent', <- ?app_assoc. done.
      * cbn [depth] in *. lia.
      * intros y Hy. apply Hfr. cbn [dom_tree] in Hy. set_solver.
  - assert (Hgt : compare k q < 0).
    { apply (cmp_lt_gt compare). lia. }
    destruct r as [|b rl kb vb bfb rr].
    + cbn [root_of].
      unfold bind at 1. unfold alloc_node. fold an.
      erewrite map_bind_update
        by (cbn [cells set_cells]; rewrite lookup_insert_ne by done; exact Ha).
      unfold bind, incr_len, ret, set_right, set_len, set_cells; simpl.
      eexists _, (Tree a l k vk bf (Tree an Empty q v 0 Empty)), (entries l ++ [(k, vk)]), [].
      split; [reflexivity|].
      split; [|split; [|split; [|split; [done|split; [|split; [|split; [|split]]]]]]].
      * simpl. split; [|split; [|split; [|done]]].
        -- by rewrite lookup_insert_eq.
        -- eapply map_tree_at_agree; [|exact Hl]. intros y Hy.
           rewrite !lookup_insert_ne by set_solver. done.
        -- rewrite lookup_insert_ne by done. by rewrite lookup_insert_eq.
      * simpl. set_solver.
      * unfold bst in *. rewrite map_keys_Tree in *.
        apply (Sorted_StronglySorted _) in Hb0. apply StronglySorted_Sorted.
        apply StronglySorted_app in Hb0 as (Hlr & Hsl & Hsr).
        apply StronglySorted_app. split; [|split; [done|]].
        -- intros x1 x2 H1 H2. apply elem_of_cons in H2 as [->|H2]; [by apply Hlr; [|apply list_elem_of_here]|].
           unfold keys in H2. simpl in H2. apply list_elem_of_singleton in H2 as ->.
           apply (cmp_lt_trans compare x1 k q); [|done]. by apply Hlk.
        -- unfold keys. simpl. repeat constructor. done.
      * simpl. set_solver.
      * simpl. rewrite app_nil_r. done.
      * simpl. rewrite <- app_assoc. done.
      * simpl. lia.
      * intros y Hy. rewrite !lookup_insert_ne by set_solver. done.
    + cbn [root_of].
      destruct (IHr w fuel b eq_refl Hr Hd5 Hbr) as
        (m' & t' & e1 & e2 & Hrun & Ht' & Hdis' & Hbst' & Hroot' & Hdom' & Hent & Hent' & Hdep & Hfr).
      { intros k0 Hk0. apply Hnew. rewrite map_keys_Tree. apply elem_of_app. right.
        by apply list_elem_of_further. }
      { lia. }
      fold an in Hdom', Hfr.
      exists m', (Tree a l k vk bf t'), (entries l ++ (k, vk) :: e1), e2.
      split; [exact Hrun|].
      split; [|split; [|split; [|split; [done|split; [|split; [|split; [|split]]]]]]].
      * cbn [tree_at]. split; [|split; [|done]].
        -- rewrite Hroot'. rewrite Hfr by set_solver. exact Ha.
        -- eapply map_tree_at_agree; [|exact Hl]. intros y Hy. apply Hfr. set_solver.
      * cbn [distinct]. rewrite Hdom'. set_solver.
      * unfold bst in *. rewrite map_keys_Tree in *.
        apply (Sorted_StronglySorted _) in Hb0, Hbst'. apply StronglySorted_Sorted.
        apply StronglySorted_app in Hb0 as (Hlr & Hsl & Hsr).
        apply StronglySorted_cons in Hsr as (Hkf & Hsr).
        rewrite Forall_forall in Hkf.
        assert (Hin' : forall x, x ∈ keys t' -> x ∈ keys (Tree b rl kb vb bfb rr) \/ x = q).
        { intros x H1. unfold keys in H1 |- *. rewrite Hent' in H1. rewrite Hent.
          rewrite fmap_app, fmap_cons in H1. rewrite fmap_app.
          rewrite elem_of_app, elem_of_cons in H1. rewrite elem_of_app. simpl in H1. tauto. }
        apply StronglySorted_app. split; [|split; [done|]].
        -- intros x1 x2 H1 H2. apply elem_of_cons in H2 as [->|H2]; [by apply Hlk|].
           destruct (Hin' x2 H2) as [Hx2| ->].
           ++ apply Hlr; [done|]. by apply list_elem_of_further.
           ++ apply (cmp_lt_trans compare x1 k q); [|done]. by apply Hlk.
        -- apply StronglySorted_cons. split; [|done].
           apply Forall_forall. intros x Hx.
           destruct (Hin' x Hx) as [Hx2| ->]; [by apply Hkf|done].
      * cbn [dom_tree]. rewrite Hdom'. set_solver.
      * rewrite map_entries_Tree, Hent, <- ?app_assoc. done.
      * rewrite map_entries_Tree, Hent', <- ?app_assoc. done.
      * cbn [depth] in *. lia.
      * intros y Hy. apply Hfr. cbn [dom_tree] in Hy. set_solver.
Qed.

(** In a strictly ascending list of pairs, a key is found at one place
    only. *)
Lemma sorted_split_unique (e1 e2 e1' e2' : list (K * V)) x y :
  StronglySorted (fun a b => compare a b < 0) ((e1 ++ x :: e2).*1) ->
  e1 ++ x :: e2 = e1' ++ y :: e2' ->
  compare x.1 y.1 = 0 ->
  e1 = e1' /\ x = y /\ e2 = e2'.
Proof.
  revert e1'. induction e1 as [|z e1 IH]; intros e1' Hs Heq Hc.
  - destruct e1' as [|z' e1'].
    + simpl in Heq. injection Heq as -> ->. done.
    + simpl in Heq. injection Heq as -> ->. exfalso.
      simpl in Hs. apply StronglySorted_cons in Hs as (Hf & _).
      rewrite Forall_forall in Hf.
      assert (compare z'.1 y.1 < 0); [|lia].
      apply Hf. rewrite fmap_app, fmap_cons, elem_of_app, elem_of_cons. right. by left.
  - destruct e1' as [|z' e1'].
    + simpl in Heq. injection Heq as -> <-. exfalso.
      simpl in Hs. apply StronglySorted_cons in Hs as (Hf & _).
      rewrite Forall_forall in Hf.
      assert (compare y.1 x.1 < 0).
      { apply Hf. rewrite fmap_app, fmap_cons, elem_of_app, elem_of_cons. right. by left. }
      pose proof (cmp_antisym (cmp:=compare) y.1 x.1) as Ha.
      rewrite Hc in Ha. simpl in Ha. lia.
    + simpl in Heq. injection Heq as -> Heq.
      simpl in Hs. apply StronglySorted_cons in Hs as (_ & Hs).
      destruct (IH e1' Hs Heq Hc) as (-> & -> & ->). done.
Qed.

Lemma AvlMap_insert_new q v w t fuel :
  map_at w t -> bst compare t ->
  (forall k0, k0 ∈ keys t -> compare q k0 <> 0) ->
  (depth t <= fuel)%nat ->
  exists w' t' e1 e2,
    AvlMap_insert compare fuel q v w = Done None w' /\
    map_at w' t' /\ bst compare t' /\
    entries t = e1 ++ e2 /\ entries t' = e1 ++ (q, v) :: e2 /\
    len w' = (len w + 1) mod size_max /\ events w' = events w /\
    (depth t' <= S (depth t))%nat.
Proof.
  intros (Hroot & Ht & Hd) Hb Hnew Hfuel.
  destruct t as [|a l k vk bf r].
  - exists (mkWorld (<[fresh (dom (cells w)) := mkAvlNode None None q v 0]> (cells w))
                    (Some (fresh (dom (cells w)))) ((len w + 1) mod size_max) (events w)),
           (Tree (fresh (dom (cells w))) Empty q v 0 Empty), [], [].
    split; [|split; [|split; [|done]]].
    + unfold AvlMap_insert. simpl in Hroot. rewrite Hroot. reflexivity.
    + split; [done|]. split; [|simpl; set_solver].
      simpl. by rewrite lookup_insert_eq.
    + unfold bst, keys. simpl. repeat constructor.
  - destruct (insert_loop_new q v (Tree a l k vk bf r) w fuel a eq_refl Ht Hd Hb Hnew Hfuel)
      as (m' & t' & e1 & e2 & Hrun & Ht' & Hdis' & Hbst' & Hroot' & Hdom' & Hent & Hent' & Hdep & Hfr).
    eexists _, t', e1, e2. split.
    { unfold AvlMap_insert. rewrite Hroot. exact Hrun. }
    split; [|done].
    split; [|done]. simpl. by rewrite Hroot, Hroot'.
Qed.

(** X16. [AvlMap_insert] of a key that compares equal to no stored key,
    into a map whose keys ascend in order: the result is [NULL], a cell
    from [alloc_node] holds the pair at the place in order where the key
    belongs, the keys still ascend, [len] has gone up by one (as a
    [size_t]), and neither the deleter nor [free] is called. *)
Theorem AvlMap_insert_new_key q v w t fuel :
  map_at w t -> bst compare t ->
  (forall k0, k0 ∈ keys t -> compare q k0 <> 0) ->
  (depth t <= fuel)%nat ->
  exists w' t' e1 e2,
    AvlMap_insert compare fuel q v w = Done None w' /\
    map_at w' t' /\ bst compare t' /\
    entries t = e1 ++ e2 /\ entries t' = e1 ++ (q, v) :: e2 /\
    len w' = (len w + 1) mod size_max /\ events w' = events w.
Proof.
  intros Hm Hb Hnew Hfuel.
  destruct (AvlMap_insert_new q v w t fuel Hm Hb Hnew Hfuel)
    as (w' & t' & e1 & e2 & H1 & H2 & H3 & H4 & H5 & H6 & H7 & _).
  by exists w', t', e1, e2.
Qed.

(** X17. [AvlMap_insert] of a new key with one value, then of the same
    key with another: the second call returns the first value, the map
    holds the key once, with the second value, and [len] has gone up by
    one. *)
Theorem AvlMap_insert_twice_returns_first q v1 v2 w t fuel :
  map_at w t -> bst compare t ->
  (forall k0, k0 ∈ keys t -> compare q k0 <> 0) ->
  (depth t < fuel)%nat ->
  exists w' t' e1 e2,
    (let* _ := AvlMap_insert compare fuel q v1 in
     AvlMap_insert compare fuel q v2) w = Done (Some v1) w' /\
    map_at w' t' /\
    entries t = e1 ++ e2 /\ entries t' = e1 ++ (q, v2) :: e2 /\
    len w' = (len w + 1) mod size_max.
Proof.
  intros Hm Hb Hnew Hfuel.
  destruct (AvlMap_insert_new q v1 w t fuel Hm Hb Hnew ltac:(lia))
    as (w1 & t1 & e1 & e2 & Hrun1 & Hm1 & Hb1 & Hent & Hent1 & Hlen1 & _ & Hdep).
  assert (Hq : compare q q = 0).
  { pose proof (cmp_antisym (cmp:=compare) q q) as Ha.
    destruct (compare q q); simpl in Ha; lia. }
  destruct (AvlMap_insert_existing compare q v2 w1 t1 fuel Hm1 Hb1) as
    (e1' & k0 & v0 & e2' & m' & t2 & Hent1' & Hk0 & Hrun2 & Hm2 & Hent2).
  { exists q. split; [|done]. unfold keys. rewrite Hent1, fmap_app, fmap_cons.
    rewrite elem_of_app, elem_of_cons. right. by left. }
  { lia. }
  rewrite Hent1 in Hent1'.
  destruct (sorted_split_unique e1 e2 e1' e2' (q, v1) (k0, v0)) as (<- & Hx & <-);
    [| done | done |].
  { apply (Sorted_StronglySorted _). unfold bst, keys in Hb1. rewrite <- Hent1. exact Hb1. }
  injection Hx as <- <-.
  exists (set_cells m' w1), t2, e1, e2.
  split; [|done].
  unfold bind. rewrite Hrun1. exact Hrun2.
Qed.

(** X18. [AvlMap_insert] keeps the invariants of the map, whatever the
    key: the cells are a tree whose keys ascend in order, and [len] is
    the number of pairs, as a [size_t]. *)
Theorem AvlMap_insert_keeps_invariants q v w t fuel :
  map_at w t -> bst compare t -> counted w t ->
  (depth t <= fuel)%nat ->
  exists res w' t',
    AvlMap_insert compare fuel q v w = Done res w' /\
    map_at w' t' /\ bst compare t' /\ counted w' t'.
Proof.
  intros Hm Hb Hc Hfuel.
  destruct (decide (Exists (fun k0 => compare q k0 = 0) (keys t))) as [Hex|Hex].
  - apply Exists_exists in Hex. destruct Hex as (k0 & Hin & Hk0).
    destruct (AvlMap_insert_existing compare q v w t fuel Hm Hb) as
      (e1 & k1 & v1 & e2 & m' & t' & Hent & Hk1 & Hrun & Hm' & Hent'); [|done|].
    { by exists k0. }
    exists (Some v1), (set_cells m' w), t'. split; [done|]. split; [done|]. split.
    + unfold bst, keys in *. rewrite Hent', fmap_app, fmap_cons. simpl.
      rewrite Hent, fmap_app, fmap_cons in Hb. exact Hb.
    + unfold counted in *. simpl. rewrite Hc, Hent, Hent', !length_app. done.
  - destruct (AvlMap_insert_new q v w t fuel Hm Hb) as
      (w' & t' & e1 & e2 & Hrun & Hm' & Hb' & Hent & Hent' & Hlen & _); [|done|].
    { intros k0 Hin Hk0. apply Hex, Exists_exists. by exists k0. }
    exists None, w', t'. split; [done|]. split; [done|]. split; [done|].
    unfold counted in *. rewrite Hlen, Hc, Hent, Hent', !length_app. simpl.
    rewrite Z.add_mod_idemp_l by (unfold size_max; lia).
    f_equal. lia.
Qed.

End Fresh.

(** X19. [AvlMap_init], then [AvlMap_insert], whatever the struct and
    the memory held: the result is [NULL]; the map holds the one pair, in
    a cell that was not live before, its count is right, and no cell that
    was live has changed. *)
Theorem AvlMap_init_then_insert (compare : K -> K -> Z) fuel q v w :
  exists w' t',
    (let* _ := AvlMap_init in AvlMap_insert compare fuel q v) w = Done None w' /\
    map_at w' t' /\ entries t' = [(q, v)] /\ bst compare t' /\ counted w' t' /\
    events w' = events w /\
    (forall x, x ∈ dom (cells w) -> cells w' !! x = cells w !! x).
Proof.
  set (a := fresh (dom (cells w))).
  assert (Ha : a ∉ dom (cells w)) by apply is_fresh.
  exists (mkWorld (<[a := mkAvlNode None None q v 0]> (cells w)) (Some a) 1 (events w)),
         (Tree a Empty q v 0 Empty).
  split; [reflexivity|]. split; [|split; [done|split; [|split; [done|split; [done|]]]]].
  - split; [done|]. split; [|simpl; set_solver].
    simpl. by rewrite lookup_insert_eq.
  - unfold bst, keys. simpl. repeat constructor.
  - intros x Hx. simpl. apply lookup_insert_ne. intros ->. done.
Qed.

(** *** [AvlMap_clear] *)

Lemma thr_at_None m t : tree_at m t -> thr_at m t None.
Proof.
  induction t as [|a l _ k v bf r IHr]; [done|].
  intros (Ha & Hl & Hr). split; [|split; [done|by apply IHr]].
  rewrite Ha. by destruct r.
Qed.

Lemma thr_at_agree m m' t th :
  (forall x, x ∈ dom_tree t -> m' !! x = m !! x) -> thr_at m t th -> thr_at m' t th.
Proof.
  induction t as [|a l _ k v bf r IHr]; [done|].
  intros Hag (Ha & Hl & Hr). cbn [dom_tree] in Hag.
  split; [|split].
  - rewrite Hag by set_solver. done.
  - eapply map_tree_at_agree; [|exact Hl]. intros y Hy. apply Hag. set_solver.
  - apply IHr; [|done]. intros y Hy. apply Hag. set_solver.
Qed.

Lemma right_spine_dec t : right_spine t \/ ~ right_spine t.
Proof.
  induction t as [|a l _ k v bf r IHr]; [by left|].
  destruct l as [|b ll kb vb bfb lr].
  - destruct IHr as [H|H]; [left; done|right]. intros (_ & H'). done.
  - right. intros (H' & _). discriminate.
Qed.

Lemma depth_node_count t : (depth t <= node_count t)%nat.
Proof. induction t; simpl; lia. Qed.

Lemma right_spine_depth t : right_spine t -> depth t = node_count t.
Proof.
  induction t as [|a l _ k v bf r IHr]; [done|].
  intros (-> & Hs). simpl. by rewrite IHr.
Qed.

Lemma release_run w a n :
  cells w !! a = Some n ->
  release a w = Done tt (mkWorld (delete a (cells w)) (root w) (len w)
                                 (events w ++ [Deleted (key n) (value n); Freed a])).
Proof.
  intros Ha. unfold release, bind, load, emit, free. simpl. rewrite Ha. simpl.
  rewrite Ha. by rewrite <- app_assoc.
Qed.

(** The inner loop of [AvlMap_clear] on a subtree no thread enters: it
    stops at the last node in order, whose [right] is empty, and writing
    [current] there threads the subtree. *)
Lemma find_predecessor_rightmost t : forall w fuel cur a,
  root_of t = Some a -> tree_at (cells w) t -> distinct t ->
  cur ∉ dom_tree t -> (depth t <= fuel)%nat ->
  exists p pn,
    find_predecessor fuel a cur w = Done p w /\
    cells w !! p = Some pn /\ right pn = None /\ p ∈ dom_tree t /\
    thr_at (<[p := set_right (Some cur) pn]> (cells w)) t (Some cur).
Proof.
  induction t as [|a' l _ k v bf r IHr]; intros w fuel cur a Hroot Ht Hd Hcur Hfuel;
    [discriminate|].
  injection Hroot as ->. destruct Ht as (Ha & Hl & Hr).
  destruct Hd as (Hd1 & Hd2 & Hd3 & Hd4 & Hd5).
  destruct fuel as [|fuel]; [simpl in Hfuel; lia|]. cbn [depth] in Hfuel.
  cbn [dom_tree] in Hcur.
  cbn [find_predecessor]. erewrite map_bind_load by exact Ha. cbn [right].
  destruct r as [|b rl kb vb bfb rr].
  - cbn [root_of]. eexists a, _. split; [reflexivity|]. split; [exact Ha|].
    split; [done|]. split; [set_solver|].
    split; [by rewrite lookup_insert_eq|]. split; [|done].
    eapply map_tree_at_agree; [|exact Hl]. intros y Hy.
    rewrite lookup_insert_ne by set_solver. done.
  - cbn [root_of].
    rewrite bool_decide_eq_true_2 by (cbn [dom_tree] in Hcur; set_solver).
    destruct (IHr w fuel cur b eq_refl Hr Hd5) as (p & pn & Hrun & Hp & Hpn & Hin & Hthr);
      [set_solver|lia|].
    exists p, pn. split; [done|]. split; [done|]. split; [done|].
    split; [cbn [dom_tree]; set_solver|].
    split; [|split; [|done]].
    + rewrite lookup_insert_ne by set_solver. done.
    + eapply map_tree_at_agree; [|exact Hl]. intros y Hy.
      rewrite lookup_insert_ne by set_solver. done.
Qed.

(** The outer loop of [AvlMap_clear] on a subtree without left children
    whose last node is threaded to [th]: one round per node releases the
    nodes in order, then the loop is at [th]. *)
Lemma clear_loop_thread t : forall w th fuel a,
  root_of t = Some a -> thr_at (cells w) t th -> distinct t -> right_spine t ->
  exists m',
    clear_loop (node_count t + fuel) (Some a) w
      = clear_loop fuel th (mkWorld m' (root w) (len w) (events w ++ releases t)) /\
    (forall x, x ∈ dom_tree t -> m' !! x = None) /\
    (forall x, x ∉ dom_tree t -> m' !! x = cells w !! x).
Proof.
  induction t as [|a' l _ k v bf r IHr]; intros w th fuel a Hroot Ht Hd Hs; [discriminate|].
  injection Hroot as ->. destruct Hs as (-> & Hs). destruct Ht as (Ha & _ & Hr).
  destruct Hd as (_ & Hd2 & _ & _ & Hd5).
  cbn [node_count plus clear_loop].
  erewrite map_bind_load by exact Ha. cbn [left right root_of].
  unfold bind at 1. rewrite (release_run _ _ _ Ha). cbn [key value].
  set (w1 := mkWorld (delete a (cells w)) _ _ _).
  destruct r as [|b rl kb vb bfb rr].
  - exists (delete a (cells w)). split; [|split].
    + reflexivity.
    + intros x Hx. simpl in Hx. assert (x = a) as -> by set_solver. apply lookup_delete_eq.
    + intros x Hx. simpl in Hx. apply lookup_delete_ne. set_solver.
  - destruct (IHr w1 th fuel b eq_refl) as (m' & Hrun & Hin & Hout); [|done|done|].
    { eapply thr_at_agree; [|exact Hr]. intros y Hy. simpl.
      rewrite lookup_delete_ne by set_solver. done. }
    exists m'. split; [|split].
    + cbn [root_of]. rewrite Hrun. unfold w1. simpl. rewrite <- !app_assoc. done.
    + intros x Hx. cbn [dom_tree] in Hx.
      destruct (decide (x ∈ dom_tree (Tree b rl kb vb bfb rr))) as [Hxr|Hxr]; [by apply Hin|].
      rewrite Hout by done. simpl.
      assert (x = a) as -> by set_solver. apply lookup_delete_eq.
    + intros x Hx. cbn [dom_tree] in Hx. rewrite Hout by set_solver. simpl.
      apply lookup_delete_ne. set_solver.
Qed.

(** On a subtree with a left child somewhere, the loop frees the left
    subtree of the first such node, comes back to the node through the
    thread, and reads [current->left->right] from the freed cell. *)
Lemma clear_loop_left_child t : forall w th fuel a,
  root_of t = Some a -> thr_at (cells w) t th -> distinct t -> ~ right_spine t ->
  (2 * node_count t + 2 <= fuel)%nat ->
  clear_loop fuel (Some a) w = Fault.
Proof.
  induction t as [|a' l IHl k v bf r IHr]; intros w th fuel a Hroot Ht Hd Hs Hfuel;
    [discriminate|].
  injection Hroot as ->. destruct Ht as (Ha & Hl & Hr).
  destruct Hd as (Hd1 & Hd2 & Hd3 & Hd4 & Hd5).
  destruct fuel as [|fuel]; [lia|]. cbn [node_count] in Hfuel.
  cbn [clear_loop]. erewrite map_bind_load by exact Ha. cbn [left].
  destruct l as [|b ll kb vb bfb lr].
  - cbn [root_of right].
    unfold bind at 1. rewrite (release_run _ _ _ Ha). cbn [key value].
    destruct r as [|c rl kc vc bfc rr]; [exfalso; apply Hs; done|].
    cbn [root_of]. eapply (IHr _ th); [done| |done| |simpl in *; lia].
    + eapply thr_at_agree; [|exact Hr]. intros y Hy. simpl.
      rewrite lookup_delete_ne by set_solver. done.
    + intros Hsr. apply Hs. done.
  - cbn [root_of].
    set (sl := Tree b ll kb vb bfb lr) in *.
    pose proof (depth_node_count sl) as Hdn.
    destruct (find_predecessor_rightmost sl w fuel a b eq_refl Hl Hd4 Hd1)
      as (p & pn & Hrun & Hp & Hpn & Hin & Hthr); [lia|].
    unfold bind at 1. rewrite Hrun.
    erewrite map_bind_load by exact Hp. rewrite Hpn.
    erewrite map_bind_update by exact Hp.
    assert (Hpa : p <> a) by set_solver.
    erewrite map_bind_load
      by (cbn [cells set_cells]; rewrite lookup_insert_ne by done; exact Ha).
    cbn [left root_of]. change (root_of sl) with (Some b).
    destruct (right_spine_dec sl) as [Hsl|Hsl].
    + replace fuel with (node_count sl + S (S (fuel - node_count sl - 2)))%nat by lia.
      destruct (clear_loop_thread sl (set_cells (<[p:=set_right (Some a) pn]> (cells w)) w)
                  (Some a) (S (S (fuel - node_count sl - 2))) b eq_refl Hthr Hd4 Hsl)
        as (m' & Hrun' & Hin' & Hout').
      rewrite Hrun'. cbn [clear_loop].
      erewrite map_bind_load; cycle 1.
      { cbn [cells]. rewrite Hout' by done. cbn [cells set_cells].
        rewrite lookup_insert_ne by done. exact Ha. }
      cbn [left root_of find_predecessor]. change (root_of sl) with (Some b).
      unfold bind, load. cbn [cells]. rewrite Hin'; [done|]. subst sl. simpl. set_solver.
    + eapply (IHl _ (Some a)); [done|exact Hthr|done|done|lia].
Qed.

(** X20. [AvlMap_clear] on a non-empty map in which no node has a left
    child: for each node in order the deleter is called on its pair and
    the cell is freed, once each; [len] is 0; no other cell changes; and
    [root] still holds the address of the freed root cell, so that a
    second [AvlMap_clear] reads freed memory. *)
Theorem AvlMap_clear_right_spine w t a fuel :
  map_at w t -> root_of t = Some a -> right_spine t ->
  (depth t < fuel)%nat ->
  exists w',
    AvlMap_clear fuel w = Done tt w' /\
    events w' = events w ++ releases t /\
    len w' = 0 /\ root w' = Some a /\
    (forall x, x ∈ dom_tree t -> cells w' !! x = None) /\
    (forall x, x ∉ dom_tree t -> cells w' !! x = cells w !! x) /\
    (forall fuel', (0 < fuel')%nat -> AvlMap_clear fuel' w' = Fault).
Proof.
  intros (Hroot & Ht & Hd) Ha Hs Hfuel.
  rewrite (right_spine_depth _ Hs) in Hfuel.
  destruct (clear_loop_thread t w None (S (fuel - node_count t - 1)) a Ha
              (thr_at_None _ _ Ht) Hd Hs) as (m' & Hrun & Hin & Hout).
  replace (node_count t + S (fuel - node_count t - 1))%nat with fuel in Hrun by lia.
  eexists. split.
  - unfold AvlMap_clear. rewrite Hroot, Ha. unfold bind. rewrite Hrun.
    reflexivity.
  - simpl. split; [done|]. split; [done|]. split; [by rewrite Hroot|].
    split; [done|]. split; [done|].
    intros fuel' Hfuel'. destruct fuel' as [|fuel']; [lia|].
    assert (Hfreed : m' !! a = None).
    { apply Hin. destruct t; [discriminate|]. injection Ha as ->. simpl. set_solver. }
    unfold AvlMap_clear. simpl. rewrite Hroot, Ha. unfold bind, load. simpl.
    by rewrite Hfreed.
Qed.

(** X21. [AvlMap_clear] on a map in which some node has a left child
    reads freed memory: the threaded traversal frees the left subtree of
    the first such node it meets, returns to the node through the thread
    and then reads [current->left->right]. *)
Theorem AvlMap_clear_left_child_faults w t fuel :
  map_at w t -> ~ right_spine t ->
  (2 * node_count t + 2 <= fuel)%nat ->
  AvlMap_clear fuel w = Fault.
Proof.
  intros (Hroot & Ht & Hd) Hs Hfuel.
  destruct t as [|a l k v bf r]; [exfalso; by apply Hs|].
  unfold AvlMap_clear. rewrite Hroot. cbn [root_of]. unfold bind.
  rewrite (clear_loop_left_child (Tree a l k v bf r) w None fuel a eq_refl
             (thr_at_None _ _ Ht) Hd Hs Hfuel).
  done.
Qed.

End MapMore.

(** *** The further properties on concrete maps *)

Example map21_built : insert_all 2 [(2, 20); (1, 10)] empty_map = Done tt map21.
Proof. vm_compute. reflexivity. Qed.

Lemma map1_at : map_at map1 tree1.
Proof. split; [reflexivity|]. split; [simpl; repeat split; reflexivity|simpl; set_solver]. Qed.

Lemma map1_bst : bst Zcmp tree1.
Proof. unfold bst, keys; simpl. repeat constructor. Qed.

Lemma map1_without_2 k0 : k0 ∈ keys tree1 -> Zcmp 2 k0 <> 0.
Proof.
  intros Hk. unfold keys in Hk. simpl in Hk. unfold Zcmp.
  apply elem_of_cons in Hk as [->|Hk]; [lia|].
  by apply elem_of_nil in Hk.
Qed.

Lemma map21_at : map_at map21 tree21.
Proof. split; [reflexivity|]. split; [simpl; repeat split; reflexivity|simpl; set_solver]. Qed.

Lemma AvlMap_insert_new_key_witness :
  exists w' t' e1 e2,
    AvlMap_insert Zcmp 1 2 20 map1 = Done None w' /\
    map_at w' t' /\ bst Zcmp t' /\
    entries tree1 = e1 ++ e2 /\ entries t' = e1 ++ (2, 20) :: e2 /\
    len w' = (len map1 + 1) mod size_max /\ events w' = events map1.
Proof.
  apply (AvlMap_insert_new_key Zcmp 2 20 map1 tree1 1).
  - exact map1_at.
  - exact map1_bst.
  - exact map1_without_2.
  - simpl. lia.
Defined.

Lemma AvlMap_insert_twice_returns_first_witness :
  exists w' t' e1 e2,
    (let* _ := AvlMap_insert Zcmp 2 2 20 in AvlMap_insert Zcmp 2 2 21) map1
      = Done (Some 20) w' /\
    map_at w' t' /\
    entries tree1 = e1 ++ e2 /\ entries t' = e1 ++ (2, 21) :: e2 /\
    len w' = (len map1 + 1) mod size_max.
Proof.
  apply (AvlMap_insert_twice_returns_first Zcmp 2 20 21 map1 tree1 2).
  - exact map1_at.
  - exact map1_bst.
  - exact map1_without_2.
  - simpl. lia.
Defined.

Lemma AvlMap_insert_keeps_invariants_witness :
  exists res w' t',
    AvlMap_insert Zcmp 1 2 20 map1 = Done res w' /\
    map_at w' t' /\ bst Zcmp t' /\ counted w' t'.
Proof.
  apply (AvlMap_insert_keeps_invariants Zcmp 2 20 map1 tree1 1).
  - exact map1_at.
  - exact map1_bst.
  - reflexivity.
  - simpl. lia.
Defined.

Lemma AvlMap_clear_right_spine_witness :
  exists w',
    AvlMap_clear 2 map1 = Done tt w' /\
    events w' = events map1 ++ releases tree1 /\
    len w' = 0 /\ root w' = Some 1%positive /\
    (forall x, x ∈ dom_tree tree1 -> cells w' !! x = None) /\
    (forall x, x ∉ dom_tree tree1 -> cells w' !! x = cells map1 !! x) /\
    (forall fuel', (0 < fuel')%nat -> AvlMap_clear fuel' w' = Fault).
Proof.
  apply (AvlMap_clear_right_spine map1 tree1 1 2).
  - exact map1_at.
  - reflexivity.
  - simpl. done.
  - simpl. lia.
Defined.

Lemma AvlMap_clear_left_child_faults_witness :
  AvlMap_clear 6 map21 = Fault.
Proof.
  apply (AvlMap_clear_left_child_faults map21 tree21 6).
  - exact map21_at.
  - intros [H _]. discriminate.
  - simpl. lia.
Defined.

End AvlbstProofs.
